(** * wos: invoice amounts, request signing and sweeps of the Wallet of
    Satoshi client

    A shallow embedding of the Go package [wos] (invoice amount decoding,
    [SimpleSigner], [Wallet.PostRequest], the payment and sweep methods and
    [Reader.BalanceAndFee]) together with the properties its design notes state
    about them.

    Go strings are byte sequences: they are modelled by [string], whose
    characters are the 256 values of [ascii].  [uint64] values are modelled by
    [Z] with the wrap-around modulo [2^64] written out, [float64] values by the
    binary64 primitive floats, each operation being rounded on its own (no
    fused multiply-add).

    The first part holds the definitions: the functions of the package, the
    collaborators they are given, the vocabulary of the design notes and the
    sample collaborators of the examples.  The second part holds the
    properties. *)

From Stdlib Require Import ZArith List Bool Ascii String Lia.
From Stdlib Require Import DecimalString DecimalN DecimalPos DecimalFacts.
From Stdlib Require Import Floats.PrimFloat Floats.SpecFloat Floats.FloatOps.
Import ListNotations.

Set Warnings "-inexact-float".

Local Open Scope string_scope.
Local Open Scope Z_scope.

(** ** Bytes and strings *)

(** The numeric value of a byte. *)
Definition byte_val (c : ascii) : Z := Z.of_N (N_of_ascii c).

(** [len(s)] *)
Definition len (s : string) : Z := Z.of_nat (String.length s).

(** The last byte of a non-empty string, [s[len(s)-1]]. *)
Fixpoint last_byte (s : string) : option ascii :=
  match s with
  | EmptyString => None
  | String c EmptyString => Some c
  | String _ rest => last_byte rest
  end.

(** All bytes but the last one, [s[:len(s)-1]]. *)
Fixpoint drop_last (s : string) : string :=
  match s with
  | EmptyString => EmptyString
  | String _ EmptyString => EmptyString
  | String c rest => String c (drop_last rest)
  end.

Definition uint64_modulus : Z := 2 ^ 64.

(** Arithmetic of Go's [uint64]: results are reduced modulo [2^64]. *)
Definition u64 (x : Z) : Z := x mod uint64_modulus.
Definition u64_mul (x y : Z) : Z := u64 (x * y).
Definition u64_add (x y : Z) : Z := u64 (x + y).

(** Arithmetic of Go's [byte]. *)
Definition u8_sub (x y : Z) : Z := (x - y) mod 256.

(** ** Errors *)

(** The package's sentinel errors, created once by [errors.New] and
    compared by identity. *)
Inductive sentinel : Type :=
| InvalidInvoice
| NoAmount
| FixedAmount.

Definition sentinel_eqb (a b : sentinel) : bool :=
  match a, b with
  | InvalidInvoice, InvalidInvoice => true
  | NoAmount, NoAmount => true
  | FixedAmount, FixedAmount => true
  | _, _ => false
  end.

(** The two failure kinds of package [strconv]. *)
Inductive NumErr : Type :=
| ErrSyntax
| ErrRange.

(** Error values.  The rendered text of an error is not modelled: an error
    built by [fmt.Errorf] keeps its format string and the operand of [%w], the
    operands of [%s], [%d], [%c] and [%.8f] only contribute to the text.

    - [Sentinel s]: one of the package variables;
    - [errorString format]: the fresh value that [errors.New] or
      [fmt.Errorf] returns when no error is wrapped;
    - [wrapError format e]: the [*fmt.wrapError] whose [Unwrap] is [e];
    - [wrapErrors format e1 e2]: the value that [fmt.Errorf] returns for two
      [%w] verbs, whose [Unwrap] is the list of [e1] and [e2];
    - [NumError f num k]: a [*strconv.NumError];
    - [Foreign msg]: an error of a collaborator (bech32, JSON, transport),
      which wraps no sentinel of this package. *)
Inductive error : Type :=
| Sentinel (s : sentinel)
| errorString (format : string)
| wrapError (format : string) (err : error)
| wrapErrors (format : string) (err1 err2 : error)
| NumError (Func Num : string) (Err : NumErr)
| Foreign (msg : string).

Definition ErrInvalidInvoice : error := Sentinel InvalidInvoice.
Definition ErrNoAmount : error := Sentinel NoAmount.
Definition ErrFixedAmount : error := Sentinel FixedAmount.

(** [fmt.Errorf(format, ...)] with a single [%w] verb whose operand is
    [operand].  A nil operand is printed as [%!w(<nil>)] and nothing is
    wrapped: the result is then a plain error value. *)
Definition Errorf_w (format : string) (operand : option error) : error :=
  match operand with
  | Some e => wrapError format e
  | None => errorString format
  end.

(** [fmt.Errorf(format, ...)] without a [%w] verb. *)
Definition Errorf (format : string) : error := errorString format.

(** [errors.Is(err, target)] for a target among the package's sentinels: walks
    the [Unwrap] chain of [err] and compares by identity. *)
Fixpoint error_is (e : error) (target : sentinel) : bool :=
  match e with
  | Sentinel s => sentinel_eqb s target
  | wrapError _ inner => error_is inner target
  | wrapErrors _ e1 e2 => error_is e1 target || error_is e2 target
  | errorString _ => false
  | NumError _ _ _ => false
  | Foreign _ => false
  end.

Definition errors_Is (err : option error) (target : sentinel) : bool :=
  match err with
  | None => false
  | Some e => error_is e target
  end.

Definition is_nil (err : option error) : bool :=
  match err with
  | None => true
  | Some _ => false
  end.

(** A Go result pair [(T, error)] of which exactly one side is meaningful. *)
Inductive result (A : Type) : Type :=
| Ok (a : A)
| Err (e : error).
Arguments Ok {A} a.
Arguments Err {A} e.

(** The [error] component of a result pair. *)
Definition err_of {A : Type} (r : result A) : option error :=
  match r with
  | Ok _ => None
  | Err e => Some e
  end.

(** ** strconv.ParseUint(s, 10, 64) *)

Module strconv.

Definition maxUint64 : Z := 2 ^ 64 - 1.

(** [cutoff] is the smallest number such that [cutoff*10 > maxUint64]. *)
Definition cutoff : Z := maxUint64 / 10 + 1.

(** [lower(c)]: the byte with the case bit set. *)
Definition lower (c : Z) : Z := Z.lor c 32.

(** The digit value of a byte, as the loop of [ParseUint] computes it; [None]
    is the [default] branch of its switch. *)
Definition digit_val (c : Z) : option Z :=
  if (48 <=? c) && (c <=? 57) then Some (c - 48)
  else if (97 <=? lower c) && (lower c <=? 122) then Some (lower c - 97 + 10)
  else None.

(** The loop of [ParseUint] over the bytes of the input, for base 10 and
    64 bits; [n] is the value accumulated so far. *)
Fixpoint parse_loop (cs : string) (n : Z) : NumErr + Z :=
  match cs with
  | EmptyString => inr n
  | String ch rest =>
      match digit_val (byte_val ch) with
      | None => inl ErrSyntax
      | Some d =>
          if d >=? 10 then inl ErrSyntax
          else if n >=? cutoff then inl ErrRange
          else
            let n10 := u64_mul n 10 in
            let n1 := u64_add n10 d in
            if (n1 <? n10) || (n1 >? maxUint64) then inl ErrRange
            else parse_loop rest n1
      end
  end.

Definition ParseUint (s : string) : result Z :=
  match s with
  | EmptyString => Err (NumError "ParseUint" s ErrSyntax)
  | _ =>
      match parse_loop s 0 with
      | inl k => Err (NumError "ParseUint" s k)
      | inr n => Ok n
      end
  end.

End strconv.

(** ** decodeAmount *)

(** [decodeAmount] returns the amount encoded by the provided string in
    millisatoshi. *)
Definition decodeAmount (amount : string) : result Z :=
  match last_byte amount with
  | None => Err (Errorf "amount must be non-empty")
  | Some lastHRPChar =>
      let digit := u8_sub (byte_val lastHRPChar) 48 in
      if (digit >=? 0) && (digit <=? 9) then
        match strconv.ParseUint amount with
        | Err e => Err e
        | Ok btc => Ok (u64_mul (u64_mul btc 100000000) 1000)
        end
      else
        let num := drop_last amount in
        if len num <? 1 then Err (Errorf "number must be non-empty")
        else
          match strconv.ParseUint num with
          | Err e => Err e
          | Ok am =>
              if Ascii.eqb lastHRPChar "p" then
                if am <? 10 then Err (Errorf "minimum amount is 10p")
                else if negb (am mod 10 =? 0) then
                  Err (Errorf "amount %d pBTC not expressible in msat")
                else Ok (am / 10)
              else if Ascii.eqb lastHRPChar "n" then Ok (u64_mul am 100)
              else if Ascii.eqb lastHRPChar "u" then Ok (u64_mul am 100000)
              else if Ascii.eqb lastHRPChar "m" then Ok (u64_mul am 100000000)
              else Err (Errorf "unknown multiplier %c")
          end
  end.

(** ** Reference definition of the amount suffix

    The definitions of this section follow the words of the design notes, not
    the code: they are what [decodeAmount] is compared with. *)

(** An ASCII digit. *)
Definition is_digit (c : ascii) : bool :=
  (48 <=? byte_val c) && (byte_val c <=? 57).

Fixpoint all_digits (s : string) : bool :=
  match s with
  | EmptyString => true
  | String c rest => is_digit c && all_digits rest
  end.

(** The number written by the digits of [s] after the digits that gave
    [acc]. *)
Fixpoint dec_fold (s : string) (acc : Z) : Z :=
  match s with
  | EmptyString => acc
  | String c rest => dec_fold rest (acc * 10 + (byte_val c - 48))
  end.

Definition dec_value (s : string) : Z := dec_fold s 0.

(** "Parsed as an unsigned integer": a non-empty string of digits whose value
    fits the 64 bits of the amount type. *)
Definition parse_unsigned (s : string) : option Z :=
  match s with
  | EmptyString => None
  | _ => if all_digits s && (dec_value s <? uint64_modulus)
         then Some (dec_value s) else None
  end.

(** Why a suffix does not decode. *)
Inductive decode_failure : Type :=
| BadNumber            (* empty or non-numeric magnitude *)
| PicoNotExpressible   (* 'p' with a magnitude below 10 or not divisible by 10 *)
| UnknownMultiplier.   (* a trailing character outside p, n, u, m *)

Inductive ref_result : Type :=
| RefOk (msat : Z)
| RefFail (why : decode_failure).

(** The decoding of a non-empty amount suffix as the design notes define it,
    with exact integer products. *)
Definition decodeAmount_ref (amount : string) : ref_result :=
  match last_byte amount with
  | None => RefFail BadNumber
  | Some c =>
      if is_digit c then
        match parse_unsigned amount with
        | Some B => RefOk (B * 10 ^ 11)
        | None => RefFail BadNumber
        end
      else
        match parse_unsigned (drop_last amount) with
        | None => RefFail BadNumber
        | Some m =>
            if Ascii.eqb c "p" then
              if (10 <=? m) && (m mod 10 =? 0) then RefOk (m / 10)
              else RefFail PicoNotExpressible
            else if Ascii.eqb c "n" then RefOk (m * 100)
            else if Ascii.eqb c "u" then RefOk (m * 100000)
            else if Ascii.eqb c "m" then RefOk (m * 100000000)
            else RefFail UnknownMultiplier
        end
  end.

(** The failure kind that an error of [decodeAmount] stands for. *)
Definition failure_of (e : error) : decode_failure :=
  match e with
  | errorString f =>
      if String.eqb f "unknown multiplier %c" then UnknownMultiplier
      else if String.eqb f "minimum amount is 10p" then PicoNotExpressible
      else if String.eqb f "amount %d pBTC not expressible in msat"
      then PicoNotExpressible
      else BadNumber
  | _ => BadNumber
  end.

(** ** Encoding of amounts

    The encoder is not part of the package; it is the one the design notes
    leave to the test harness: the magnitude of the amount in the chosen unit,
    written in decimal without leading zeros, followed by the unit
    character. *)

Inductive multiplier : Type :=
| Pico | Nano | Micro | Milli | Bitcoin.

(** Decimal representation of a non-negative number. *)
Definition to_decimal (n : Z) : string :=
  NilEmpty.string_of_uint (N.to_uint (Z.to_N n)).

(** [expressible u A]: the amount [A] of millisatoshi is a whole number of
    units [u]; [magnitude u A] is that number. *)
Definition expressible (u : multiplier) (A : Z) : bool :=
  match u with
  | Pico => true
  | Nano => A mod 100 =? 0
  | Micro => A mod 100000 =? 0
  | Milli => A mod 100000000 =? 0
  | Bitcoin => A mod 100000000000 =? 0
  end.

Definition magnitude (u : multiplier) (A : Z) : Z :=
  match u with
  | Pico => A * 10
  | Nano => A / 100
  | Micro => A / 100000
  | Milli => A / 100000000
  | Bitcoin => A / 100000000000
  end.

Definition unit_suffix (u : multiplier) : string :=
  match u with
  | Pico => "p"
  | Nano => "n"
  | Micro => "u"
  | Milli => "m"
  | Bitcoin => ""
  end.

Definition encodeAmount (u : multiplier) (A : Z) : option string :=
  if (0 <=? A) && expressible u A
  then Some (to_decimal (magnitude u A) ++ unit_suffix u)
  else None.

(** ** Strings *)

(** [s[lo:hi]].  Go panics unless [0 <= lo <= hi <= len(s)]; the slices of
    this package are taken within these bounds. *)
Definition slice (s : string) (lo hi : Z) : string :=
  substring (Z.to_nat lo) (Z.to_nat (hi - lo)) s.

(** [s[lo:]] *)
Definition slice_from (s : string) (lo : Z) : string :=
  slice s lo (len s).

Fixpoint contains_byte (chars : string) (c : ascii) : bool :=
  match chars with
  | EmptyString => false
  | String d rest => Ascii.eqb c d || contains_byte rest c
  end.

Fixpoint IndexAny_from (s chars : string) (i : Z) : Z :=
  match s with
  | EmptyString => -1
  | String c rest =>
      if contains_byte chars c then i else IndexAny_from rest chars (i + 1)
  end.

(** [strings.IndexAny(s, chars)] for a set [chars] of ASCII characters: the
    index of the first byte of [s] that is in [chars], or -1. *)
Definition IndexAny (s chars : string) : Z := IndexAny_from s chars 0.

Definition lower_byte (c : ascii) : ascii :=
  if (65 <=? byte_val c) && (byte_val c <=? 90)
  then ascii_of_N (N_of_ascii c + 32)
  else c.

(** [strings.ToLower(s)], byte by byte: the upper-case ASCII letters are
    mapped to lower case and every other byte is kept.  This is what Go does
    on a string of ASCII bytes.  On a string with a byte above 127 Go maps
    runes instead; its result then still holds a byte above 127 or one of the
    letters k and i (the lower case of U+212A and U+0130), as the result of
    this definition does, so that the comparison with ["bc"] below is the
    same. *)
Fixpoint ToLower (s : string) : string :=
  match s with
  | EmptyString => EmptyString
  | String c rest => String (lower_byte c) (ToLower rest)
  end.

(** ** Floating point *)

(** [float64(x)] for an unsigned integer [x]: the nearest binary64 number,
    ties to even. *)
Definition float64_of_uint64 (x : Z) : float :=
  SF2Prim (binary_normalize prec emax x 0 false).

(** [math.Round(x)]: the nearest integer, rounding half away from zero;
    zeros, infinities and NaN are returned unchanged. *)
Definition math_Round (x : float) : float :=
  match Prim2SF x with
  | S754_finite sign m e =>
      if 0 <=? e then x
      else
        let q := Z.shiftr (Z.pos m) (- e) in
        let r := Z.pos m - Z.shiftl q (- e) in
        let q' := if 2 * r >=? 2 ^ (- e) then q + 1 else q in
        let y := SF2Prim (binary_normalize prec emax q' 0 false) in
        if sign then (- y)%float else y
  | _ => x
  end.

(** ** Package bech32 *)

(** The package [bech32] of the repository is not among the sources: the
    functions of package [wos] below take its decoder as a parameter.  This
    module is a sample decoder, on which they are run on examples. *)
Module bech32.

(** The alphabet of the data part (BIP-173). *)
Definition charset : string := "qpzry9x8gf2tvdw0s3jn54khce6mua7l".

Definition gen : list Z :=
  [0x3b6a57b2; 0x26508e6d; 0x1ea119fa; 0x3d4233dd; 0x2a1462b3].

Definition polymod_step (chk v : Z) : Z :=
  let b := Z.shiftr chk 25 in
  let chk' := Z.lxor (Z.shiftl (Z.land chk 0x1ffffff) 5) v in
  fold_left
    (fun acc ig =>
       if Z.testbit b (fst ig) then Z.lxor acc (snd ig) else acc)
    (combine [0; 1; 2; 3; 4] gen) chk'.

Definition polymod (values : list Z) : Z := fold_left polymod_step values 1.

Definition bytes_of (s : string) : list Z :=
  map byte_val (list_ascii_of_string s).

Definition hrpExpand (hrp : string) : list Z :=
  (map (fun c => Z.shiftr c 5) (bytes_of hrp)
   ++ [0] ++ map (fun c => Z.land c 31) (bytes_of hrp))%list.

Definition verifyChecksum (hrp : string) (data : list Z) : bool :=
  polymod (hrpExpand hrp ++ data)%list =? 1.

Fixpoint index_byte (s : string) (c : ascii) (i : Z) : option Z :=
  match s with
  | EmptyString => None
  | String d rest => if Ascii.eqb c d then Some i else index_byte rest c (i + 1)
  end.

Fixpoint toBytes (chars : string) : option (list Z) :=
  match chars with
  | EmptyString => Some []
  | String c rest =>
      match index_byte charset c 0, toBytes rest with
      | Some i, Some l => Some (i :: l)
      | _, _ => None
      end
  end.

Fixpoint LastIndexByte_from (s : string) (c : ascii) (i : Z) (found : Z) : Z :=
  match s with
  | EmptyString => found
  | String d rest =>
      LastIndexByte_from rest c (i + 1) (if Ascii.eqb c d then i else found)
  end.

Definition LastIndexByte (s : string) (c : ascii) : Z :=
  LastIndexByte_from s c 0 (-1).

Definition upper_byte (c : ascii) : ascii :=
  if (97 <=? byte_val c) && (byte_val c <=? 122)
  then ascii_of_N (N_of_ascii c - 32)
  else c.

Fixpoint printable (s : string) : bool :=
  match s with
  | EmptyString => true
  | String c rest => (33 <=? byte_val c) && (byte_val c <=? 126) && printable rest
  end.

Fixpoint string_map (f : ascii -> ascii) (s : string) : string :=
  match s with
  | EmptyString => EmptyString
  | String c rest => String (f c) (string_map f rest)
  end.

(** Modelled from the spec: the function [DecodeNoLimit] of the package
    [bech32], which is not among the sources.  It follows section 4.1 of the
    design notes and BIP-173: it returns the human-readable part and the data
    symbols, or fails when the string is too short, holds a character outside
    the accepted alphabet, mixes cases, lacks the separator or has an invalid
    checksum; it imposes no upper bound on the length. *)
Definition DecodeNoLimit (bech : string) : result (string * list Z) :=
  if len bech <? 8 then Err (Foreign "invalid bech32 string length")
  else if negb (printable bech) then Err (Foreign "invalid character in string")
  else
    let lower := ToLower bech in
    let upper := string_map upper_byte bech in
    if negb (String.eqb bech lower) && negb (String.eqb bech upper)
    then Err (Foreign "string not all lowercase or all uppercase")
    else
      let bech := lower in
      let one := LastIndexByte bech "1" in
      if (one <? 1) || (len bech <? one + 7)
      then Err (Foreign "invalid separator index")
      else
        let hrp := slice bech 0 one in
        let data := slice_from bech (one + 1) in
        match toBytes data with
        | None => Err (Foreign "failed converting data to bytes")
        | Some decoded =>
            if verifyChecksum hrp decoded
            then Ok (hrp, firstn (List.length decoded - 6) decoded)
            else Err (Foreign "invalid checksum")
        end.

End bech32.

(** ** parseInvoiceAmount *)

Section Invoice.

(** [bech32.DecodeNoLimit] of the repository. *)
Variable DecodeNoLimit : string -> result (string * list Z).

Definition parseInvoiceAmount (invoice : string) : result float :=
  match DecodeNoLimit invoice with
  | Err err => Err (Errorf_w "%w: %s" (Some ErrInvalidInvoice))
  | Ok (hrp, _) =>
      if len hrp <? 3 then Err ErrInvalidInvoice
      else if negb (String.eqb (slice hrp 0 2) "ln") then Err ErrInvalidInvoice
      else
        let firstNumber := IndexAny hrp "1234567890" in
        if firstNumber =? -1 then Err ErrNoAmount
        else
          let chainPrefix := ToLower (slice hrp 2 firstNumber) in
          if negb (String.eqb chainPrefix "bc") then
            Err (Errorf_w "%w: invoice is not for bitcoin mainnet"
                   (Some ErrInvalidInvoice))
          else
            match decodeAmount (slice_from hrp firstNumber) with
            | Err err =>
                Err (Errorf_w "%w: invalid amount: %s" (Some ErrInvalidInvoice))
            | Ok msat =>
                let btc :=
                  (math_Round (float64_of_uint64 msat / 1000) / 100000000)%float
                in
                Ok btc
            end
  end.

End Invoice.

(** *** Vocabulary of the human-readable part

    The notions the design notes use to describe a human-readable part,
    defined on their own terms. *)

(** The index of the first ASCII digit of [s], counted from [i]. *)
Fixpoint first_digit_from (s : string) (i : nat) : option nat :=
  match s with
  | EmptyString => None
  | String c rest =>
      if is_digit c then Some i else first_digit_from rest (S i)
  end.

Definition first_digit (s : string) : option nat := first_digit_from s 0.

(** [begins_with p s]: the string [s] begins with [p]. *)
Fixpoint begins_with (p s : string) : bool :=
  match p, s with
  | EmptyString, _ => true
  | String a p', String b s' => Ascii.eqb a b && begins_with p' s'
  | String _ _, EmptyString => false
  end.

(** Two bytes that are equal up to the case of an ASCII letter. *)
Definition byte_equal_fold (a b : ascii) : bool :=
  let x := byte_val a in
  let y := byte_val b in
  (x =? y)
  || ((65 <=? x) && (x <=? 90) && (y =? x + 32))
  || ((65 <=? y) && (y <=? 90) && (x =? y + 32)).

(** Case-insensitive equality of two strings. *)
Fixpoint equal_fold (s t : string) : bool :=
  match s, t with
  | EmptyString, EmptyString => true
  | String a s', String b t' => byte_equal_fold a b && equal_fold s' t'
  | _, _ => false
  end.

(** The network identifier of a human-readable part whose first digit is at
    index [i]: what lies between the two characters of the prefix and that
    digit. *)
Definition network_identifier (hrp : string) (i : nat) : string :=
  substring 2 (i - 2) hrp.

(** ** SimpleSigner *)

Section Signing.

(** [HMAC_SHA256 key message]: the HMAC of package [crypto/hmac] over
    SHA-256, as a function of the key and of the whole message. *)
Variable HMAC_SHA256 : string -> string -> string.

(** The [hash.Hash] that [hmac.New(sha256.New, key)] returns: its key and the
    bytes written to it so far. *)
Record hasher : Type := mkHasher {
  hasher_key : string;
  hasher_written : string
}.

Definition hmac_New (key : string) : hasher :=
  mkHasher key EmptyString.

(** [io.WriteString(h, s)] *)
Definition WriteString (h : hasher) (s : string) : hasher :=
  mkHasher (hasher_key h) (hasher_written h ++ s).

(** [h.Sum(b)] appends the current hash to [b]. *)
Definition hasher_Sum (h : hasher) (b : string) : string :=
  b ++ HMAC_SHA256 (hasher_key h) (hasher_written h).

(** [SimpleSigner] implements [Signer] with a static secret and no
    validation. *)
Record SimpleSigner : Type := NewSimpleSigner {
  apiSecret : string
}.

Definition SimpleSigner_SignRequest
  (s : SimpleSigner) (endpoint nonce apiToken requestBody : string)
  : result string :=
  let hasher := hmac_New (apiSecret s) in
  let hasher := WriteString hasher endpoint in
  let hasher := WriteString hasher nonce in
  let hasher := WriteString hasher apiToken in
  let hasher := WriteString hasher requestBody in
  Ok (hasher_Sum hasher EmptyString).

End Signing.

(** ** Encodings *)

Definition encodeStd : string :=
  "ABCDEFGHIJKLMNOPQRSTUVWXYZabcdefghijklmnopqrstuvwxyz0123456789+/".

Definition hextable : string := "0123456789abcdef".

(** The byte of [alphabet] at index [i]. *)
Definition alphabet_at (alphabet : string) (i : Z) : ascii :=
  match String.get (Z.to_nat i) alphabet with
  | Some c => c
  | None => Ascii.zero
  end.

(** [base64.StdEncoding.EncodeToString(src)]: three bytes give four
    characters, the last group is padded with ['=']. *)
Fixpoint base64_EncodeToString (src : string) : string :=
  match src with
  | EmptyString => EmptyString
  | String a EmptyString =>
      let val := Z.shiftl (byte_val a) 16 in
      String (alphabet_at encodeStd (Z.land (Z.shiftr val 18) 63))
        (String (alphabet_at encodeStd (Z.land (Z.shiftr val 12) 63)) "==")
  | String a (String b EmptyString) =>
      let val := Z.lor (Z.shiftl (byte_val a) 16) (Z.shiftl (byte_val b) 8) in
      String (alphabet_at encodeStd (Z.land (Z.shiftr val 18) 63))
        (String (alphabet_at encodeStd (Z.land (Z.shiftr val 12) 63))
           (String (alphabet_at encodeStd (Z.land (Z.shiftr val 6) 63)) "="))
  | String a (String b (String c rest)) =>
      let val :=
        Z.lor (Z.lor (Z.shiftl (byte_val a) 16) (Z.shiftl (byte_val b) 8))
          (byte_val c) in
      String (alphabet_at encodeStd (Z.land (Z.shiftr val 18) 63))
        (String (alphabet_at encodeStd (Z.land (Z.shiftr val 12) 63))
           (String (alphabet_at encodeStd (Z.land (Z.shiftr val 6) 63))
              (String (alphabet_at encodeStd (Z.land val 63))
                 (base64_EncodeToString rest))))
  end.

(** [hex.EncodeToString(src)] *)
Fixpoint hex_EncodeToString (src : string) : string :=
  match src with
  | EmptyString => EmptyString
  | String a rest =>
      String (alphabet_at hextable (Z.shiftr (byte_val a) 4))
        (String (alphabet_at hextable (Z.land (byte_val a) 15))
           (hex_EncodeToString rest))
  end.

(** ** Wallet *)

(** [BaseURL] is the API URL for the Wallet of Satoshi API. *)
Definition BaseURL : string := "https://www.livingroomofsatoshi.com".

Record Balance : Type := mkBalance {
  Confirmed : float;
  Unconfirmed : float
}.

(** [Total] returns the sum of the confirmed and unconfirmed balances. *)
Definition Balance_Total (b : Balance) : float :=
  (Confirmed b + Unconfirmed b)%float.

Record FeeEstimate : Type := mkFeeEstimate {
  BtcFixedFee : float;
  BtcMinerFeePerKB : float;
  BtcSendCommissionPercent : float;
  BtcSendFeeWarningPercent : float;
  LightningFee : float;
  MaxLightningFee : float;
  IsWosInvoice : bool
}.

(** The fields of [Payment] that are not times. *)
Record Payment : Type := mkPayment {
  Payment_ID : string;
  Payment_Address : string;
  Payment_Amount : float;
  Payment_Currency : string;
  Payment_Description : string;
  Payment_Txid : string;
  Payment_Status : string;
  Payment_Type : string
}.

Record sendPaymentRequest : Type := mkSendPaymentRequest {
  Address : string;
  Currency : string;
  Amount : float;
  Description : string;
  MaxLightning : bool;
  MaxBitcoin : bool
}.

(** The values passed as [body any] to [PostRequest]. *)
Inductive any : Type :=
| any_sendPaymentRequest (req : sendPaymentRequest)
| any_other (value : string).

(** An [http.Request]: method, URL, headers and body. *)
Record Request : Type := mkRequest {
  Method : string;
  URL : string;
  Header : list (string * string);
  Body : string
}.

(** An [http.Response]: status code and what reading its body gives. *)
Record Response : Type := mkResponse {
  StatusCode : Z;
  RespBody : result string
}.

(** [req.Header.Set(key, value)] for a key in canonical form. *)
Fixpoint Header_Set (h : list (string * string)) (key value : string)
  : list (string * string) :=
  match h with
  | [] => [(key, value)]
  | (k, v) :: rest =>
      if String.eqb k key then (key, value) :: rest
      else (k, v) :: Header_Set rest key value
  end.

Fixpoint Header_Get (h : list (string * string)) (key : string) : option string :=
  match h with
  | [] => None
  | (k, v) :: rest => if String.eqb k key then Some v else Header_Get rest key
  end.

(** What a call does to the world outside the wallet, in the order in which
    it happens. *)
Inductive event : Type :=
| RandRead (n : nat)
    (* crypto/rand.Read into a buffer of n bytes *)
| SignCall (endpoint nonce apiToken requestBody : string)
    (* wallet.signer.SignRequest *)
| HTTPDo (req : Request)
    (* wallet.httpClient.Do *)
| FetchBalanceAndFee (addressOrInvoice : string).
    (* wallet.reader.BalanceAndFee *)

(** A [Signer]: what it returns may depend on what happened before. *)
Definition Signer : Type :=
  list event -> string -> string -> string -> string -> result string.

(** [Reader] facilitates read-only access to a WoS wallet. *)
Record Reader : Type := NewReader {
  apiToken : string
}.

Record Wallet : Type := mkWallet {
  reader : Reader;
  signer : Signer;
  onChainAddress : string;
  lightningAddress : string
}.

(** A call either returns or panics (on a nil pointer). *)
Inductive outcome (A : Type) : Type :=
| Returned (r : result A)
| Panicked.
Arguments Returned {A} r.
Arguments Panicked {A}.

(** The two errors of the on-chain sweep computation,
    [fmt.Errorf("confirmed balance (%.8f) insufficient for fixed fee (%.8f)",
    ...)] and [fmt.Errorf("available balance (%.8f) insufficient for
    commission (%.8f)", ...)]. *)
Definition insufficient_for_fee : error :=
  Errorf "confirmed balance (%.8f) insufficient for fixed fee (%.8f)".

Definition insufficient_for_commission : error :=
  Errorf "available balance (%.8f) insufficient for commission (%.8f)".

Section WalletOps.

(** The collaborators of the wallet.  What they answer may depend on the
    events so far. *)
Variable DecodeNoLimit : string -> result (string * list Z).
Variable json_Marshal : any -> result string.
Variable rand_err : list event -> option error.
Variable rand_byte : list event -> nat -> ascii.
Variable NewRequest_err : string -> string -> option error.
Variable http_Do : list event -> Request -> result Response.
Variable json_Unmarshal_errorResponse : string -> result string.
Variable json_Unmarshal_Payment : string -> result Payment.
Variable reader_BalanceAndFee :
  list event -> string -> option Balance * option FeeEstimate * option error.

(** [rand.Read(b)] for a buffer [b] of [n] bytes: fills the whole buffer, or
    fails. *)
Definition rand_Read (tr : list event) (n : nat) : result string :=
  match rand_err tr with
  | Some e => Err e
  | None => Ok (string_of_list_ascii (map (rand_byte tr) (seq 0 n)))
  end.

(** [checkHTTPResponse]; the two branches that wrap [err] with [%w: %s]
    differ by the text they append, the message of the response or its raw
    body. *)
Definition checkHTTPResponse (resp : Response) : option error :=
  if StatusCode resp =? 200 then None
  else
    let err := Errorf "received status %d" in
    match RespBody resp with
    | Ok rawBody =>
        match json_Unmarshal_errorResponse rawBody with
        | Ok message =>
            if negb (String.eqb message "")
            then Some (Errorf_w "%w: %s" (Some err))
            else Some (Errorf_w "%w: %s" (Some err))
        | Err decodeErr => Some (Errorf_w "%w: %s" (Some err))
        end
    | Err readErr =>
        Some (wrapErrors "%w: (failed to read body: %w)" err readErr)
    end.

(** [PostRequest] issues an HTTP POST request to the given endpoint,
    authenticated by the Wallet's internal [Signer]. *)
Definition PostRequest (wallet : Wallet) (endpoint : string) (body : any)
  (tr : list event) : result string * list event :=
  match json_Marshal body with
  | Err err => (Err err, tr)
  | Ok bodyBytes =>
      let tr1 := (tr ++ [RandRead 16])%list in
      match rand_Read tr 16 with
      | Err err => (Err (Errorf_w "generating nonce: %w" (Some err)), tr1)
      | Ok nonceBytes =>
          let nonce := base64_EncodeToString nonceBytes in
          let tr2 :=
            (tr1 ++ [SignCall endpoint nonce (apiToken (reader wallet))
                       bodyBytes])%list in
          match signer wallet tr1 endpoint nonce (apiToken (reader wallet))
                  bodyBytes with
          | Err err => (Err (Errorf_w "Signer returned error: %w" (Some err)), tr2)
          | Ok hmacSignature =>
              match NewRequest_err "POST" (BaseURL ++ endpoint) with
              | Some err => (Err err, tr2)
              | None =>
                  let h := Header_Set [] "User-Agent" "" in
                  let h := Header_Set h "Content-Type" "application/json" in
                  let h := Header_Set h "Api-Token" (apiToken (reader wallet)) in
                  let h := Header_Set h "Nonce" nonce in
                  let h :=
                    Header_Set h "Signature" (hex_EncodeToString hmacSignature) in
                  let req := mkRequest "POST" (BaseURL ++ endpoint) h bodyBytes in
                  let tr3 := (tr2 ++ [HTTPDo req])%list in
                  match http_Do tr2 req with
                  | Err err =>
                      (Err (Errorf_w "POST %s request failed: %w" (Some err)), tr3)
                  | Ok resp =>
                      match checkHTTPResponse resp with
                      | Some err => (Err (Errorf_w "POST %s: %w" (Some err)), tr3)
                      | None => (RespBody resp, tr3)
                      end
                  end
              end
          end
      end
  end.

Definition newPayment (wallet : Wallet) (method : string)
  (req : sendPaymentRequest) (tr : list event)
  : result Payment * list event :=
  match PostRequest wallet "/api/v1/wallet/payment"
          (any_sendPaymentRequest req) tr with
  | (Err err, tr') => (Err (Errorf_w (method ++ ": %w") (Some err)), tr')
  | (Ok respData, tr') =>
      match json_Unmarshal_Payment respData with
      | Err err =>
          (Err (Errorf_w ("invalid " ++ method ++ " response: %w") (Some err)), tr')
      | Ok payment => (Ok payment, tr')
      end
  end.

(** [PayInvoice] executes a payment to a given lightning invoice. *)
Definition PayInvoice (wallet : Wallet) (invoice description : string)
  (tr : list event) : result Payment * list event :=
  match parseInvoiceAmount DecodeNoLimit invoice with
  | Err err => (Err (Errorf_w "PayInvoice: %w" (Some err)), tr)
  | Ok amount =>
      newPayment wallet "PayInvoice"
        {| Address := invoice;
           Currency := "LIGHTNING";
           Description := description;
           Amount := amount;
           MaxLightning := false;
           MaxBitcoin := false |}
        tr
  end.

(** [PayVariableInvoice] executes a payment to a given variable-amount
    lightning invoice.  Returns an error wrapping [ErrInvalidInvoice] if the
    invoice is not valid.  Returns an error wrapping [ErrFixedAmount] if the
    invoice specifies a fixed amount. *)
Definition PayVariableInvoice (wallet : Wallet) (invoice description : string)
  (amount : float) (tr : list event) : result Payment * list event :=
  let err := err_of (parseInvoiceAmount DecodeNoLimit invoice) in
  if negb (is_nil err) && negb (errors_Is err NoAmount) then
    (Err (Errorf_w "PayVariableInvoice: %w" err), tr)
  else if is_nil err then
    (Err (Errorf_w "PayVariableInvoice: %w" err), tr)
  else
    newPayment wallet "PayInvoice"
      {| Address := invoice;
         Currency := "LIGHTNING";
         Description := description;
         Amount := amount;
         MaxLightning := false;
         MaxBitcoin := false |}
      tr.

(** [PayOnChain] executes an on-chain payment transaction. *)
Definition PayOnChain (wallet : Wallet) (address : string) (amount : float)
  (description : string) (tr : list event) : result Payment * list event :=
  newPayment wallet "PayOnChain"
    {| Address := address;
       Currency := "BTC";
       Description := description;
       Amount := amount;
       MaxLightning := false;
       MaxBitcoin := false |}
    tr.

(** [wallet.reader.BalanceAndFee(ctx, addressOrInvoice)] as the wallet sees
    it: one exchange with the reader. *)
Definition BalanceAndFee (addressOrInvoice : string) (tr : list event)
  : (option Balance * option FeeEstimate * option error) * list event :=
  (reader_BalanceAndFee tr addressOrInvoice,
   (tr ++ [FetchBalanceAndFee addressOrInvoice])%list).

(** [SweepLightning] executes a lightning payment, sweeping the entire
    available lightning balance to a given variable-amount invoice.  Returns
    an error wrapping [ErrInvalidInvoice] if the invoice is not valid.
    Returns an error wrapping [ErrFixedAmount] if the invoice embeds a fixed
    amount. *)
Definition SweepLightning (wallet : Wallet) (invoice description : string)
  (tr : list event) : outcome Payment * list event :=
  if negb (errors_Is (err_of (parseInvoiceAmount DecodeNoLimit invoice)) NoAmount)
  then (Returned (Err (Errorf_w "SweepLightning: %w" (Some ErrFixedAmount))), tr)
  else
    match BalanceAndFee invoice tr with
    | ((_, _, Some err), tr1) =>
        (Returned (Err (Errorf_w "SweepLightning: %w" (Some err))), tr1)
    | ((Some balance, Some fees, None), tr1) =>
        let '(r, tr2) :=
          newPayment wallet "SweepLightning"
            {| Address := invoice;
               Currency := "LIGHTNING";
               Description := description;
               MaxLightning := true;
               Amount := (Confirmed balance - MaxLightningFee fees)%float;
               MaxBitcoin := false |}
            tr1 in
        (Returned r, tr2)
    | ((_, _, None), tr1) => (Panicked, tr1)
    end.

(** [SweepOnChain] executes an on-chain payment transaction, sweeping the
    entire available wallet balance to a given on-chain address. *)
Definition SweepOnChain (wallet : Wallet) (address description : string)
  (tr : list event) : outcome Payment * list event :=
  match BalanceAndFee address tr with
  | ((_, _, Some err), tr1) =>
      (Returned (Err (Errorf_w "SweepOnChain: %w" (Some err))), tr1)
  | ((Some balance, Some fees, None), tr1) =>
      let availableBalance := (Confirmed balance - BtcFixedFee fees)%float in
      if (availableBalance <? 0)%float then
        (Returned (Err insufficient_for_fee), tr1)
      else
        let commission :=
          (BtcSendCommissionPercent fees * Confirmed balance)%float in
        let amount := (availableBalance - commission)%float in
        if (amount <=? 0)%float then
          (Returned (Err insufficient_for_commission), tr1)
        else
          let '(r, tr2) :=
            newPayment wallet "SweepOnChain"
              {| Address := address;
                 Currency := "BTC";
                 Description := description;
                 MaxBitcoin := true;
                 Amount := amount;
                 MaxLightning := false |}
              tr1 in
          (Returned r, tr2)
  | ((_, _, None), tr1) => (Panicked, tr1)
  end.

End WalletOps.

(** ** Reader.BalanceAndFee

    [BalanceAndFee] starts two goroutines and receives from three unbuffered
    channels.  It is modelled by the interleavings of the three: a state holds
    where each of them stands, a step is labelled by what happens.  A send on
    an unbuffered channel proceeds together with the matching receive of the
    caller, who stands at its [select] for as long as it is in the loop; a
    receive from [ctx.Done()] can proceed once the context is cancelled; when
    several cases of a [select] can proceed, any of them may be chosen. *)

(** Where a fetching goroutine stands; [A] is [Balance] or [FeeEstimate]. *)
Inductive goroutine (A : Type) : Type :=
| Fetching
    (* in rdr.Balance(ctx), or rdr.FeeEstimate(ctx, addressOrInvoice) *)
| SelectErr (err : error)
    (* at: select { case errChan <- err: case <-ctx.Done(): } *)
| SelectResult (r : result A)
    (* at: select { case balanceChan <- balance: case <-ctx.Done(): } *)
| Exited (r : result A).
Arguments Fetching {A}.
Arguments SelectErr {A} err.
Arguments SelectResult {A} r.
Arguments Exited {A} r.

(** The goroutine's variable [balance] (or [fees]) after the fetch returned
    [r]: nil when the fetch failed. *)
Definition fetched {A : Type} (r : result A) : option A :=
  match r with
  | Ok a => Some a
  | Err _ => None
  end.

(** Where the caller stands: at the [select] of iteration [i] with its
    variables [balance] and [fees], or returned (its deferred [cancel] has
    run). *)
Inductive caller : Type :=
| InLoop (i : Z) (balance : option Balance) (fees : option FeeEstimate)
| HasReturned (balance : option Balance) (fees : option FeeEstimate)
    (err : option error).

Record state : Type := mkState {
  balance_goroutine : goroutine Balance;
  fee_goroutine : goroutine FeeEstimate;
  caller_at : caller;
  parent_cancelled : bool   (* the context of the caller is cancelled *)
}.

(** [ctx.Done()] is closed: [ctx] is cancelled with its parent, and by the
    deferred [cancel()] when the call returns. *)
Definition ctx_Done (st : state) : bool :=
  parent_cancelled st
  || match caller_at st with
     | HasReturned _ _ _ => true
     | InLoop _ _ _ => false
     end.

Inductive label : Type :=
| BalanceReturns (r : result Balance)
    (* rdr.Balance(ctx) returns *)
| FeeEstimateReturns (r : result FeeEstimate)
    (* rdr.FeeEstimate(ctx, addressOrInvoice) returns *)
| BalanceErrReceived      (* errChan <- err, with case err := <-errChan *)
| BalanceErrAbandoned     (* <-ctx.Done() at the first select *)
| BalanceReceived         (* balanceChan <- balance, with case balance = <-balanceChan *)
| BalanceAbandoned        (* <-ctx.Done() at the second select *)
| FeeErrReceived
| FeeErrAbandoned
| FeeReceived
| FeeAbandoned
| ParentCancels.          (* the caller's context is cancelled *)

(** The caller after one more pass through its loop body with the variables
    [balance] and [fees]: [i++], then the test [i < 2]. *)
Definition next_iteration (i : Z) (balance : option Balance)
  (fees : option FeeEstimate) : caller :=
  if i + 1 <? 2 then InLoop (i + 1) balance fees
  else HasReturned balance fees None.

(** After the fetch has returned, the goroutine is at its first [select] if
    [err != nil] and at its second [select] otherwise. *)
Definition after_fetch {A : Type} (r : result A) : goroutine A :=
  match r with
  | Err err => SelectErr err
  | Ok _ => SelectResult r
  end.

Definition step (st : state) (l : label) : option state :=
  match l with
  | BalanceReturns r =>
      match balance_goroutine st with
      | Fetching =>
          Some (mkState (after_fetch r) (fee_goroutine st) (caller_at st)
                  (parent_cancelled st))
      | _ => None
      end
  | FeeEstimateReturns r =>
      match fee_goroutine st with
      | Fetching =>
          Some (mkState (balance_goroutine st) (after_fetch r) (caller_at st)
                  (parent_cancelled st))
      | _ => None
      end
  | BalanceErrReceived =>
      match balance_goroutine st, caller_at st with
      | SelectErr err, InLoop i balance fees =>
          Some (mkState (SelectResult (Err err)) (fee_goroutine st)
                  (HasReturned balance fees (Some err)) (parent_cancelled st))
      | _, _ => None
      end
  | BalanceErrAbandoned =>
      match balance_goroutine st with
      | SelectErr err =>
          if ctx_Done st then
            Some (mkState (SelectResult (Err err)) (fee_goroutine st)
                    (caller_at st) (parent_cancelled st))
          else None
      | _ => None
      end
  | BalanceReceived =>
      match balance_goroutine st, caller_at st with
      | SelectResult r, InLoop i balance fees =>
          Some (mkState (Exited r) (fee_goroutine st)
                  (next_iteration i (fetched r) fees) (parent_cancelled st))
      | _, _ => None
      end
  | BalanceAbandoned =>
      match balance_goroutine st with
      | SelectResult r =>
          if ctx_Done st then
            Some (mkState (Exited r) (fee_goroutine st) (caller_at st)
                    (parent_cancelled st))
          else None
      | _ => None
      end
  | FeeErrReceived =>
      match fee_goroutine st, caller_at st with
      | SelectErr err, InLoop i balance fees =>
          Some (mkState (balance_goroutine st) (SelectResult (Err err))
                  (HasReturned balance fees (Some err)) (parent_cancelled st))
      | _, _ => None
      end
  | FeeErrAbandoned =>
      match fee_goroutine st with
      | SelectErr err =>
          if ctx_Done st then
            Some (mkState (balance_goroutine st) (SelectResult (Err err))
                    (caller_at st) (parent_cancelled st))
          else None
      | _ => None
      end
  | FeeReceived =>
      match fee_goroutine st, caller_at st with
      | SelectResult r, InLoop i balance fees =>
          Some (mkState (balance_goroutine st) (Exited r)
                  (next_iteration i balance (fetched r)) (parent_cancelled st))
      | _, _ => None
      end
  | FeeAbandoned =>
      match fee_goroutine st with
      | SelectResult r =>
          if ctx_Done st then
            Some (mkState (balance_goroutine st) (Exited r) (caller_at st)
                    (parent_cancelled st))
          else None
      | _ => None
      end
  | ParentCancels =>
      Some (mkState (balance_goroutine st) (fee_goroutine st) (caller_at st)
              true)
  end.

(** The state in which [BalanceAndFee] enters its loop: both goroutines
    started, [i = 0], [balance] and [fees] nil. *)
Definition BalanceAndFee_start : state :=
  mkState Fetching Fetching (InLoop 0 None None) false.

Fixpoint run (st : state) (ls : list label) : option state :=
  match ls with
  | [] => Some st
  | l :: ls' =>
      match step st l with
      | Some st' => run st' ls'
      | None => None
      end
  end.

(** A step of the call itself, as opposed to the cancellation of the
    caller's context. *)
Definition own_step (l : label) : bool :=
  match l with
  | ParentCancels => false
  | _ => true
  end.

(** The call is over: the caller has returned and both goroutines have
    exited. *)
Definition finished (st : state) : bool :=
  match balance_goroutine st, fee_goroutine st, caller_at st with
  | Exited _, Exited _, HasReturned _ _ _ => true
  | _, _, _ => false
  end.

(** The steps that remain to each party, at most. *)
Definition goroutine_steps {A : Type} (g : goroutine A) : nat :=
  match g with
  | Fetching => 3
  | SelectErr _ => 2
  | SelectResult _ => 1
  | Exited _ => 0
  end.

Definition remaining_steps (st : state) : nat :=
  goroutine_steps (balance_goroutine st) + goroutine_steps (fee_goroutine st).

(** *** Executions without cancellation by the caller *)

(** What holds of a goroutine and of the caller's variable it fills, while
    the caller is in its loop and the context is not cancelled. *)
Definition in_loop_with {A : Type} (g : goroutine A) (v : option A) : Prop :=
  match g with
  | Fetching => v = None
  | SelectErr _ => v = None
  | SelectResult (Ok _) => v = None
  | SelectResult (Err _) => False
  | Exited (Ok a) => v = Some a
  | Exited (Err _) => False
  end.

(** The goroutine's fetch failed with [e], and it is past its first
    [select]. *)
Definition failed_with {A : Type} (g : goroutine A) (e : error) : Prop :=
  g = SelectResult (Err e) \/ g = Exited (Err e).

(** The caller's variable [v] is nil, or holds what the goroutine fetched and
    delivered. *)
Definition partial_result {A : Type} (g : goroutine A) (v : option A) : Prop :=
  v = None \/ exists a, v = Some a /\ g = Exited (Ok a).

Definition received {A : Type} (v : option A) : Z :=
  match v with
  | Some _ => 1
  | None => 0
  end.

(** The invariant of the executions in which the caller's context is not
    cancelled. *)
Definition undisturbed (st : state) : Prop :=
  parent_cancelled st = false
  /\ match caller_at st with
     | InLoop i balance fees =>
         in_loop_with (balance_goroutine st) balance
         /\ in_loop_with (fee_goroutine st) fees
         /\ i = received balance + received fees
         /\ i < 2
     | HasReturned balance fees None =>
         exists b f,
           balance_goroutine st = Exited (Ok b)
           /\ fee_goroutine st = Exited (Ok f)
           /\ balance = Some b /\ fees = Some f
     | HasReturned balance fees (Some e) =>
         (failed_with (balance_goroutine st) e
          \/ failed_with (fee_goroutine st) e)
         /\ partial_result (balance_goroutine st) balance
         /\ partial_result (fee_goroutine st) fees
     end.

(** ** Sample collaborators

    A concrete signer, random source and transport, used to run the wallet
    on examples. *)

Module Sample.

(** As [json.Marshal] does, the sample encoder rejects a number that is not
    finite. *)
Definition json_Marshal (body : any) : result string :=
  match body with
  | any_sendPaymentRequest req =>
      if is_nan (Amount req) || is_infinity (Amount req)
      then Err (Foreign "json: unsupported value")
      else Ok ("{address:" ++ Address req ++ ",currency:" ++ Currency req ++ "}")
  | any_other value => Ok value
  end.

Definition rand_err (tr : list event) : option error := None.

Definition rand_byte (tr : list event) (i : nat) : ascii :=
  ascii_of_nat (17 * List.length tr + 3 * i + 1).

Definition NewRequest_err (method url : string) : option error := None.

Definition http_Do (tr : list event) (req : Request) : result Response :=
  Ok {| StatusCode := 200; RespBody := Ok "{}" |}.

Definition json_Unmarshal_errorResponse (raw : string) : result string :=
  Ok "".

Definition json_Unmarshal_Payment (raw : string) : result Payment :=
  Ok {| Payment_ID := "id";
        Payment_Address := "";
        Payment_Amount := 0;
        Payment_Currency := "";
        Payment_Description := "";
        Payment_Txid := "";
        Payment_Status := "PAID";
        Payment_Type := "DEBIT" |}.

Definition fees : FeeEstimate :=
  {| BtcFixedFee := 0.0001;
     BtcMinerFeePerKB := 0;
     BtcSendCommissionPercent := 0.01;
     BtcSendFeeWarningPercent := 0;
     LightningFee := 0;
     MaxLightningFee := 0.00001;
     IsWosInvoice := false |}.

Definition reader_BalanceAndFee (tr : list event) (addressOrInvoice : string)
  : option Balance * option FeeEstimate * option error :=
  (Some {| Confirmed := 1; Unconfirmed := 0 |}, Some fees, None).

Definition sign : Signer :=
  fun tr endpoint nonce apiToken requestBody => Ok "signature".

Definition wallet : Wallet :=
  {| reader := NewReader "edcc867c-96ff-4b0d-ba68-165c16071de0";
     signer := sign;
     onChainAddress := "";
     lightningAddress := "dorsalpuma54@walletofsatoshi.com" |}.

(** A BOLT11 invoice for 2500 micro-bitcoin. *)
Definition invoice_2500u : string :=
  "lnbc2500u1pvjluezpp5qqqsyqcyq5rqwzqfqqqsyqcyq5rqwzqfqqqsyqcyq5rqwzqfqypqdq5xysxxatsyp3k7enxv4jsxqzpuaztrnwngzn3kdzw5hydlzf03qdgm2hdq27cqv3agm2awhz5se903vruatfhq77w3ls4evs3ch9zw97j25emudupq63nyw24cg27h2rspfj9srp".

(** A BOLT11 invoice without an amount. *)
Definition invoice_any : string :=
  "lnbc1pvjluezpp5qqqsyqcyq5rqwzqfqqqsyqcyq5rqwzqfqqqsyqcyq5rqwzqfqypqdpl2pkx2ctnv5sxxmmwwd5kgetjypeh2ursdae8g6twvus8g6rfwvs8qun0dfjkxaq8rkx3yf5tcsyz3d73gafnh3cax9rn449d9p5uxz9ezhhypd0elx87sjle52x86fux2ypatgddc6k63n7erqz25le42c4u4ecky03ylcqca784w".

End Sample.

(** * Further functions of the package *)

(** ** Amounts in bitcoin *)

(** The conversion at the end of [parseInvoiceAmount]:
    [math.Round(float64(msat)/1000) / 100_000_000]. *)
Definition msat_to_btc (msat : Z) : float :=
  (math_Round (float64_of_uint64 msat / 1000) / 100000000)%float.

(** The number of whole satoshi nearest to an amount of millisatoshi, a half
    being rounded up. *)
Definition nearest_satoshi (msat : Z) : Z := (msat + 500) / 1000.

(** [all_below n f]: [f] holds of every number from 0 to [n - 1]. *)
Fixpoint all_below (n : nat) (f : Z -> bool) : bool :=
  match n with
  | O => true
  | S m => f (Z.of_nat m) && all_below m f
  end.

(** ** A signer that refuses

    A sample [Signer] that enforces a policy of its own and signs nothing,
    and a wallet that uses it. *)

Definition refusing_signer : Signer :=
  fun tr endpoint nonce apiToken requestBody =>
    Err (Foreign "amount over the limit").

Definition guarded_wallet : Wallet :=
  {| reader := NewReader "edcc867c-96ff-4b0d-ba68-165c16071de0";
     signer := refusing_signer;
     onChainAddress := "";
     lightningAddress := "dorsalpuma54@walletofsatoshi.com" |}.

(** A payment of one bitcoin to an on-chain address. *)
Definition sample_payment : sendPaymentRequest :=
  {| Address := "bc1q";
     Currency := "BTC";
     Description := "";
     Amount := 1;
     MaxLightning := false;
     MaxBitcoin := false |}.

(** ** What the goroutines of [BalanceAndFee] have fetched *)

(** What the fetch of a goroutine has returned, once it has returned. *)
Definition fetch_result {A : Type} (g : goroutine A) : option (result A) :=
  match g with
  | Fetching => None
  | SelectErr err => Some (Err err)
  | SelectResult r => Some r
  | Exited r => Some r
  end.

(** The variables [balance] and [fees] of the caller, and the error it has
    returned, if any. *)
Definition caller_balance (c : caller) : option Balance :=
  match c with
  | InLoop _ balance _ => balance
  | HasReturned balance _ _ => balance
  end.

Definition caller_fees (c : caller) : option FeeEstimate :=
  match c with
  | InLoop _ _ fees => fees
  | HasReturned _ fees _ => fees
  end.

Definition caller_err (c : caller) : option error :=
  match c with
  | InLoop _ _ _ => None
  | HasReturned _ _ err => err
  end.

(** What the caller holds has been fetched: a balance or fees it holds were
    fetched and delivered by the goroutine, which has exited; an error it has
    returned is the error of a fetch. *)
Definition holds_fetched (st : state) : Prop :=
  (forall b, caller_balance (caller_at st) = Some b ->
             balance_goroutine st = Exited (Ok b))
  /\ (forall f, caller_fees (caller_at st) = Some f ->
                fee_goroutine st = Exited (Ok f))
  /\ (forall e, caller_err (caller_at st) = Some e ->
                fetch_result (balance_goroutine st) = Some (Err e)
                \/ fetch_result (fee_goroutine st) = Some (Err e)).

(** A run in which both fetches succeed and the fees are delivered first. *)
Definition sample_balance : Balance := {| Confirmed := 1; Unconfirmed := 0 |}.

Definition sample_run : list label :=
  [BalanceReturns (Ok sample_balance); FeeEstimateReturns (Ok Sample.fees);
   FeeReceived; BalanceReceived].

(** The caller has returned an error while the fetch of the balance is still
    in flight. *)
Definition returned_early : state :=
  mkState Fetching (SelectResult (Err (Foreign "timeout")))
    (HasReturned None None (Some (Foreign "timeout"))) false.

(** Where [sample_run] ends. *)
Definition sample_final : state :=
  mkState (Exited (Ok sample_balance)) (Exited (Ok Sample.fees))
    (HasReturned (Some sample_balance) (Some Sample.fees) None) false.

(** ** Lightning addresses *)

(** *** Regular expressions

    The regular expressions of package [regexp], as far as [emailRegex] needs
    them: character classes, concatenation, alternation and repetition.  A
    class of ASCII characters is a test on bytes: no rune above 127, whose
    encoding is made of bytes above 127, belongs to it. *)
Inductive regexp : Type :=
| NoMatch                             (* matches no string *)
| EmptyMatch                          (* matches the empty string *)
| CharClass (accepts : ascii -> bool) (* [...] *)
| Concat (r1 r2 : regexp)             (* r1 r2 *)
| Alternate (r1 r2 : regexp)          (* r1|r2 *)
| Star (r : regexp).                  (* r* *)

(** A literal character. *)
Definition Literal (c : ascii) : regexp := CharClass (Ascii.eqb c).

(** [r+] *)
Definition Plus (r : regexp) : regexp := Concat r (Star r).

(** [r?] *)
Definition Quest (r : regexp) : regexp := Alternate EmptyMatch r.

(** [r{n}] and [r{0,n}] *)
Fixpoint exactly (r : regexp) (n : nat) : regexp :=
  match n with
  | O => EmptyMatch
  | S k => Concat r (exactly r k)
  end.

Fixpoint up_to (r : regexp) (n : nat) : regexp :=
  match n with
  | O => EmptyMatch
  | S k => Quest (Concat r (up_to r k))
  end.

(** [r{min,max}] *)
Definition Repeat (r : regexp) (min max : nat) : regexp :=
  Concat (exactly r min) (up_to r (max - min)).

(** The strings that a regular expression matches from end to end. *)
Inductive in_regexp : regexp -> string -> Prop :=
| in_EmptyMatch : in_regexp EmptyMatch ""
| in_CharClass (f : ascii -> bool) (c : ascii) :
    f c = true -> in_regexp (CharClass f) (String c "")
| in_Concat (r1 r2 : regexp) (s1 s2 : string) :
    in_regexp r1 s1 -> in_regexp r2 s2 -> in_regexp (Concat r1 r2) (s1 ++ s2)
| in_Alternate_l (r1 r2 : regexp) (s : string) :
    in_regexp r1 s -> in_regexp (Alternate r1 r2) s
| in_Alternate_r (r1 r2 : regexp) (s : string) :
    in_regexp r2 s -> in_regexp (Alternate r1 r2) s
| in_Star_nil (r : regexp) : in_regexp (Star r) ""
| in_Star_more (r : regexp) (s1 s2 : string) :
    in_regexp r s1 -> in_regexp (Star r) s2 -> in_regexp (Star r) (s1 ++ s2).

(** Whether [r] matches the empty string. *)
Fixpoint nullable (r : regexp) : bool :=
  match r with
  | NoMatch => false
  | EmptyMatch => true
  | CharClass _ => false
  | Concat r1 r2 => nullable r1 && nullable r2
  | Alternate r1 r2 => nullable r1 || nullable r2
  | Star _ => true
  end.

(** What is left of [r] to match after the character [c]. *)
Fixpoint after_char (c : ascii) (r : regexp) : regexp :=
  match r with
  | NoMatch => NoMatch
  | EmptyMatch => NoMatch
  | CharClass f => if f c then EmptyMatch else NoMatch
  | Concat r1 r2 =>
      if nullable r1
      then Alternate (Concat (after_char c r1) r2) (after_char c r2)
      else Concat (after_char c r1) r2
  | Alternate r1 r2 => Alternate (after_char c r1) (after_char c r2)
  | Star r1 => Concat (after_char c r1) (Star r1)
  end.

(** [re.MatchString(s)] for a pattern anchored at both ends, [^r$]: whether
    [r] matches the whole of [s]. *)
Fixpoint MatchString (r : regexp) (s : string) : bool :=
  match s with
  | EmptyString => nullable r
  | String c rest => MatchString (after_char c r) rest
  end.

(** *** The address *)

Definition is_lower (c : ascii) : bool :=
  (97 <=? byte_val c) && (byte_val c <=? 122).

(** [[a-z0-9._%+\-]] *)
Definition user_char (c : ascii) : bool :=
  is_lower c || is_digit c || contains_byte "._%+-" c.

(** [[a-z0-9.\-]] *)
Definition domain_char (c : ascii) : bool :=
  is_lower c || is_digit c || contains_byte ".-" c.

(** [regexp.MustCompile(`^[a-z0-9._%+\-]+@[a-z0-9.\-]+\.[a-z]{2,4}$`)] *)
Definition emailRegex : regexp :=
  Concat (Plus (CharClass user_char))
    (Concat (Literal "@")
       (Concat (Plus (CharClass domain_char))
          (Concat (Literal ".") (Repeat (CharClass is_lower) 2 4)))).

(** [errors.New("invalid lightning address")] *)
Definition ErrInvalidLightningAddress : error :=
  errorString "invalid lightning address".

Record LightningAddress : Type := mkLightningAddress {
  Username : string;
  Domain : string
}.

(** [String] returns the user@domain.tld format of the address. *)
Definition LightningAddress_String (a : LightningAddress) : string :=
  Username a ++ "@" ++ Domain a.

(** [LNURL] returns the HTTPS URL used for LNURL payRequest. *)
Definition LightningAddress_LNURL (a : LightningAddress) : string :=
  "https://" ++ Domain a ++ "/.well-known/lnurlp/" ++ Username a.

Fixpoint Index_from (s substr : string) (i : Z) : Z :=
  if begins_with substr s then i
  else
    match s with
    | EmptyString => -1
    | String _ rest => Index_from rest substr (i + 1)
    end.

(** [strings.Index(s, substr)]: the index of the first instance of [substr]
    in [s], or -1. *)
Definition Index (s substr : string) : Z := Index_from s substr 0.

(** [ParseLightningAddress]; the slice expression [lnAddress[:i]] panics for
    a negative [i]. *)
Definition ParseLightningAddress (lnAddress : string)
  : outcome LightningAddress :=
  if negb (MatchString emailRegex lnAddress) then
    Returned (Err ErrInvalidLightningAddress)
  else
    let i := Index lnAddress "@" in
    if i <? 0 then Panicked
    else
      let username := slice lnAddress 0 i in
      let domain := slice_from lnAddress (i + 1) in
      Returned (Ok {| Username := username; Domain := domain |}).

(** Every byte of [s] passes the test [f]. *)
Fixpoint all_bytes (f : ascii -> bool) (s : string) : bool :=
  match s with
  | EmptyString => true
  | String c rest => f c && all_bytes f rest
  end.

(** * Properties *)

(** ** Decimal numbers *)

Lemma byte_val_range (c : ascii) : 0 <= byte_val c < 256.
Proof.
  unfold byte_val. pose proof (N_ascii_bounded c). lia.
Qed.

Lemma is_digit_range (c : ascii) :
  is_digit c = true <-> 48 <= byte_val c <= 57.
Proof.
  unfold is_digit. rewrite andb_true_iff, !Z.leb_le. tauto.
Qed.

Lemma digit_val_digit (c : ascii) :
  is_digit c = true ->
  strconv.digit_val (byte_val c) = Some (byte_val c - 48).
Proof.
  unfold is_digit, strconv.digit_val. intros ->. reflexivity.
Qed.

Lemma digit_val_other (c : ascii) :
  is_digit c = false ->
  match strconv.digit_val (byte_val c) with
  | Some d => 10 <= d
  | None => True
  end.
Proof.
  unfold is_digit, strconv.digit_val. intros ->.
  destruct ((97 <=? strconv.lower (byte_val c))
            && (strconv.lower (byte_val c) <=? 122)) eqn:E; [|exact I].
  apply andb_true_iff in E. destruct E as [E _]. apply Z.leb_le in E. lia.
Qed.

Lemma dec_fold_ge (s : string) :
  forall n, all_digits s = true -> 0 <= n -> n <= dec_fold s n.
Proof.
  induction s as [|c rest IH]; intros n Hd Hn; simpl in *.
  - lia.
  - apply andb_true_iff in Hd. destruct Hd as [Hc Hr].
    apply is_digit_range in Hc.
    specialize (IH (n * 10 + (byte_val c - 48)) Hr). lia.
Qed.

Lemma uint64_modulus_eq : uint64_modulus = 18446744073709551616.
Proof. reflexivity. Qed.

Lemma cutoff_eq : strconv.cutoff = 1844674407370955162.
Proof. reflexivity. Qed.

Lemma maxUint64_eq : strconv.maxUint64 = 18446744073709551615.
Proof. reflexivity. Qed.

Lemma u64_small (x : Z) : 0 <= x < uint64_modulus -> u64 x = x.
Proof. intros H. unfold u64. apply Z.mod_small. exact H. Qed.

Lemma u64_range (x : Z) : 0 <= u64 x < uint64_modulus.
Proof. unfold u64. apply Z.mod_pos_bound. reflexivity. Qed.

(** The loop accepts a string of digits whose value fits 64 bits. *)
Lemma parse_loop_digits (s : string) :
  forall n, 0 <= n -> all_digits s = true ->
            dec_fold s n < uint64_modulus ->
            strconv.parse_loop s n = inr (dec_fold s n).
Proof.
  induction s as [|c rest IH]; intros n Hn Hd Hlt; simpl in *.
  - reflexivity.
  - apply andb_true_iff in Hd. destruct Hd as [Hc Hr].
    rewrite (digit_val_digit c Hc).
    apply is_digit_range in Hc.
    set (d := byte_val c - 48) in *.
    assert (Hd : 0 <= d <= 9) by (unfold d; lia).
    pose proof (dec_fold_ge rest (n * 10 + d) Hr ltac:(lia)) as Hge.
    rewrite uint64_modulus_eq in Hlt.
    destruct (d >=? 10) eqn:E1; [apply Z.geb_le in E1; lia|].
    destruct (n >=? strconv.cutoff) eqn:E2;
      [apply Z.geb_le in E2; rewrite cutoff_eq in E2; lia|].
    unfold u64_add, u64_mul.
    rewrite (u64_small (n * 10)) by (rewrite uint64_modulus_eq; lia).
    rewrite (u64_small (n * 10 + d)) by (rewrite uint64_modulus_eq; lia).
    destruct (n * 10 + d <? n * 10) eqn:E3; [apply Z.ltb_lt in E3; lia|].
    destruct (n * 10 + d >? strconv.maxUint64) eqn:E4;
      [apply Z.gtb_lt in E4; rewrite maxUint64_eq in E4; lia|].
    simpl. apply IH; [lia | exact Hr | rewrite uint64_modulus_eq; exact Hlt].
Qed.

(** Whatever the loop returns is the value of a string of digits and fits
    64 bits. *)
Lemma parse_loop_inv (s : string) :
  forall n v, 0 <= n < uint64_modulus ->
              strconv.parse_loop s n = inr v ->
              all_digits s = true /\ v = dec_fold s n /\ 0 <= v < uint64_modulus.
Proof.
  induction s as [|c rest IH]; intros n v Hn H; simpl in *.
  - inversion H; subst. auto.
  - destruct (is_digit c) eqn:Hc.
    + rewrite (digit_val_digit c Hc) in H.
      apply is_digit_range in Hc.
      set (d := byte_val c - 48) in *.
      destruct (d >=? 10); [discriminate|].
      destruct (n >=? strconv.cutoff) eqn:E2; [discriminate|].
      rewrite Z.geb_leb in E2. apply Z.leb_gt in E2. rewrite cutoff_eq in E2.
      unfold u64_add, u64_mul in H.
      rewrite (u64_small (n * 10)) in H by (rewrite uint64_modulus_eq; lia).
      destruct (u64 (n * 10 + d) <? n * 10) eqn:E3; [discriminate|].
      apply Z.ltb_ge in E3.
      destruct (u64 (n * 10 + d) >? strconv.maxUint64); [discriminate|].
      simpl in H.
      assert (Hsmall : n * 10 + d < uint64_modulus).
      { destruct (Z_lt_ge_dec (n * 10 + d) uint64_modulus) as [L|G]; [exact L|].
        exfalso. unfold u64 in E3. rewrite uint64_modulus_eq in *.
        assert (Hm : (n * 10 + d) mod 18446744073709551616
                     = n * 10 + d - 18446744073709551616).
        { symmetry. apply (Z.mod_unique _ _ 1); lia. }
        rewrite Hm in E3. unfold d in *. lia. }
      rewrite u64_small in H by (unfold d in *; lia).
      assert (Hn1 : 0 <= n * 10 + d < uint64_modulus) by (unfold d in *; lia).
      destruct (IH (n * 10 + d) v Hn1 H) as (Ha & Hv & Hr).
      auto.
    + pose proof (digit_val_other c Hc) as Ho.
      destruct (strconv.digit_val (byte_val c)) as [d|]; [|discriminate].
      destruct (d >=? 10) eqn:E1; [discriminate|].
      rewrite Z.geb_leb in E1. apply Z.leb_gt in E1. lia.
Qed.

(** [strconv.ParseUint] in base 10 and 64 bits is the parse of the design
    notes. *)
Lemma ParseUint_parse_unsigned (s : string) (v : Z) :
  strconv.ParseUint s = Ok v <-> parse_unsigned s = Some v.
Proof.
  destruct s as [|c rest]; [split; discriminate|].
  change (strconv.ParseUint (String c rest))
    with (match strconv.parse_loop (String c rest) 0 with
          | inl k => Err (NumError "ParseUint" (String c rest) k)
          | inr n => Ok n
          end).
  change (parse_unsigned (String c rest))
    with (if all_digits (String c rest)
             && (dec_fold (String c rest) 0 <? uint64_modulus)
          then Some (dec_fold (String c rest) 0) else None).
  generalize (String c rest). intros s.
  split.
  - destruct (strconv.parse_loop s 0) as [k|n] eqn:E; [discriminate|].
    intros H. inversion H; subst n.
    destruct (parse_loop_inv s 0 v ltac:(rewrite uint64_modulus_eq; lia) E)
      as (Ha & Hv & Hr).
    rewrite Ha, <- Hv.
    destruct (v <? uint64_modulus) eqn:L; [reflexivity|].
    apply Z.ltb_ge in L. lia.
  - destruct (all_digits s) eqn:Ha; [|discriminate].
    destruct (dec_fold s 0 <? uint64_modulus) eqn:L; [|discriminate].
    apply Z.ltb_lt in L. intros H. inversion H; subst v.
    rewrite (parse_loop_digits s 0 ltac:(lia) Ha L). reflexivity.
Qed.

Lemma ParseUint_failure (s : string) :
  parse_unsigned s = None ->
  exists k, strconv.ParseUint s = Err (NumError "ParseUint" s k).
Proof.
  intros H. destruct (strconv.ParseUint s) as [v|e] eqn:E.
  - apply ParseUint_parse_unsigned in E. congruence.
  - unfold strconv.ParseUint in E. destruct s as [|c rest].
    + inversion E. eauto.
    + destruct (strconv.parse_loop (String c rest) 0); inversion E. eauto.
Qed.

Lemma parse_unsigned_range (s : string) (v : Z) :
  parse_unsigned s = Some v -> 0 <= v < uint64_modulus.
Proof.
  unfold parse_unsigned. destruct s as [|c rest]; [discriminate|].
  destruct (all_digits (String c rest)) eqn:Ha; simpl; [|discriminate].
  destruct (dec_value (String c rest) <? uint64_modulus) eqn:L; [|discriminate].
  intros H. inversion H; subst. apply Z.ltb_lt in L. split; [|exact L].
  unfold dec_value in *. apply (dec_fold_ge _ 0 Ha). lia.
Qed.

(** ** [decodeAmount] against its reference definition *)

Lemma digit_test (c : ascii) :
  (u8_sub (byte_val c) 48 >=? 0) && (u8_sub (byte_val c) 48 <=? 9)
  = is_digit c.
Proof.
  destruct c as [[] [] [] [] [] [] [] []]; reflexivity.
Qed.

Lemma len_lt_1 (s : string) : (len s <? 1) = true -> s = EmptyString.
Proof.
  destruct s as [|c rest]; [reflexivity|].
  unfold len. simpl String.length. intros H. apply Z.ltb_lt in H. lia.
Qed.

Lemma u64_mul_mul (x a b : Z) : u64_mul (u64_mul x a) b = u64 (x * (a * b)).
Proof.
  unfold u64_mul, u64. rewrite Z.mul_mod_idemp_l by discriminate.
  f_equal. ring.
Qed.

(** On every input the code returns the reference result reduced modulo
    [2^64], and fails where, and for the reason why, the reference fails. *)
Lemma decodeAmount_refines (amount : string) :
  match decodeAmount_ref amount with
  | RefOk v => decodeAmount amount = Ok (u64 v)
  | RefFail why =>
      exists e, decodeAmount amount = Err e /\ failure_of e = why
  end.
Proof.
  unfold decodeAmount, decodeAmount_ref.
  destruct (last_byte amount) as [c|]; [|eexists; split; reflexivity].
  cbv zeta. rewrite digit_test.
  destruct (is_digit c).
  - destruct (parse_unsigned amount) as [B|] eqn:P.
    + apply ParseUint_parse_unsigned in P. rewrite P.
      rewrite u64_mul_mul. reflexivity.
    + destruct (ParseUint_failure _ P) as [k ->].
      eexists; split; reflexivity.
  - destruct (len (drop_last amount) <? 1) eqn:L.
    + apply len_lt_1 in L. rewrite L.
      eexists; split; reflexivity.
    + destruct (parse_unsigned (drop_last amount)) as [m|] eqn:P.
      * pose proof (parse_unsigned_range _ _ P) as Hm.
        apply ParseUint_parse_unsigned in P. rewrite P.
        destruct (Ascii.eqb c "p").
        { destruct (m <? 10) eqn:E1.
          - apply Z.ltb_lt in E1.
            replace (10 <=? m) with false by (symmetry; apply Z.leb_gt; lia).
            eexists; split; reflexivity.
          - apply Z.ltb_ge in E1.
            replace (10 <=? m) with true by (symmetry; apply Z.leb_le; lia).
            destruct (m mod 10 =? 0); simpl.
            + f_equal. symmetry. apply u64_small.
              split; [apply Z.div_pos; lia|].
              apply Z.div_lt_upper_bound; lia.
            + eexists; split; reflexivity. }
        destruct (Ascii.eqb c "n"); [reflexivity|].
        destruct (Ascii.eqb c "u"); [reflexivity|].
        destruct (Ascii.eqb c "m"); [reflexivity|].
        eexists; split; reflexivity.
      * destruct (ParseUint_failure _ P) as [k ->].
        eexists; split; reflexivity.
Qed.

(** Where the exact product fits 64 bits the code returns it. *)
Lemma decodeAmount_exact (amount : string) (v : Z) :
  decodeAmount_ref amount = RefOk v -> 0 <= v < uint64_modulus ->
  decodeAmount amount = Ok v.
Proof.
  intros H Hv. pose proof (decodeAmount_refines amount) as R.
  rewrite H in R. rewrite R, u64_small by exact Hv. reflexivity.
Qed.

(** C1 (defect of the code).  The products of [decodeAmount] are computed in
    [uint64] and wrap around: on the suffix ["184467441"] (a bare number of
    bitcoin) the code returns 26,290,448,384 millisatoshi where the reference
    definition gives 184,467,441 x 10^11, and on ["184467440737095517n"] it
    returns 84 where the reference gives 18,446,744,073,709,551,700. *)
Theorem decodeAmount_overflow_wraps :
  decodeAmount "184467441" = Ok 26290448384
  /\ decodeAmount_ref "184467441" = RefOk (184467441 * 10 ^ 11)
  /\ decodeAmount "184467440737095517n" = Ok 84
  /\ decodeAmount_ref "184467440737095517n"
     = RefOk (184467440737095517 * 100).
Proof.
  repeat split; vm_compute; reflexivity.
Qed.

(** ** Round trip of encoded amounts *)

Lemma last_byte_app (s : string) (c : ascii) :
  last_byte (s ++ String c EmptyString) = Some c.
Proof.
  induction s as [|a rest IH]; simpl; [reflexivity|].
  rewrite IH. destruct (rest ++ String c EmptyString) eqn:E; [|reflexivity].
  destruct rest; discriminate.
Qed.

Lemma drop_last_app (s : string) (c : ascii) :
  drop_last (s ++ String c EmptyString) = s.
Proof.
  induction s as [|a rest IH]; simpl; [reflexivity|].
  rewrite IH. destruct (rest ++ String c EmptyString) eqn:E; [|reflexivity].
  destruct rest; discriminate.
Qed.

Lemma app_empty_r (s : string) : s ++ EmptyString = s.
Proof.
  induction s as [|a rest IH]; simpl; [reflexivity|]. now rewrite IH.
Qed.

Lemma last_byte_digits (s : string) :
  s <> EmptyString -> all_digits s = true ->
  exists c, last_byte s = Some c /\ is_digit c = true.
Proof.
  induction s as [|a rest IH]; intros Hne Hd; [congruence|].
  simpl in Hd. apply andb_true_iff in Hd. destruct Hd as [Ha Hr].
  destruct rest as [|b rest'].
  - exists a. split; [reflexivity | exact Ha].
  - destruct (IH ltac:(discriminate) Hr) as (c & Hc & Hdc).
    exists c. split; [exact Hc | exact Hdc].
Qed.

Lemma string_of_uint_digits (d : Decimal.uint) :
  all_digits (NilEmpty.string_of_uint d) = true.
Proof.
  induction d; simpl; try reflexivity; exact IHd.
Qed.

Lemma dec_fold_of_uint_acc (d : Decimal.uint) :
  forall acc : positive,
    dec_fold (NilEmpty.string_of_uint d) (Z.pos acc)
    = Z.pos (Pos.of_uint_acc d acc).
Proof.
  induction d; intros acc;
    cbn [NilEmpty.string_of_uint dec_fold Pos.of_uint_acc];
    try reflexivity;
    rewrite <- IHd; f_equal;
    match goal with
    | |- context [byte_val ?c] =>
        let v := eval vm_compute in (byte_val c) in
        change (byte_val c) with v
    end; lia.
Qed.

Lemma dec_fold_of_uint (d : Decimal.uint) :
  dec_fold (NilEmpty.string_of_uint d) 0 = Z.of_N (Pos.of_uint d).
Proof.
  induction d; cbn [NilEmpty.string_of_uint dec_fold Pos.of_uint];
    try reflexivity;
    match goal with
    | |- context [byte_val ?c] =>
        let v := eval vm_compute in (byte_val c) in
        change (byte_val c) with v
    end;
    [exact IHd | apply (dec_fold_of_uint_acc d _) ..].
Qed.

Lemma to_decimal_digits (n : Z) : all_digits (to_decimal n) = true.
Proof. apply string_of_uint_digits. Qed.

Lemma to_decimal_value (n : Z) : 0 <= n -> dec_value (to_decimal n) = n.
Proof.
  intros Hn. unfold dec_value, to_decimal. rewrite dec_fold_of_uint.
  change (Pos.of_uint (N.to_uint (Z.to_N n)))
    with (N.of_uint (N.to_uint (Z.to_N n))).
  rewrite DecimalN.Unsigned.of_to. apply Z2N.id. exact Hn.
Qed.

Lemma to_decimal_nonempty (n : Z) : to_decimal n <> EmptyString.
Proof.
  unfold to_decimal. destruct (Z.to_N n) as [|p]; [discriminate|].
  intros H.
  assert (E : N.to_uint (N.pos p) = Decimal.Nil).
  { destruct (N.to_uint (N.pos p)); try discriminate. reflexivity. }
  pose proof (DecimalN.Unsigned.of_to (N.pos p)) as R.
  rewrite E in R. discriminate.
Qed.

Lemma parse_unsigned_to_decimal (n : Z) :
  0 <= n < uint64_modulus -> parse_unsigned (to_decimal n) = Some n.
Proof.
  intros Hn. unfold parse_unsigned.
  pose proof (to_decimal_nonempty n) as Hne.
  destruct (to_decimal n) as [|c rest] eqn:E; [congruence|].
  rewrite <- E, to_decimal_digits, to_decimal_value by lia.
  replace (n <? uint64_modulus) with true
    by (symmetry; apply Z.ltb_lt; lia).
  reflexivity.
Qed.

Lemma encodeAmount_inv (u : multiplier) (A : Z) (s : string) :
  encodeAmount u A = Some s ->
  0 <= A /\ expressible u A = true
  /\ s = to_decimal (magnitude u A) ++ unit_suffix u.
Proof.
  unfold encodeAmount.
  destruct (0 <=? A) eqn:E0; simpl; [|discriminate].
  destruct (expressible u A); [|discriminate].
  intros H. inversion H. apply Z.leb_le in E0. auto.
Qed.

Lemma decodeAmount_ref_unit (m : Z) (c : ascii) :
  0 <= m < uint64_modulus -> is_digit c = false ->
  decodeAmount_ref (to_decimal m ++ String c EmptyString)
  = if Ascii.eqb c "p" then
      if (10 <=? m) && (m mod 10 =? 0) then RefOk (m / 10)
      else RefFail PicoNotExpressible
    else if Ascii.eqb c "n" then RefOk (m * 100)
    else if Ascii.eqb c "u" then RefOk (m * 100000)
    else if Ascii.eqb c "m" then RefOk (m * 100000000)
    else RefFail UnknownMultiplier.
Proof.
  intros Hm Hc. unfold decodeAmount_ref.
  rewrite last_byte_app, Hc, drop_last_app, parse_unsigned_to_decimal by exact Hm.
  reflexivity.
Qed.

Lemma decodeAmount_ref_bare (B : Z) :
  0 <= B < uint64_modulus ->
  decodeAmount_ref (to_decimal B) = RefOk (B * 10 ^ 11).
Proof.
  intros HB. unfold decodeAmount_ref.
  destruct (last_byte_digits (to_decimal B) (to_decimal_nonempty B)
              (to_decimal_digits B)) as (c & -> & ->).
  rewrite parse_unsigned_to_decimal by exact HB. reflexivity.
Qed.

(** C2 (as stated, refuted).  The amount of 2 x 10^18 millisatoshi (twenty
    million bitcoin, below [2^64]) is written ["20000000000000000000p"] in
    pico-bitcoin: its magnitude does not fit 64 bits and [decodeAmount] fails
    with a range error.  The amount 0 is written ["0p"], which is below the
    minimum of 10p. *)
Lemma decodeAmount_roundtrip_pico_fails :
  (0 <= 2000000000000000000 < uint64_modulus
   /\ encodeAmount Pico 2000000000000000000 = Some "20000000000000000000p"
   /\ decodeAmount "20000000000000000000p"
      = Err (NumError "ParseUint" "20000000000000000000" ErrRange))
  /\ (encodeAmount Pico 0 = Some "0p"
      /\ decodeAmount "0p" = Err (Errorf "minimum amount is 10p")).
Proof.
  repeat split; vm_compute; solve [reflexivity | discriminate].
Qed.

(** C2 (amended).  For every amount [A] of millisatoshi below [2^64] that is a
    whole number of units [u] -- and, for pico-bitcoin, is positive and has a
    magnitude [10 * A] below [2^64] -- decoding the canonical encoding of [A]
    in [u] returns exactly [A]. *)
Theorem decodeAmount_encodeAmount (u : multiplier) (A : Z) (s : string) :
  0 <= A < uint64_modulus ->
  (u = Pico -> 0 < A /\ A * 10 < uint64_modulus) ->
  encodeAmount u A = Some s ->
  decodeAmount s = Ok A.
Proof.
  intros HA Hp He.
  destruct (encodeAmount_inv _ _ _ He) as (_ & Hx & ->).
  apply decodeAmount_exact; [|exact HA].
  rewrite uint64_modulus_eq in *.
  destruct u; simpl in Hx; simpl magnitude; simpl unit_suffix.
  - destruct (Hp eq_refl) as [Hpos Hfit].
    rewrite decodeAmount_ref_unit
      by (rewrite ?uint64_modulus_eq; first [lia | reflexivity]).
    simpl Ascii.eqb. cbv iota.
    replace (10 <=? A * 10) with true by (symmetry; apply Z.leb_le; lia).
    rewrite Z.mod_mul by lia. simpl. now rewrite Z.div_mul by lia.
  - apply Z.eqb_eq in Hx.
    pose proof (Z.div_mod A 100 ltac:(lia)) as D.
    rewrite decodeAmount_ref_unit
      by (rewrite ?uint64_modulus_eq; first [lia | reflexivity]).
    simpl. f_equal. lia.
  - apply Z.eqb_eq in Hx.
    pose proof (Z.div_mod A 100000 ltac:(lia)) as D.
    rewrite decodeAmount_ref_unit
      by (rewrite ?uint64_modulus_eq; first [lia | reflexivity]).
    simpl. f_equal. lia.
  - apply Z.eqb_eq in Hx.
    pose proof (Z.div_mod A 100000000 ltac:(lia)) as D.
    rewrite decodeAmount_ref_unit
      by (rewrite ?uint64_modulus_eq; first [lia | reflexivity]).
    simpl. f_equal. lia.
  - apply Z.eqb_eq in Hx.
    pose proof (Z.div_mod A 100000000000 ltac:(lia)) as D.
    rewrite app_empty_r, decodeAmount_ref_bare
      by (rewrite ?uint64_modulus_eq; lia).
    f_equal. change (10 ^ 11) with 100000000000. lia.
Qed.

Lemma decodeAmount_encodeAmount_witness :
  decodeAmount "10p" = Ok 1 /\ decodeAmount "21000000" = Ok 2100000000000000000.
Proof.
  split.
  - apply (decodeAmount_encodeAmount Pico 1 "10p").
    + rewrite uint64_modulus_eq. lia.
    + intros _. rewrite uint64_modulus_eq. lia.
    + reflexivity.
  - apply (decodeAmount_encodeAmount Bitcoin 2100000000000000000 "21000000").
    + rewrite uint64_modulus_eq. lia.
    + discriminate.
    + reflexivity.
Defined.

(** ** The human-readable part of an invoice *)

Lemma contains_byte_digits (c : ascii) :
  contains_byte "1234567890" c = is_digit c.
Proof.
  destruct c as [[] [] [] [] [] [] [] []]; reflexivity.
Qed.

Lemma IndexAny_from_first_digit (s : string) :
  forall n : nat,
    IndexAny_from s "1234567890" (Z.of_nat n)
    = match first_digit_from s n with
      | Some k => Z.of_nat k
      | None => -1
      end.
Proof.
  induction s as [|c rest IH]; intros n;
    cbn [IndexAny_from first_digit_from]; [reflexivity|].
  rewrite contains_byte_digits.
  destruct (is_digit c); [reflexivity|].
  replace (Z.of_nat n + 1) with (Z.of_nat (S n)) by lia.
  apply IH.
Qed.

Lemma IndexAny_first_digit (s : string) :
  IndexAny s "1234567890"
  = match first_digit s with
    | Some k => Z.of_nat k
    | None => -1
    end.
Proof. apply (IndexAny_from_first_digit s 0). Qed.

Lemma first_digit_from_ge (s : string) :
  forall n k, first_digit_from s n = Some k -> (n <= k)%nat.
Proof.
  induction s as [|c rest IH]; intros n k; simpl; [discriminate|].
  destruct (is_digit c).
  - intros H. inversion H. lia.
  - intros H. apply IH in H. lia.
Qed.

Lemma lower_byte_b (a : ascii) :
  Ascii.eqb (lower_byte a) "b" = byte_equal_fold a "b".
Proof.
  destruct a as [[] [] [] [] [] [] [] []]; reflexivity.
Qed.

Lemma lower_byte_c (a : ascii) :
  Ascii.eqb (lower_byte a) "c" = byte_equal_fold a "c".
Proof.
  destruct a as [[] [] [] [] [] [] [] []]; reflexivity.
Qed.

(** Comparing the lower-cased network identifier with ["bc"] is comparing
    the identifier with ["bc"] up to case. *)
Lemma ToLower_bc (x : string) :
  String.eqb (ToLower x) "bc" = equal_fold x "bc".
Proof.
  destruct x as [|a [|b [|c rest]]]; simpl; try reflexivity.
  - rewrite <- lower_byte_b. destruct (Ascii.eqb (lower_byte a) "b"); reflexivity.
  - rewrite <- lower_byte_b, <- lower_byte_c.
    destruct (Ascii.eqb (lower_byte a) "b"); [|reflexivity].
    destruct (Ascii.eqb (lower_byte b) "c"); reflexivity.
  - rewrite <- lower_byte_b, <- lower_byte_c.
    destruct (Ascii.eqb (lower_byte a) "b"); [|reflexivity].
    destruct (Ascii.eqb (lower_byte b) "c"); reflexivity.
Qed.

Lemma slice_prefix_ln (hrp : string) :
  String.eqb (slice hrp 0 2) "ln" = begins_with "ln" hrp.
Proof.
  unfold slice. change (Z.to_nat 0) with 0%nat.
  change (Z.to_nat (2 - 0)) with 2%nat.
  destruct hrp as [|a [|b rest]];
    cbn [substring String.eqb begins_with]; try reflexivity.
  rewrite (Ascii.eqb_sym "l" a), (Ascii.eqb_sym "n" b).
  assert (E : substring 0 0 rest = EmptyString) by (destruct rest; reflexivity).
  rewrite E. cbn [String.eqb].
  destruct (Ascii.eqb a "l"); destruct (Ascii.eqb b "n"); reflexivity.
Qed.

Section InvoiceProperties.

Variable DecodeNoLimit : string -> result (string * list Z).

Lemma slice_network_identifier (hrp : string) (i : nat) :
  slice hrp 2 (Z.of_nat i) = network_identifier hrp i.
Proof.
  unfold slice, network_identifier.
  change (Z.to_nat 2) with 2%nat.
  replace (Z.to_nat (Z.of_nat i - 2)) with (i - 2)%nat by lia.
  reflexivity.
Qed.

Lemma len_lt_3 (hrp : string) :
  (len hrp <? 3) = true <-> (String.length hrp < 3)%nat.
Proof.
  unfold len. rewrite Z.ltb_lt. lia.
Qed.

(** C3.  When the bech32 decoding of the invoice succeeds, [parseInvoiceAmount]
    fails with an error wrapping [ErrInvalidInvoice] if the human-readable
    part is shorter than 3 characters or does not begin with ["ln"], and also
    if it holds a digit and its network identifier (between the prefix and
    the first digit) is not ["bc"] up to case, whatever follows that digit. *)
Theorem parseInvoiceAmount_invalid_invoice
  (invoice hrp : string) (data : list Z) :
  DecodeNoLimit invoice = Ok (hrp, data) ->
  ((String.length hrp < 3)%nat \/ begins_with "ln" hrp = false ->
   errors_Is (err_of (parseInvoiceAmount DecodeNoLimit invoice)) InvalidInvoice
   = true)
  /\ (forall i : nat,
        first_digit hrp = Some i ->
        equal_fold (network_identifier hrp i) "bc" = false ->
        errors_Is (err_of (parseInvoiceAmount DecodeNoLimit invoice))
          InvalidInvoice
        = true).
Proof.
  intros Hdec. unfold parseInvoiceAmount. rewrite Hdec. split.
  - intros [Hshort | Hprefix].
    + apply len_lt_3 in Hshort. rewrite Hshort. reflexivity.
    + destruct (len hrp <? 3); [reflexivity|].
      rewrite slice_prefix_ln, Hprefix. reflexivity.
  - intros i Hfirst Hnet.
    destruct (len hrp <? 3); [reflexivity|].
    destruct (String.eqb (slice hrp 0 2) "ln"); [|reflexivity].
    cbv zeta. rewrite IndexAny_first_digit, Hfirst.
    replace (Z.of_nat i =? -1) with false by (symmetry; apply Z.eqb_neq; lia).
    rewrite slice_network_identifier, ToLower_bc, Hnet. reflexivity.
Qed.

(** C4.  When the bech32 decoding of the invoice succeeds with a
    human-readable part of at least 3 characters that begins with ["ln"] and
    holds no ASCII digit, [parseInvoiceAmount] fails with [ErrNoAmount]
    itself: [errors.Is] matches [ErrNoAmount] and does not match
    [ErrInvalidInvoice]. *)
Theorem parseInvoiceAmount_no_amount
  (invoice hrp : string) (data : list Z) :
  DecodeNoLimit invoice = Ok (hrp, data) ->
  (3 <= String.length hrp)%nat ->
  begins_with "ln" hrp = true ->
  first_digit hrp = None ->
  parseInvoiceAmount DecodeNoLimit invoice = Err ErrNoAmount
  /\ errors_Is (err_of (parseInvoiceAmount DecodeNoLimit invoice)) NoAmount
     = true
  /\ errors_Is (err_of (parseInvoiceAmount DecodeNoLimit invoice))
       InvalidInvoice
     = false.
Proof.
  intros Hdec Hlen Hprefix Hnone.
  assert (E : parseInvoiceAmount DecodeNoLimit invoice = Err ErrNoAmount).
  { unfold parseInvoiceAmount. rewrite Hdec.
    replace (len hrp <? 3) with false
      by (symmetry; apply Z.ltb_ge; unfold len; lia).
    rewrite slice_prefix_ln, Hprefix. cbv zeta.
    rewrite IndexAny_first_digit, Hnone. reflexivity. }
  rewrite E. repeat split.
Qed.

End InvoiceProperties.

Lemma parseInvoiceAmount_invalid_invoice_witness :
  errors_Is (err_of (parseInvoiceAmount bech32.DecodeNoLimit "a12uel5l"))
    InvalidInvoice = true
  /\ errors_Is (err_of (parseInvoiceAmount bech32.DecodeNoLimit "lntb20m1za76md"))
       InvalidInvoice = true.
Proof.
  split.
  - apply (parseInvoiceAmount_invalid_invoice bech32.DecodeNoLimit
             "a12uel5l" "a" [] ltac:(vm_compute; reflexivity)).
    left. simpl. lia.
  - apply (proj2 (parseInvoiceAmount_invalid_invoice bech32.DecodeNoLimit
                    "lntb20m1za76md" "lntb20m" []
                    ltac:(vm_compute; reflexivity)) 4%nat);
      reflexivity.
Defined.

Lemma parseInvoiceAmount_no_amount_witness :
  parseInvoiceAmount bech32.DecodeNoLimit "lnbc1w4pnfm" = Err ErrNoAmount
  /\ errors_Is (err_of (parseInvoiceAmount bech32.DecodeNoLimit "lnbc1w4pnfm"))
       NoAmount = true
  /\ errors_Is (err_of (parseInvoiceAmount bech32.DecodeNoLimit "lnbc1w4pnfm"))
       InvalidInvoice = false.
Proof.
  apply (parseInvoiceAmount_no_amount bech32.DecodeNoLimit
           "lnbc1w4pnfm" "lnbc" []).
  - vm_compute. reflexivity.
  - simpl. lia.
  - reflexivity.
  - reflexivity.
Defined.

(** ** Request signing *)

Lemma string_app_assoc (a b c : string) : (a ++ b) ++ c = a ++ (b ++ c).
Proof.
  induction a as [|x a IH]; simpl; [reflexivity|]. now rewrite IH.
Qed.

(** C6.  [SimpleSigner.SignRequest] never fails and returns the HMAC-SHA256,
    keyed by the secret, of [endpoint ++ nonce ++ apiToken ++ requestBody],
    with nothing between the fields; two requests whose four fields have the
    same concatenation get the same signature. *)
Theorem SimpleSigner_SignRequest_hmac
  (HMAC_SHA256 : string -> string -> string) (s : SimpleSigner)
  (endpoint nonce apiToken requestBody : string) :
  SimpleSigner_SignRequest HMAC_SHA256 s endpoint nonce apiToken requestBody
  = Ok (HMAC_SHA256 (apiSecret s)
          (endpoint ++ nonce ++ apiToken ++ requestBody))
  /\ forall endpoint' nonce' apiToken' requestBody' : string,
      endpoint' ++ nonce' ++ apiToken' ++ requestBody'
      = endpoint ++ nonce ++ apiToken ++ requestBody ->
      SimpleSigner_SignRequest HMAC_SHA256 s
        endpoint' nonce' apiToken' requestBody'
      = SimpleSigner_SignRequest HMAC_SHA256 s
          endpoint nonce apiToken requestBody.
Proof.
  assert (E : forall e n t b,
             SimpleSigner_SignRequest HMAC_SHA256 s e n t b
             = Ok (HMAC_SHA256 (apiSecret s) (e ++ n ++ t ++ b))).
  { intros e n t b.
    unfold SimpleSigner_SignRequest, hasher_Sum, WriteString, hmac_New.
    cbn [hasher_key hasher_written String.append].
    now rewrite !string_app_assoc. }
  split; [apply E|].
  intros e n t b H. rewrite !E, H. reflexivity.
Qed.

(** ** The wallet *)

Section WalletProperties.

Variable DecodeNoLimit : string -> result (string * list Z).
Variable json_Marshal : any -> result string.
Variable rand_err : list event -> option error.
Variable rand_byte : list event -> nat -> ascii.
Variable NewRequest_err : string -> string -> option error.
Variable http_Do : list event -> Request -> result Response.
Variable json_Unmarshal_errorResponse : string -> result string.
Variable json_Unmarshal_Payment : string -> result Payment.
Variable reader_BalanceAndFee :
  list event -> string -> option Balance * option FeeEstimate * option error.

Local Abbreviation PostRequest' :=
  (PostRequest json_Marshal rand_err rand_byte NewRequest_err http_Do
     json_Unmarshal_errorResponse).
Local Abbreviation newPayment' :=
  (newPayment json_Marshal rand_err rand_byte NewRequest_err http_Do
     json_Unmarshal_errorResponse json_Unmarshal_Payment).
Local Abbreviation PayVariableInvoice' :=
  (PayVariableInvoice DecodeNoLimit json_Marshal rand_err rand_byte
     NewRequest_err http_Do json_Unmarshal_errorResponse
     json_Unmarshal_Payment).
Local Abbreviation SweepLightning' :=
  (SweepLightning DecodeNoLimit json_Marshal rand_err rand_byte
     NewRequest_err http_Do json_Unmarshal_errorResponse
     json_Unmarshal_Payment reader_BalanceAndFee).
Local Abbreviation SweepOnChain' :=
  (SweepOnChain json_Marshal rand_err rand_byte NewRequest_err http_Do
     json_Unmarshal_errorResponse json_Unmarshal_Payment reader_BalanceAndFee).

Lemma rand_bytes_length (tr : list event) (n : nat) :
  String.length (string_of_list_ascii (map (rand_byte tr) (seq 0 n))) = n.
Proof.
  assert (L : forall l : list ascii,
             String.length (string_of_list_ascii l) = List.length l).
  { induction l as [|a l IH]; simpl; [reflexivity | now rewrite IH]. }
  rewrite L, length_map, length_seq. reflexivity.
Qed.

(** C7 (amended).  Every call to [PostRequest] whose body marshals to JSON
    reads exactly 16 bytes from the random source, once, before anything
    else.  When the read succeeds, the base64 encoding of the bytes of that
    read is the nonce passed to the signer, and the request that is sent
    once the signer has signed carries the same value in its [Nonce] header.
    The nonce depends on nothing but the bytes of this read. *)
Theorem PostRequest_nonce
  (wallet : Wallet) (endpoint : string) (body : any) (tr : list event)
  (bodyBytes : string) :
  json_Marshal body = Ok bodyBytes ->
  let nonceBytes := string_of_list_ascii (map (rand_byte tr) (seq 0 16)) in
  let nonce := base64_EncodeToString nonceBytes in
  String.length nonceBytes = 16%nat
  /\ exists rest : list event,
      snd (PostRequest' wallet endpoint body tr)
      = (tr ++ RandRead 16 :: rest)%list
      /\ (forall n, ~ In (RandRead n) rest)
      /\ match rand_err tr with
         | Some _ => rest = []
         | None =>
             exists sent : list event,
               rest
               = SignCall endpoint nonce (apiToken (reader wallet)) bodyBytes
                   :: sent
               /\ (sent = []
                   \/ exists req,
                       sent = [HTTPDo req]
                       /\ Header_Get (Header req) "Nonce" = Some nonce)
               /\ (forall sig,
                      signer wallet (tr ++ [RandRead 16])%list endpoint nonce
                        (apiToken (reader wallet)) bodyBytes = Ok sig ->
                      NewRequest_err "POST" (BaseURL ++ endpoint) = None ->
                      sent <> [])
         end.
Proof.
  intros Hm nonceBytes nonce.
  split; [apply rand_bytes_length|].
  unfold PostRequest, rand_Read. rewrite Hm.
  destruct (rand_err tr) as [e|].
  - exists []. cbn [snd]. repeat split. intros n [].
  - fold nonceBytes. fold nonce. cbv zeta.
    assert (NoRead : forall l,
               (forall ev, In ev l -> exists req, ev = HTTPDo req) ->
               forall n,
                 ~ In (RandRead n)
                     (SignCall endpoint nonce (apiToken (reader wallet))
                        bodyBytes :: l)).
    { intros l Hl n [H|H]; [discriminate|].
      destruct (Hl _ H) as [req E]. discriminate. }
    destruct (signer wallet (tr ++ [RandRead 16])%list endpoint nonce
                (apiToken (reader wallet)) bodyBytes) as [sig|e].
    + destruct (NewRequest_err "POST" (BaseURL ++ endpoint)) as [e|].
      * eexists. cbn [snd]. rewrite <- !app_assoc. cbn [app].
        split; [reflexivity|].
        split; [apply NoRead; intros ev []|].
        exists []. split; [reflexivity|]. split; [left; reflexivity|].
        intros sig' _ H. discriminate.
      * match goal with
        | |- context [http_Do ?t ?r] => set (req := r)
        end.
        assert (Hn : Header_Get (Header req) "Nonce" = Some nonce)
          by reflexivity.
        exists [SignCall endpoint nonce (apiToken (reader wallet)) bodyBytes;
                HTTPDo req].
        split.
        { destruct (http_Do _ req) as [resp|e];
            [destruct (checkHTTPResponse json_Unmarshal_errorResponse resp)|];
            cbn [snd]; rewrite <- !app_assoc; reflexivity. }
        split.
        { apply NoRead. intros ev [<-|[]]. eauto. }
        exists [HTTPDo req]. split; [reflexivity|].
        split; [right; eauto|]. intros; discriminate.
    + eexists. cbn [snd]. rewrite <- !app_assoc. cbn [app].
      split; [reflexivity|].
      split; [apply NoRead; intros ev []|].
      exists []. split; [reflexivity|]. split; [left; reflexivity|].
      intros sig' H. discriminate.
Qed.

(** The errors of [parseInvoiceAmount]: one of the two sentinels, or an error
    that wraps [ErrInvalidInvoice]. *)
Lemma parseInvoiceAmount_errors (invoice : string) (e : error) :
  parseInvoiceAmount DecodeNoLimit invoice = Err e ->
  e = ErrNoAmount \/ e = ErrInvalidInvoice
  \/ exists format, e = wrapError format ErrInvalidInvoice.
Proof.
  unfold parseInvoiceAmount.
  destruct (DecodeNoLimit invoice) as [[hrp data]|err].
  - destruct (len hrp <? 3); [intros [= <-]; auto|].
    destruct (negb (String.eqb (slice hrp 0 2) "ln")); [intros [= <-]; auto|].
    cbv zeta.
    destruct (IndexAny hrp "1234567890" =? -1); [intros [= <-]; auto|].
    destruct (negb (String.eqb (ToLower (slice hrp 2 (IndexAny hrp "1234567890")))
                      "bc")); [intros [= <-]; eauto|].
    destruct (decodeAmount (slice_from hrp (IndexAny hrp "1234567890")));
      [discriminate | intros [= <-]; eauto].
  - intros [= <-]. eauto.
Qed.

(** C9 (defect of the code).  When [parseInvoiceAmount] succeeds, the invoice
    embeds a fixed amount and [PayVariableInvoice] fails without any exchange
    with the outside; but the error it returns is built by [%w] from the nil
    error of the parse: it wraps nothing, and [errors.Is] does not match
    [ErrFixedAmount]. *)
Theorem PayVariableInvoice_fixed_amount
  (wallet : Wallet) (invoice description : string) (amount : float)
  (tr : list event) (btc : float) :
  parseInvoiceAmount DecodeNoLimit invoice = Ok btc ->
  PayVariableInvoice' wallet invoice description amount tr
  = (Err (errorString "PayVariableInvoice: %w"), tr)
  /\ errors_Is (Some (errorString "PayVariableInvoice: %w")) FixedAmount
     = false.
Proof.
  intros H. unfold PayVariableInvoice. rewrite H. split; reflexivity.
Qed.

(** C10.  Unless the error of [parseInvoiceAmount] matches [ErrNoAmount],
    [SweepLightning] returns an error wrapping [ErrFixedAmount], not
    [ErrInvalidInvoice], without any exchange with the outside (no balance or
    fee fetch, no payment); this is so for an invoice that parses and for an
    invoice whose parse fails with an error wrapping [ErrInvalidInvoice].
    Only when the parse fails with [ErrNoAmount] does the call go on, and it
    then starts with the balance and fee fetch. *)
Theorem SweepLightning_gate
  (wallet : Wallet) (invoice description : string) (tr : list event) :
  let parsed := parseInvoiceAmount DecodeNoLimit invoice in
  (errors_Is (err_of parsed) NoAmount = false ->
   SweepLightning' wallet invoice description tr
   = (Returned (Err (wrapError "SweepLightning: %w" ErrFixedAmount)), tr)
   /\ errors_Is (Some (wrapError "SweepLightning: %w" ErrFixedAmount))
        FixedAmount = true
   /\ errors_Is (Some (wrapError "SweepLightning: %w" ErrFixedAmount))
        InvalidInvoice = false)
  /\ (err_of parsed = None \/ errors_Is (err_of parsed) InvalidInvoice = true ->
      errors_Is (err_of parsed) NoAmount = false)
  /\ (errors_Is (err_of parsed) NoAmount = true ->
      parsed = Err ErrNoAmount
      /\ exists rest : list event,
          snd (SweepLightning' wallet invoice description tr)
          = (tr ++ FetchBalanceAndFee invoice :: rest)%list).
Proof.
  intros parsed. split; [|split].
  - intros H. unfold SweepLightning. fold parsed. rewrite H.
    repeat split.
  - intros [H|H]; [rewrite H; reflexivity|].
    destruct parsed as [btc|e] eqn:E; [reflexivity|].
    destruct (parseInvoiceAmount_errors _ _ E) as [->|[->|[f ->]]];
      [discriminate | reflexivity | reflexivity].
  - intros H. split.
    + destruct parsed as [btc|e] eqn:E; [discriminate|].
      destruct (parseInvoiceAmount_errors _ _ E) as [->|[->|[f ->]]];
        [reflexivity | discriminate | discriminate].
    + unfold SweepLightning. fold parsed. rewrite H.
      unfold BalanceAndFee. cbn [negb].
      destruct (reader_BalanceAndFee tr invoice) as [[[b|] [f|]] [e|]];
        try (exists []; reflexivity).
      destruct (newPayment' wallet _ _ _) as [r tr2] eqn:N.
      unfold newPayment in N.
      match type of N with
      | context [PostRequest' ?w ?ep ?bd ?t] =>
          destruct (PostRequest' w ep bd t) as [r0 tr3] eqn:P
      end.
      assert (Hext : exists l, tr3 = ((tr ++ [FetchBalanceAndFee invoice]) ++ l)%list).
      { unfold PostRequest in P.
        destruct (json_Marshal _);
          [|inversion P; exists []; now rewrite List.app_nil_r].
        destruct (rand_Read rand_err rand_byte _ 16);
          [|inversion P; eexists; reflexivity].
        destruct (signer wallet _ _ _ _ _);
          [|inversion P; eexists; rewrite <- !app_assoc; reflexivity].
        destruct (NewRequest_err _ _);
          [inversion P; eexists; rewrite <- !app_assoc; reflexivity|].
        destruct (http_Do _ _);
          [destruct (checkHTTPResponse _ _)|];
          inversion P; eexists; rewrite <- !app_assoc; reflexivity. }
      destruct Hext as [l ->].
      exists l. cbn [snd].
      assert (tr2 = ((tr ++ [FetchBalanceAndFee invoice]) ++ l)%list) as ->.
      { destruct r0; [destruct (json_Unmarshal_Payment _)|]; inversion N;
          reflexivity. }
      now rewrite <- app_assoc.
Qed.

(** Every error of [newPayment] wraps another error. *)
Lemma newPayment_errors
  (wallet : Wallet) (method : string) (req : sendPaymentRequest)
  (tr : list event) (e : error) :
  fst (newPayment' wallet method req tr) = Err e ->
  exists format inner, e = wrapError format inner.
Proof.
  unfold newPayment.
  destruct (PostRequest' wallet "/api/v1/wallet/payment"
              (any_sendPaymentRequest req) tr) as [[respData|err] tr'].
  - destruct (json_Unmarshal_Payment respData); cbn [fst];
      [discriminate | intros [= <-]; eauto].
  - cbn [fst]. intros [= <-]. eauto.
Qed.

(** C5.  With a fetched confirmed balance [C], fixed fee [F] and commission
    rate [r], [SweepOnChain] computes [available = C - F], [commission = r * C]
    (the rate applied to the whole confirmed balance) and
    [amount = available - commission] in [float64]; it fails with the
    insufficient-for-fee error exactly when [available < 0], fails with the
    insufficient-for-commission error exactly when [available < 0] does not
    hold and [amount <= 0], and otherwise submits a payment of exactly
    [amount]. *)
Theorem SweepOnChain_amounts
  (wallet : Wallet) (address description : string) (tr : list event)
  (balance : Balance) (fees : FeeEstimate) :
  reader_BalanceAndFee tr address = (Some balance, Some fees, None) ->
  let C := Confirmed balance in
  let F := BtcFixedFee fees in
  let r := BtcSendCommissionPercent fees in
  let available := (C - F)%float in
  let commission := (r * C)%float in
  let amount := (available - commission)%float in
  let tr1 := (tr ++ [FetchBalanceAndFee address])%list in
  let submitted :=
    newPayment' wallet "SweepOnChain"
      {| Address := address;
         Currency := "BTC";
         Description := description;
         MaxBitcoin := true;
         Amount := amount;
         MaxLightning := false |}
      tr1 in
  let swept := SweepOnChain' wallet address description tr in
  swept
  = (if (available <? 0)%float then
       (Returned (Err insufficient_for_fee), tr1)
     else if (amount <=? 0)%float then
       (Returned (Err insufficient_for_commission), tr1)
     else (Returned (fst submitted), snd submitted))
  /\ (fst swept = Returned (Err insufficient_for_fee)
      <-> (available <? 0)%float = true)
  /\ (fst swept = Returned (Err insufficient_for_commission)
      <-> (available <? 0)%float = false /\ (amount <=? 0)%float = true).
Proof.
  clear DecodeNoLimit.
  intros Hfetch C F r available commission amount tr1 submitted swept.
  assert (E : swept
              = (if (available <? 0)%float then
                   (Returned (Err insufficient_for_fee), tr1)
                 else if (amount <=? 0)%float then
                   (Returned (Err insufficient_for_commission), tr1)
                 else (Returned (fst submitted), snd submitted))).
  { unfold swept, SweepOnChain, BalanceAndFee. rewrite Hfetch.
    fold C F r. fold available. cbv zeta. fold commission. fold amount.
    destruct (available <? 0)%float; [reflexivity|].
    destruct (amount <=? 0)%float; [reflexivity|].
    fold tr1. fold submitted. destruct submitted; reflexivity. }
  split; [exact E|].
  rewrite E.
  assert (Hsub : forall e, fst submitted = Err e ->
                           e <> insufficient_for_fee
                           /\ e <> insufficient_for_commission).
  { intros e He. destruct (newPayment_errors _ _ _ _ _ He) as (f & i & ->).
    split; discriminate. }
  destruct (available <? 0)%float; destruct (amount <=? 0)%float; cbn [fst];
    (split; split;
     try solve [ reflexivity | discriminate
               | intros [? ?]; discriminate
               | intros [= H]; apply Hsub in H; tauto
               | split; reflexivity ]).
Qed.

End WalletProperties.

(** *** The wallet on examples *)

(** An on-chain sweep of a confirmed balance of 1 bitcoin with a fixed fee of
    0.0001 and a commission rate of 0.01 submits 0.9899 bitcoin. *)
Lemma SweepOnChain_amounts_witness :
  SweepOnChain Sample.json_Marshal Sample.rand_err Sample.rand_byte
    Sample.NewRequest_err Sample.http_Do Sample.json_Unmarshal_errorResponse
    Sample.json_Unmarshal_Payment Sample.reader_BalanceAndFee
    Sample.wallet "bc1q" "" []
  = (let submitted :=
       newPayment Sample.json_Marshal Sample.rand_err Sample.rand_byte
         Sample.NewRequest_err Sample.http_Do
         Sample.json_Unmarshal_errorResponse Sample.json_Unmarshal_Payment
         Sample.wallet "SweepOnChain"
         {| Address := "bc1q";
            Currency := "BTC";
            Description := "";
            MaxBitcoin := true;
            Amount := 0.9899;
            MaxLightning := false |}
         [FetchBalanceAndFee "bc1q"] in
     (Returned (fst submitted), snd submitted)).
Proof.
  exact (proj1 (SweepOnChain_amounts Sample.json_Marshal Sample.rand_err
                  Sample.rand_byte Sample.NewRequest_err Sample.http_Do
                  Sample.json_Unmarshal_errorResponse
                  Sample.json_Unmarshal_Payment Sample.reader_BalanceAndFee
                  Sample.wallet "bc1q" "" []
                  {| Confirmed := 1; Unconfirmed := 0 |} Sample.fees
                  eq_refl)).
Defined.

(** C7 (as stated, refuted).  A call whose body does not marshal -- here a
    payment request whose amount is not a number -- returns the error of
    [json.Marshal] at once: nothing is read from the random source and no
    nonce is generated. *)
Lemma PostRequest_unmarshalable_body :
  PostRequest Sample.json_Marshal Sample.rand_err Sample.rand_byte
    Sample.NewRequest_err Sample.http_Do Sample.json_Unmarshal_errorResponse
    Sample.wallet "/api/v1/wallet/payment"
    (any_sendPaymentRequest
       {| Address := "bc1q";
          Currency := "BTC";
          Description := "";
          Amount := nan;
          MaxLightning := false;
          MaxBitcoin := false |})
    []
  = (Err (Foreign "json: unsupported value"), []).
Proof. reflexivity. Qed.

Lemma PostRequest_nonce_witness :
  exists rest : list event,
    snd (PostRequest Sample.json_Marshal Sample.rand_err Sample.rand_byte
           Sample.NewRequest_err Sample.http_Do
           Sample.json_Unmarshal_errorResponse
           Sample.wallet "/api/v1/wallet/payment" (any_other "{}") [])
    = RandRead 16 :: rest
    /\ exists sent : list event,
        rest
        = SignCall "/api/v1/wallet/payment" "AQQHCg0QExYZHB8iJSgrLg=="
            "edcc867c-96ff-4b0d-ba68-165c16071de0" "{}" :: sent
        /\ exists req,
            sent = [HTTPDo req]
            /\ Header_Get (Header req) "Nonce"
               = Some "AQQHCg0QExYZHB8iJSgrLg==".
Proof.
  destruct (PostRequest_nonce Sample.json_Marshal Sample.rand_err
              Sample.rand_byte Sample.NewRequest_err Sample.http_Do
              Sample.json_Unmarshal_errorResponse
              Sample.wallet "/api/v1/wallet/payment" (any_other "{}") []
              "{}" eq_refl)
    as (_ & rest & Htr & _ & sent & Hrest & Hsent & Hnonempty).
  exists rest. split; [exact Htr|].
  exists sent. split; [exact Hrest|].
  destruct Hsent as [Hnil|Hreq]; [|exact Hreq].
  exfalso. exact (Hnonempty "signature" eq_refl eq_refl Hnil).
Defined.

(** The fixed-amount invoice of 2500 micro-bitcoin: [PayVariableInvoice]
    returns an error that does not wrap [ErrFixedAmount]. *)
Lemma PayVariableInvoice_fixed_amount_witness :
  PayVariableInvoice bech32.DecodeNoLimit Sample.json_Marshal Sample.rand_err
    Sample.rand_byte Sample.NewRequest_err Sample.http_Do
    Sample.json_Unmarshal_errorResponse Sample.json_Unmarshal_Payment
    Sample.wallet Sample.invoice_2500u "" 1 []
  = (Err (errorString "PayVariableInvoice: %w"), [])
  /\ errors_Is (Some (errorString "PayVariableInvoice: %w")) FixedAmount
     = false.
Proof.
  apply (PayVariableInvoice_fixed_amount bech32.DecodeNoLimit
           Sample.json_Marshal Sample.rand_err Sample.rand_byte
           Sample.NewRequest_err Sample.http_Do
           Sample.json_Unmarshal_errorResponse Sample.json_Unmarshal_Payment
           Sample.wallet Sample.invoice_2500u "" 1%float []
           0.0025000000000000001%float).
  vm_compute. reflexivity.
Defined.

(** A testnet invoice, which [parseInvoiceAmount] rejects as invalid, is
    reported by [SweepLightning] as a fixed-amount invoice. *)
Lemma SweepLightning_gate_witness :
  SweepLightning bech32.DecodeNoLimit Sample.json_Marshal Sample.rand_err
    Sample.rand_byte Sample.NewRequest_err Sample.http_Do
    Sample.json_Unmarshal_errorResponse Sample.json_Unmarshal_Payment
    Sample.reader_BalanceAndFee Sample.wallet "lntb20m1za76md" "" []
  = (Returned (Err (wrapError "SweepLightning: %w" ErrFixedAmount)), [])
  /\ errors_Is (err_of (parseInvoiceAmount bech32.DecodeNoLimit "lntb20m1za76md"))
       InvalidInvoice = true.
Proof.
  split.
  - apply (proj1 (SweepLightning_gate bech32.DecodeNoLimit
                    Sample.json_Marshal Sample.rand_err Sample.rand_byte
                    Sample.NewRequest_err Sample.http_Do
                    Sample.json_Unmarshal_errorResponse
                    Sample.json_Unmarshal_Payment Sample.reader_BalanceAndFee
                    Sample.wallet "lntb20m1za76md" "" [])).
    vm_compute. reflexivity.
  - vm_compute. reflexivity.
Defined.

(** ** The interleavings of [BalanceAndFee] *)

Lemma undisturbed_start : undisturbed BalanceAndFee_start.
Proof.
  split; [reflexivity|]. simpl. repeat split; lia.
Qed.

Local Ltac inv_step H :=
  match type of H with
  | (if ?c then _ else _) = Some _ =>
      let E := fresh "E" in destruct c eqn:E; [|discriminate H]; inv_step H
  | Some _ = Some _ => injection H as <-
  | None = Some _ => discriminate H
  | _ => idtac
  end.

Lemma step_undisturbed (st st' : state) (l : label) :
  undisturbed st -> own_step l = true -> step st l = Some st' ->
  undisturbed st'.
Proof.
  destruct st as [gb gf c p]. intros [Hp Hc] Hl Hs.
  cbn [parent_cancelled caller_at balance_goroutine fee_goroutine] in *.
  subst p.
  destruct l; try discriminate Hl; cbn [step ctx_Done] in Hs;
    cbn [parent_cancelled caller_at balance_goroutine fee_goroutine orb] in Hs.
  - (* BalanceReturns *)
    destruct gb; try discriminate Hs. inv_step Hs.
    split; [reflexivity|].
    cbn [parent_cancelled caller_at balance_goroutine fee_goroutine].
    destruct c as [i b f | b f [e|]].
    + destruct Hc as (Hb & Hf & Hi & Hlt). simpl in Hb. subst b.
      repeat split; try assumption; destruct r; reflexivity.
    + destruct Hc as ([[H|H]|H] & Hb & Hf); try discriminate H.
      split; [right; exact H|]. split; [|exact Hf].
      destruct Hb as [->|(a & _ & H')]; [left; reflexivity | discriminate H'].
    + destruct Hc as (b0 & f0 & H & _). discriminate H.
  - (* FeeEstimateReturns *)
    destruct gf; try discriminate Hs. inv_step Hs.
    split; [reflexivity|].
    cbn [parent_cancelled caller_at balance_goroutine fee_goroutine].
    destruct c as [i b f | b f [e|]].
    + destruct Hc as (Hb & Hf & Hi & Hlt). simpl in Hf. subst f.
      repeat split; try assumption; destruct r; reflexivity.
    + destruct Hc as ([H|[H|H]] & Hb & Hf); try discriminate H.
      split; [left; exact H|]. split; [exact Hb|].
      destruct Hf as [->|(a & _ & H')]; [left; reflexivity | discriminate H'].
    + destruct Hc as (b0 & f0 & _ & H & _). discriminate H.
  - (* BalanceErrReceived *)
    destruct gb; try discriminate Hs. destruct c as [i b f|]; [|discriminate Hs].
    inv_step Hs. split; [reflexivity|].
    cbn [parent_cancelled caller_at balance_goroutine fee_goroutine].
    destruct Hc as (Hb & Hf & Hi & Hlt). simpl in Hb. subst b.
    split; [left; left; reflexivity|]. split; [left; reflexivity|].
    destruct gf as [| |[a|]|[a|]]; simpl in Hf; try contradiction;
      try (left; exact Hf).
    right. eauto.
  - (* BalanceErrAbandoned *)
    destruct gb; try discriminate Hs.
    destruct c as [i b f | b f [e|]]; cbn in Hs; [discriminate Hs| |].
    + inv_step Hs. split; [reflexivity|].
      cbn [parent_cancelled caller_at balance_goroutine fee_goroutine].
      destruct Hc as ([[H|H]|H] & Hb & Hf); try discriminate H.
      split; [right; exact H|]. split; [|exact Hf].
      destruct Hb as [->|(a & _ & H')]; [left; reflexivity | discriminate H'].
    + destruct Hc as (b0 & f0 & H & _). discriminate H.
  - (* BalanceReceived *)
    destruct gb as [| |r|]; try discriminate Hs.
    destruct c as [i b f|]; [|discriminate Hs].
    inv_step Hs. split; [reflexivity|].
    cbn [parent_cancelled caller_at balance_goroutine fee_goroutine].
    destruct Hc as (Hb & Hf & Hi & Hlt).
    destruct r as [a|e]; simpl in Hb; [subst b|contradiction].
    unfold next_iteration. cbn [fetched].
    destruct (i + 1 <? 2) eqn:E.
    + apply Z.ltb_lt in E. cbn [received] in *.
      repeat split; try assumption; try reflexivity; lia.
    + apply Z.ltb_ge in E.
      destruct f as [fv|]; [|cbn [received] in Hi; lia].
      destruct gf as [| |[a'|]|[a'|]]; simpl in Hf; try discriminate Hf;
        try contradiction.
      injection Hf as ->. exists a, a'. auto.
  - (* BalanceAbandoned *)
    destruct gb as [| |r|]; try discriminate Hs.
    destruct c as [i b f | b f [e|]]; cbn in Hs; [discriminate Hs| |].
    + inv_step Hs. split; [reflexivity|].
      cbn [parent_cancelled caller_at balance_goroutine fee_goroutine].
      destruct Hc as (He & Hb & Hf).
      split.
      * destruct He as [[H|H]|H]; [|discriminate H|right; exact H].
        injection H as ->. left. right. reflexivity.
      * split; [|exact Hf].
        destruct Hb as [->|(a & _ & H')]; [left; reflexivity | discriminate H'].
    + destruct Hc as (b0 & f0 & H & _). discriminate H.
  - (* FeeErrReceived *)
    destruct gf; try discriminate Hs. destruct c as [i b f|]; [|discriminate Hs].
    inv_step Hs. split; [reflexivity|].
    cbn [parent_cancelled caller_at balance_goroutine fee_goroutine].
    destruct Hc as (Hb & Hf & Hi & Hlt). simpl in Hf. subst f.
    split; [right; left; reflexivity|]. split; [|left; reflexivity].
    destruct gb as [| |[a|]|[a|]]; simpl in Hb; try contradiction;
      try (left; exact Hb).
    right. eauto.
  - (* FeeErrAbandoned *)
    destruct gf; try discriminate Hs.
    destruct c as [i b f | b f [e|]]; cbn in Hs; [discriminate Hs| |].
    + inv_step Hs. split; [reflexivity|].
      cbn [parent_cancelled caller_at balance_goroutine fee_goroutine].
      destruct Hc as ([H|[H|H]] & Hb & Hf); try discriminate H.
      split; [left; exact H|]. split; [exact Hb|].
      destruct Hf as [->|(a & _ & H')]; [left; reflexivity | discriminate H'].
    + destruct Hc as (b0 & f0 & _ & H & _). discriminate H.
  - (* FeeReceived *)
    destruct gf as [| |r|]; try discriminate Hs.
    destruct c as [i b f|]; [|discriminate Hs].
    inv_step Hs. split; [reflexivity|].
    cbn [parent_cancelled caller_at balance_goroutine fee_goroutine].
    destruct Hc as (Hb & Hf & Hi & Hlt).
    destruct r as [a|e]; simpl in Hf; [subst f|contradiction].
    unfold next_iteration. cbn [fetched].
    destruct (i + 1 <? 2) eqn:E.
    + apply Z.ltb_lt in E. cbn [received] in *.
      repeat split; try assumption; try reflexivity; lia.
    + apply Z.ltb_ge in E.
      destruct b as [bv|]; [|cbn [received] in Hi; lia].
      destruct gb as [| |[a'|]|[a'|]]; simpl in Hb; try discriminate Hb;
        try contradiction.
      injection Hb as ->. exists a', a. auto.
  - (* FeeAbandoned *)
    destruct gf as [| |r|]; try discriminate Hs.
    destruct c as [i b f | b f [e|]]; cbn in Hs; [discriminate Hs| |].
    + inv_step Hs. split; [reflexivity|].
      cbn [parent_cancelled caller_at balance_goroutine fee_goroutine].
      destruct Hc as (He & Hb & Hf).
      split.
      * destruct He as [H|[H|H]]; [left; exact H| |discriminate H].
        injection H as ->. right. right. reflexivity.
      * split; [exact Hb|].
        destruct Hf as [->|(a & _ & H')]; [left; reflexivity | discriminate H'].
    + destruct Hc as (b0 & f0 & _ & H & _). discriminate H.
Qed.

Lemma run_undisturbed (ls : list label) :
  forall st st',
    undisturbed st -> forallb own_step ls = true -> run st ls = Some st' ->
    undisturbed st'.
Proof.
  induction ls as [|l ls IH]; intros st st' Hst Hls Hrun; simpl in *.
  - injection Hrun as <-. exact Hst.
  - apply andb_true_iff in Hls. destruct Hls as [Hl Hls].
    destruct (step st l) as [st1|] eqn:Hs; [|discriminate Hrun].
    apply (IH st1 st'); [|exact Hls|exact Hrun].
    exact (step_undisturbed st st1 l Hst Hl Hs).
Qed.

(** As long as the caller's context is not cancelled, the call cannot get
    stuck before it is over: some goroutine or the caller can move. *)
Lemma undisturbed_progress (st : state) :
  undisturbed st -> finished st = false ->
  exists l st', own_step l = true /\ step st l = Some st'.
Proof.
  destruct st as [gb gf c p]. intros [Hp Hc] Hfin.
  cbn [parent_cancelled caller_at balance_goroutine fee_goroutine] in *.
  subst p. unfold finished in Hfin.
  cbn [caller_at balance_goroutine fee_goroutine] in Hfin.
  destruct gb as [|eb|rb|rb].
  - exists (BalanceReturns (Err (Foreign ""))). eexists. split; reflexivity.
  - destruct c as [i b f | b f e].
    + exists BalanceErrReceived. eexists. split; reflexivity.
    + exists BalanceErrAbandoned. eexists. split; reflexivity.
  - destruct c as [i b f | b f e].
    + exists BalanceReceived. eexists. split; reflexivity.
    + exists BalanceAbandoned. eexists. split; reflexivity.
  - destruct gf as [|ef|rf|rf].
    + exists (FeeEstimateReturns (Err (Foreign ""))). eexists.
      split; reflexivity.
    + destruct c as [i b f | b f e].
      * exists FeeErrReceived. eexists. split; reflexivity.
      * exists FeeErrAbandoned. eexists. split; reflexivity.
    + destruct c as [i b f | b f e].
      * exists FeeReceived. eexists. split; reflexivity.
      * exists FeeAbandoned. eexists. split; reflexivity.
    + destruct c as [i b f | b f e]; [|discriminate Hfin].
      exfalso. destruct Hc as (Hb & Hf & Hi & Hlt).
      destruct rb as [a|e]; simpl in Hb; [subst b|contradiction].
      destruct rf as [a'|e]; simpl in Hf; [subst f|contradiction].
      cbn [received] in Hi. lia.
Qed.

(** Every step of the call brings it closer to its end. *)
Lemma own_step_decreases (st st' : state) (l : label) :
  own_step l = true -> step st l = Some st' ->
  (remaining_steps st' < remaining_steps st)%nat.
Proof.
  destruct st as [gb gf c p]. intros Hl Hs. unfold remaining_steps.
  destruct l; try discriminate Hl; cbn [step ctx_Done] in Hs;
    cbn [parent_cancelled caller_at balance_goroutine fee_goroutine] in *;
    try (destruct gb; try discriminate Hs);
    try (destruct gf; try discriminate Hs);
    try (destruct c; try discriminate Hs);
    inv_step Hs;
    cbn [balance_goroutine fee_goroutine goroutine_steps after_fetch];
    try lia;
    destruct r; cbn [after_fetch goroutine_steps]; lia.
Qed.

(** Without a cancellation by the caller, [BalanceAndFee] returns what the
    design notes say: with a nil error, both fetched results; with an error,
    the error of a failed fetch and the results delivered so far. *)
Lemma BalanceAndFee_undisturbed_results (ls : list label) (st : state)
  (balance : option Balance) (fees : option FeeEstimate)
  (err : option error) :
  forallb own_step ls = true ->
  run BalanceAndFee_start ls = Some st ->
  caller_at st = HasReturned balance fees err ->
  match err with
  | None =>
      exists b f,
        balance_goroutine st = Exited (Ok b)
        /\ fee_goroutine st = Exited (Ok f)
        /\ balance = Some b /\ fees = Some f
  | Some e =>
      (failed_with (balance_goroutine st) e
       \/ failed_with (fee_goroutine st) e)
      /\ partial_result (balance_goroutine st) balance
      /\ partial_result (fee_goroutine st) fees
  end.
Proof.
  intros Hls Hrun Hc.
  destruct (run_undisturbed ls _ _ undisturbed_start Hls Hrun) as [_ H].
  rewrite Hc in H. destruct err; exact H.
Qed.

(** Once the caller has returned, its deferred [cancel] has closed
    [ctx.Done()]: a goroutine that has not exited can always move, whether or
    not the caller's context was cancelled.  No goroutine stays blocked on a
    send. *)
Lemma goroutines_unblocked_after_return (st : state)
  (balance : option Balance) (fees : option FeeEstimate)
  (err : option error) :
  caller_at st = HasReturned balance fees err -> finished st = false ->
  exists l st', own_step l = true /\ step st l = Some st'.
Proof.
  destruct st as [gb gf c p]. cbn [caller_at]. intros -> Hfin.
  unfold finished in Hfin.
  cbn [caller_at balance_goroutine fee_goroutine] in Hfin.
  assert (D : ctx_Done (mkState gb gf (HasReturned balance fees err) p) = true)
    by (unfold ctx_Done; cbn; apply orb_true_r).
  destruct gb as [|eb|rb|rb].
  - exists (BalanceReturns (Err (Foreign ""))). eexists. split; reflexivity.
  - exists BalanceErrAbandoned. eexists. split; [reflexivity|].
    cbn [step balance_goroutine]. rewrite D. reflexivity.
  - exists BalanceAbandoned. eexists. split; [reflexivity|].
    cbn [step balance_goroutine]. rewrite D. reflexivity.
  - destruct gf as [|ef|rf|rf]; [| | |discriminate Hfin].
    + exists (FeeEstimateReturns (Err (Foreign ""))). eexists.
      split; reflexivity.
    + exists FeeErrAbandoned. eexists. split; [reflexivity|].
      cbn [step fee_goroutine]. rewrite D. reflexivity.
    + exists FeeAbandoned. eexists. split; [reflexivity|].
      cbn [step fee_goroutine]. rewrite D. reflexivity.
Qed.

(** C8 (defect of the code).  When the caller's context is cancelled while
    both reads are in flight, both reads fail, and each goroutine finds both
    cases of its [select] ready.  If both goroutines take [<-ctx.Done()]
    twice, they exit without having sent anything, and the caller, whose own
    [select] has no case for [ctx.Done()], stays in its loop: no step is left
    but a further cancellation, which changes nothing, and [BalanceAndFee]
    never returns the error.  If both goroutines take [<-ctx.Done()] at their
    first [select] and send at the second, the caller receives two nil
    results and returns them with a nil error.  And when both reads have
    succeeded and the context is cancelled before the results are sent, a
    goroutine may take [<-ctx.Done()] instead of sending: the caller then
    waits for a second result that never comes. *)
Theorem BalanceAndFee_cancelled_by_caller :
  let e := Foreign "context canceled" in
  let stuck :=
    mkState (Exited (Err e)) (Exited (Err e)) (InLoop 0 None None) true in
  let b := {| Confirmed := 1; Unconfirmed := 0 |} in
  let stuck_after_success :=
    mkState (Exited (Ok b)) (Exited (Ok Sample.fees))
      (InLoop 1 None (Some Sample.fees)) true in
  (run BalanceAndFee_start
     [ParentCancels; BalanceReturns (Err e); FeeEstimateReturns (Err e);
      BalanceErrAbandoned; BalanceAbandoned; FeeErrAbandoned; FeeAbandoned]
   = Some stuck
   /\ finished stuck = false
   /\ forall l st',
       step stuck l = Some st' -> l = ParentCancels /\ st' = stuck)
  /\ run BalanceAndFee_start
       [ParentCancels; BalanceReturns (Err e); FeeEstimateReturns (Err e);
        BalanceErrAbandoned; FeeErrAbandoned; BalanceReceived; FeeReceived]
     = Some (mkState (Exited (Err e)) (Exited (Err e))
               (HasReturned None None None) true)
  /\ (run BalanceAndFee_start
        [BalanceReturns (Ok b); FeeEstimateReturns (Ok Sample.fees);
         ParentCancels; BalanceAbandoned; FeeReceived]
      = Some stuck_after_success
      /\ finished stuck_after_success = false
      /\ forall l st',
          step stuck_after_success l = Some st' ->
          l = ParentCancels /\ st' = stuck_after_success).
Proof.
  intros e stuck b stuck_after_success.
  assert (Stuck : forall st,
             balance_goroutine st = Exited (Err e) \/
             balance_goroutine st = Exited (Ok b) ->
             fee_goroutine st = Exited (Err e) \/
             fee_goroutine st = Exited (Ok Sample.fees) ->
             parent_cancelled st = true ->
             forall l st', step st l = Some st' -> l = ParentCancels /\ st' = st).
  { intros [gb gf c p] Hb Hf Hp l st' H.
    cbn [balance_goroutine fee_goroutine parent_cancelled] in *. subst p.
    destruct l; cbn [step] in H;
      cbn [balance_goroutine fee_goroutine parent_cancelled caller_at] in H;
      try (destruct Hb as [-> | ->]; discriminate H);
      try (destruct Hf as [-> | ->]; discriminate H).
    injection H as <-. split; reflexivity. }
  split; [|split].
  - split; [reflexivity|]. split; [reflexivity|].
    apply Stuck; [left | left |]; reflexivity.
  - reflexivity.
  - split; [reflexivity|]. split; [reflexivity|].
    apply Stuck; [right | right |]; reflexivity.
Qed.

(** * Further properties *)

(** ** Invoice amounts *)

Lemma decodeAmount_errors_plain (amount : string) (e : error) :
  decodeAmount amount = Err e -> forall t, error_is e t = false.
Proof.
  unfold decodeAmount, strconv.ParseUint.
  destruct (last_byte amount) as [c|]; [|intros [= <-]; reflexivity].
  cbv zeta.
  destruct ((u8_sub (byte_val c) 48 >=? 0) && (u8_sub (byte_val c) 48 <=? 9)).
  - destruct amount as [|a rest]; [intros [= <-]; reflexivity|].
    destruct (strconv.parse_loop (String a rest) 0);
      [intros [= <-]; reflexivity | discriminate].
  - destruct (len (drop_last amount) <? 1); [intros [= <-]; reflexivity|].
    destruct (drop_last amount) as [|a rest]; [intros [= <-]; reflexivity|].
    destruct (strconv.parse_loop (String a rest) 0) as [k|am];
      [intros [= <-]; reflexivity|].
    destruct (Ascii.eqb c "p").
    { destruct (am <? 10); [intros [= <-]; reflexivity|].
      destruct (negb (am mod 10 =? 0)); [intros [= <-]; reflexivity|].
      discriminate. }
    destruct (Ascii.eqb c "n"); [discriminate|].
    destruct (Ascii.eqb c "u"); [discriminate|].
    destruct (Ascii.eqb c "m"); [discriminate|].
    intros [= <-]. reflexivity.
Qed.

Lemma decodeAmount_ref_nonneg (amount : string) (v : Z) :
  decodeAmount_ref amount = RefOk v -> 0 <= v.
Proof.
  unfold decodeAmount_ref.
  destruct (last_byte amount) as [c|]; [|discriminate].
  destruct (is_digit c).
  - destruct (parse_unsigned amount) as [B|] eqn:P; [|discriminate].
    apply parse_unsigned_range in P. intros [= <-]. lia.
  - destruct (parse_unsigned (drop_last amount)) as [m|] eqn:P; [|discriminate].
    apply parse_unsigned_range in P.
    destruct (Ascii.eqb c "p").
    { destruct ((10 <=? m) && (m mod 10 =? 0)); [|discriminate].
      intros [= <-]. apply Z.div_pos; lia. }
    destruct (Ascii.eqb c "n"); [intros [= <-]; lia|].
    destruct (Ascii.eqb c "u"); [intros [= <-]; lia|].
    destruct (Ascii.eqb c "m"); [intros [= <-]; lia|].
    discriminate.
Qed.

(** X1.  On every input [decodeAmount] returns the result of the reference
    definition reduced modulo [2^64] -- the exact amount whenever it is below
    [2^64] -- and fails where the reference fails, for the same reason; what
    it returns is always a [uint64], and its errors wrap none of the
    package's sentinels. *)
Theorem decodeAmount_modulo_reference (amount : string) :
  match decodeAmount_ref amount with
  | RefOk v =>
      decodeAmount amount = Ok (v mod 2 ^ 64)
      /\ (v < 2 ^ 64 -> decodeAmount amount = Ok v)
  | RefFail why =>
      exists e,
        decodeAmount amount = Err e /\ failure_of e = why
        /\ forall t, error_is e t = false
  end
  /\ forall v, decodeAmount amount = Ok v -> 0 <= v < 2 ^ 64.
Proof.
  pose proof (decodeAmount_refines amount) as R.
  pose proof (decodeAmount_ref_nonneg amount) as N.
  split.
  - destruct (decodeAmount_ref amount) as [v|why].
    + split; [exact R|]. intros Hlt.
      rewrite R. f_equal. apply u64_small.
      specialize (N v eq_refl). split; [exact N | exact Hlt].
    + destruct R as (e & He & Hk). exists e. repeat split; try assumption.
      apply (decodeAmount_errors_plain amount e He).
  - intros v Hv. destruct (decodeAmount_ref amount) as [w|why].
    + rewrite R in Hv. injection Hv as <-. apply u64_range.
    + destruct R as (e & He & _). congruence.
Qed.

Section InvoiceFurther.

Variable DecodeNoLimit : string -> result (string * list Z).

(** X2.  Every error of [parseInvoiceAmount] is of exactly one kind: it is
    [ErrNoAmount] itself, or it wraps [ErrInvalidInvoice]; it never matches
    [ErrFixedAmount].  A string that the bech32 decoder rejects gives an
    error wrapping [ErrInvalidInvoice]. *)
Theorem parseInvoiceAmount_error_kinds (invoice : string) (e : error) :
  parseInvoiceAmount DecodeNoLimit invoice = Err e ->
  error_is e FixedAmount = false
  /\ (error_is e NoAmount = true <-> e = ErrNoAmount)
  /\ error_is e InvalidInvoice = negb (error_is e NoAmount)
  /\ (forall err, DecodeNoLimit invoice = Err err ->
      error_is e InvalidInvoice = true).
Proof.
  intros H.
  assert (Hdec : forall err, DecodeNoLimit invoice = Err err ->
                             error_is e InvalidInvoice = true).
  { intros err Hd. unfold parseInvoiceAmount in H. rewrite Hd in H.
    injection H as <-. reflexivity. }
  destruct (parseInvoiceAmount_errors DecodeNoLimit invoice e H)
    as [->|[->|[f ->]]]; repeat split; try reflexivity; try discriminate;
    try exact Hdec.
Qed.

Lemma slice_from_first_digit (hrp : string) (i : nat) :
  slice_from hrp (Z.of_nat i) = substring i (String.length hrp - i) hrp.
Proof.
  unfold slice_from, slice, len.
  rewrite Nat2Z.id.
  replace (Z.to_nat (Z.of_nat (String.length hrp) - Z.of_nat i))
    with (String.length hrp - i)%nat by lia.
  reflexivity.
Qed.

(** X3.  [parseInvoiceAmount] succeeds exactly on the strings that decode to
    a human-readable part of at least 3 characters that begins with ["ln"],
    holds a digit, has the network identifier ["bc"] up to case between the
    prefix and its first digit, and whose remainder from that digit on is an
    amount that [decodeAmount] accepts; the result is then that amount of
    millisatoshi, divided by 1000, rounded and divided by 10^8. *)
Theorem parseInvoiceAmount_success (invoice : string) (btc : float) :
  parseInvoiceAmount DecodeNoLimit invoice = Ok btc
  <-> exists (hrp : string) (data : list Z) (i : nat) (msat : Z),
      DecodeNoLimit invoice = Ok (hrp, data)
      /\ (3 <= String.length hrp)%nat
      /\ begins_with "ln" hrp = true
      /\ first_digit hrp = Some i
      /\ equal_fold (network_identifier hrp i) "bc" = true
      /\ decodeAmount (substring i (String.length hrp - i) hrp) = Ok msat
      /\ btc = msat_to_btc msat.
Proof.
  unfold parseInvoiceAmount. split.
  - destruct (DecodeNoLimit invoice) as [[hrp data]|err]; [|discriminate].
    destruct (len hrp <? 3) eqn:L; [discriminate|].
    rewrite slice_prefix_ln.
    destruct (begins_with "ln" hrp) eqn:P; [|discriminate].
    cbv zeta. rewrite IndexAny_first_digit.
    destruct (first_digit hrp) as [i|] eqn:F; [|discriminate].
    replace (Z.of_nat i =? -1) with false by (symmetry; apply Z.eqb_neq; lia).
    rewrite slice_network_identifier, ToLower_bc, slice_from_first_digit.
    destruct (equal_fold (network_identifier hrp i) "bc") eqn:N;
      [|discriminate].
    destruct (decodeAmount _) as [msat|e] eqn:D; [|discriminate].
    intros [= <-]. exists hrp, data, i, msat.
    apply Z.ltb_ge in L. unfold len in L.
    repeat split; try assumption; try reflexivity. lia.
  - intros (hrp & data & i & msat & Hd & Hl & Hp & Hf & Hn & Ha & ->).
    rewrite Hd.
    replace (len hrp <? 3) with false
      by (symmetry; apply Z.ltb_ge; unfold len; lia).
    rewrite slice_prefix_ln, Hp. cbv zeta.
    rewrite IndexAny_first_digit, Hf.
    replace (Z.of_nat i =? -1) with false by (symmetry; apply Z.eqb_neq; lia).
    rewrite slice_network_identifier, ToLower_bc, slice_from_first_digit, Hn, Ha.
    reflexivity.
Qed.

End InvoiceFurther.

Lemma parseInvoiceAmount_error_kinds_witness :
  error_is (wrapError "%w: invoice is not for bitcoin mainnet" ErrInvalidInvoice)
    FixedAmount = false
  /\ error_is (wrapError "%w: invoice is not for bitcoin mainnet"
                 ErrInvalidInvoice) InvalidInvoice = true.
Proof.
  destruct (parseInvoiceAmount_error_kinds bech32.DecodeNoLimit
              "lntb20m1za76md"
              (wrapError "%w: invoice is not for bitcoin mainnet"
                 ErrInvalidInvoice)
              ltac:(vm_compute; reflexivity)) as (H1 & _ & H2 & _).
  split; [exact H1 | exact H2].
Defined.

Lemma all_below_spec (n : nat) (f : Z -> bool) :
  all_below n f = true -> forall k, 0 <= k < Z.of_nat n -> f k = true.
Proof.
  induction n as [|m IH]; intros H k Hk; [lia|].
  cbn [all_below] in H. apply andb_true_iff in H. destruct H as [H0 H1].
  destruct (Z.eq_dec k (Z.of_nat m)) as [->|Hne]; [exact H0|].
  apply IH; [exact H1 | lia].
Qed.

(** X4.  Below 5000 millisatoshi the conversion to bitcoin is the division by
    10^8 of the nearest number of whole satoshi, a half being rounded up: an
    amount below 500 millisatoshi is converted to zero. *)
Theorem msat_to_btc_nearest_satoshi (msat : Z) :
  0 <= msat < 5000 ->
  PrimFloat.eqb (msat_to_btc msat)
    (float64_of_uint64 (nearest_satoshi msat) / 100000000)%float = true
  /\ (msat < 500 -> PrimFloat.eqb (msat_to_btc msat) 0%float = true).
Proof.
  intros H.
  assert (A : all_below 5000
                (fun k =>
                   PrimFloat.eqb (msat_to_btc k)
                     (float64_of_uint64 (nearest_satoshi k) / 100000000)%float)
              = true) by (vm_compute; reflexivity).
  assert (B : all_below 500 (fun k => PrimFloat.eqb (msat_to_btc k) 0%float)
              = true) by (vm_compute; reflexivity).
  split.
  - exact (all_below_spec _ _ A msat H).
  - intros Hlt. apply (all_below_spec _ _ B msat). lia.
Qed.

Lemma msat_to_btc_nearest_satoshi_witness :
  PrimFloat.eqb (msat_to_btc 499)
    (float64_of_uint64 (nearest_satoshi 499) / 100000000)%float = true
  /\ (499 < 500 -> PrimFloat.eqb (msat_to_btc 499) 0%float = true).
Proof.
  apply (msat_to_btc_nearest_satoshi 499). lia.
Defined.

(** ** Requests of the wallet *)

Section WalletFurther.

Variable DecodeNoLimit : string -> result (string * list Z).
Variable json_Marshal : any -> result string.
Variable rand_err : list event -> option error.
Variable rand_byte : list event -> nat -> ascii.
Variable NewRequest_err : string -> string -> option error.
Variable http_Do : list event -> Request -> result Response.
Variable json_Unmarshal_errorResponse : string -> result string.
Variable json_Unmarshal_Payment : string -> result Payment.
Variable reader_BalanceAndFee :
  list event -> string -> option Balance * option FeeEstimate * option error.

Local Abbreviation PostRequest' :=
  (PostRequest json_Marshal rand_err rand_byte NewRequest_err http_Do
     json_Unmarshal_errorResponse).
Local Abbreviation newPayment' :=
  (newPayment json_Marshal rand_err rand_byte NewRequest_err http_Do
     json_Unmarshal_errorResponse json_Unmarshal_Payment).
Local Abbreviation checkHTTPResponse' :=
  (checkHTTPResponse json_Unmarshal_errorResponse).

(** The nonce of a call made after the events [tr]. *)
Local Abbreviation nonce_at tr :=
  (base64_EncodeToString
     (string_of_list_ascii (map (rand_byte tr) (seq 0 16)))).

(** The request that [PostRequest] builds. *)
Local Abbreviation request_of wallet endpoint nonce bodyBytes sig :=
  (mkRequest "POST" (BaseURL ++ endpoint)
     [("User-Agent", "");
      ("Content-Type", "application/json");
      ("Api-Token", apiToken (reader wallet));
      ("Nonce", nonce);
      ("Signature", hex_EncodeToString sig)]
     bodyBytes).

(** The outcomes of [PostRequest], case by case. *)
Lemma PostRequest_cases
  (wallet : Wallet) (endpoint : string) (body : any) (tr : list event) :
  (exists e,
      json_Marshal body = Err e
      /\ PostRequest' wallet endpoint body tr = (Err e, tr))
  \/ exists bodyBytes,
      json_Marshal body = Ok bodyBytes
      /\ ((exists e,
              rand_err tr = Some e
              /\ PostRequest' wallet endpoint body tr
                 = (Err (wrapError "generating nonce: %w" e),
                    (tr ++ [RandRead 16])%list))
          \/ (rand_err tr = None
              /\ ((exists e,
                      signer wallet (tr ++ [RandRead 16])%list endpoint
                        (nonce_at tr) (apiToken (reader wallet)) bodyBytes
                      = Err e
                      /\ PostRequest' wallet endpoint body tr
                         = (Err (wrapError "Signer returned error: %w" e),
                            (tr ++ [RandRead 16;
                                    SignCall endpoint (nonce_at tr)
                                      (apiToken (reader wallet)) bodyBytes])%list))
                  \/ exists sig,
                      signer wallet (tr ++ [RandRead 16])%list endpoint
                        (nonce_at tr) (apiToken (reader wallet)) bodyBytes
                      = Ok sig
                      /\ ((exists e,
                              NewRequest_err "POST" (BaseURL ++ endpoint)
                              = Some e
                              /\ PostRequest' wallet endpoint body tr
                                 = (Err e,
                                    (tr ++ [RandRead 16;
                                            SignCall endpoint (nonce_at tr)
                                              (apiToken (reader wallet))
                                              bodyBytes])%list))
                          \/ (NewRequest_err "POST" (BaseURL ++ endpoint) = None
                              /\ PostRequest' wallet endpoint body tr
                                 = (match
                                       http_Do
                                         (tr ++ [RandRead 16;
                                                 SignCall endpoint (nonce_at tr)
                                                   (apiToken (reader wallet))
                                                   bodyBytes])%list
                                         (request_of wallet endpoint
                                            (nonce_at tr) bodyBytes sig)
                                     with
                                     | Err e =>
                                         Err (wrapError
                                                "POST %s request failed: %w" e)
                                     | Ok resp =>
                                         match checkHTTPResponse' resp with
                                         | Some e =>
                                             Err (wrapError "POST %s: %w" e)
                                         | None => RespBody resp
                                         end
                                     end,
                                    (tr ++ [RandRead 16;
                                            SignCall endpoint (nonce_at tr)
                                              (apiToken (reader wallet))
                                              bodyBytes;
                                            HTTPDo
                                              (request_of wallet endpoint
                                                 (nonce_at tr) bodyBytes
                                                 sig)])%list)))))).
Proof.
  unfold PostRequest, rand_Read.
  destruct (json_Marshal body) as [bodyBytes|e]; [right|left; eauto].
  exists bodyBytes. split; [reflexivity|].
  destruct (rand_err tr) as [e|]; [left; eauto|right].
  split; [reflexivity|]. cbv zeta.
  destruct (signer wallet (tr ++ [RandRead 16])%list endpoint (nonce_at tr)
              (apiToken (reader wallet)) bodyBytes) as [sig|e].
  - right. exists sig. split; [reflexivity|].
    destruct (NewRequest_err "POST" (BaseURL ++ endpoint)) as [e|].
    + left. exists e. split; [reflexivity|].
      rewrite <- !app_assoc. reflexivity.
    + right. split; [reflexivity|].
      change (Header_Set
                (Header_Set
                   (Header_Set
                      (Header_Set (Header_Set [] "User-Agent" "")
                         "Content-Type" "application/json")
                      "Api-Token" (apiToken (reader wallet)))
                   "Nonce" (nonce_at tr))
                "Signature" (hex_EncodeToString sig))
        with [("User-Agent", "");
              ("Content-Type", "application/json");
              ("Api-Token", apiToken (reader wallet));
              ("Nonce", nonce_at tr);
              ("Signature", hex_EncodeToString sig)].
      rewrite <- !app_assoc. cbn [app].
      destruct (http_Do _ _) as [resp|e];
        [destruct (checkHTTPResponse' resp)|]; reflexivity.
  - left. exists e. split; [reflexivity|].
    rewrite <- !app_assoc. reflexivity.
Qed.

(** The events of a call of [PostRequest] and the request among them. *)
Lemma PostRequest_events
  (wallet : Wallet) (endpoint : string) (body : any) (tr : list event) :
  exists evs : list event,
    snd (PostRequest' wallet endpoint body tr) = (tr ++ evs)%list
    /\ forall req,
        In (HTTPDo req) evs ->
        exists bodyBytes sig,
          json_Marshal body = Ok bodyBytes
          /\ evs = [RandRead 16;
                    SignCall endpoint (nonce_at tr) (apiToken (reader wallet))
                      bodyBytes;
                    HTTPDo req]
          /\ signer wallet (tr ++ [RandRead 16])%list endpoint (nonce_at tr)
               (apiToken (reader wallet)) bodyBytes = Ok sig
          /\ req = {| Method := "POST";
                      URL := BaseURL ++ endpoint;
                      Header :=
                        [("User-Agent", "");
                         ("Content-Type", "application/json");
                         ("Api-Token", apiToken (reader wallet));
                         ("Nonce", nonce_at tr);
                         ("Signature", hex_EncodeToString sig)];
                      Body := bodyBytes |}.
Proof.
  destruct (PostRequest_cases wallet endpoint body tr)
    as [(e & _ & ->)
       |(bodyBytes & Hm &
         [(e & _ & ->)
         |(_ & [(e & _ & ->)
               |(sig & Hs & [(e & _ & ->)|(_ & ->)])])])]; cbn [snd].
  - exists []. split; [now rewrite List.app_nil_r|]. intros req [].
  - eexists. split; [reflexivity|]. intros req [H|[]]. discriminate H.
  - eexists. split; [reflexivity|].
    intros req [H|[H|[]]]; discriminate H.
  - eexists. split; [reflexivity|].
    intros req [H|[H|[]]]; discriminate H.
  - eexists. split; [reflexivity|].
    intros req [H|[H|[H|[]]]]; try discriminate H.
    assert (H' := f_equal (fun e => match e with HTTPDo r => r | _ => req end)
                   H).
    cbv beta iota in H'. subst req. exists bodyBytes, sig.
    split; [exact Hm|]. split; [reflexivity|]. split; [exact Hs|reflexivity].
Qed.

(** X5.  Whatever [PostRequest] sends has been signed: a call sends at most
    one request, after one read of the random source and one call of the
    signer; the request is a POST to [BaseURL ++ endpoint] whose body is the
    marshalled body, whose [Api-Token] and [Nonce] headers are the token and
    the nonce that the signer was given together with the endpoint and that
    body, and whose [Signature] header is the hexadecimal encoding of what
    the signer answered. *)
Theorem PostRequest_sends_what_is_signed
  (wallet : Wallet) (endpoint : string) (body : any) (tr : list event) :
  exists evs : list event,
    snd (PostRequest' wallet endpoint body tr) = (tr ++ evs)%list
    /\ forall req,
        In (HTTPDo req) evs ->
        exists bodyBytes sig,
          json_Marshal body = Ok bodyBytes
          /\ evs = [RandRead 16;
                    SignCall endpoint (nonce_at tr) (apiToken (reader wallet))
                      bodyBytes;
                    HTTPDo req]
          /\ signer wallet (tr ++ [RandRead 16])%list endpoint (nonce_at tr)
               (apiToken (reader wallet)) bodyBytes = Ok sig
          /\ req = {| Method := "POST";
                      URL := BaseURL ++ endpoint;
                      Header :=
                        [("User-Agent", "");
                         ("Content-Type", "application/json");
                         ("Api-Token", apiToken (reader wallet));
                         ("Nonce", nonce_at tr);
                         ("Signature", hex_EncodeToString sig)];
                      Body := bodyBytes |}.
Proof.
  exact (PostRequest_events wallet endpoint body tr).
Qed.

(** X6.  A refusal of the signer is returned to the caller of a payment
    method with its kind intact, and nothing is sent: when the signer answers
    the error [e], [newPayment] returns an error that wraps [e] twice (once
    by [PostRequest], once with the name of the method), [errors.Is] holds of
    it exactly as of [e], and the only events of the call are the read of the
    random source and the call of the signer. *)
Theorem newPayment_signer_refuses
  (wallet : Wallet) (method : string) (req : sendPaymentRequest)
  (tr : list event) (bodyBytes : string) (e : error) :
  json_Marshal (any_sendPaymentRequest req) = Ok bodyBytes ->
  rand_err tr = None ->
  signer wallet (tr ++ [RandRead 16])%list "/api/v1/wallet/payment"
    (nonce_at tr) (apiToken (reader wallet)) bodyBytes = Err e ->
  newPayment' wallet method req tr
  = (Err (wrapError (method ++ ": %w")
            (wrapError "Signer returned error: %w" e)),
     (tr ++ [RandRead 16;
             SignCall "/api/v1/wallet/payment" (nonce_at tr)
               (apiToken (reader wallet)) bodyBytes])%list)
  /\ forall t,
      error_is (wrapError (method ++ ": %w")
                  (wrapError "Signer returned error: %w" e)) t
      = error_is e t.
Proof.
  intros Hm Hr Hs. split; [|reflexivity].
  unfold newPayment.
  destruct (PostRequest_cases wallet "/api/v1/wallet/payment"
              (any_sendPaymentRequest req) tr)
    as [(e' & Hm' & _)
       |(bodyBytes' & Hm' &
         [(e' & Hr' & _)
         |(_ & [(e' & Hs' & ->)|(sig & Hs' & _)])])];
    try congruence.
  assert (bodyBytes' = bodyBytes) as -> by congruence.
  assert (e' = e) as -> by congruence. reflexivity.
Qed.

(** X7.  [PostRequest] returns data only from a response with status 200:
    when it returns [data] without error, it has sent one request, the
    transport has answered it with a response of status 200, and [data] is
    the body of that response. *)
Theorem PostRequest_ok_only_on_200
  (wallet : Wallet) (endpoint : string) (body : any) (tr tr' : list event)
  (data : string) :
  PostRequest' wallet endpoint body tr = (Ok data, tr') ->
  exists sent req resp,
    tr' = (sent ++ [HTTPDo req])%list
    /\ http_Do sent req = Ok resp
    /\ StatusCode resp = 200
    /\ RespBody resp = Ok data.
Proof.
  intros H.
  destruct (PostRequest_cases wallet endpoint body tr)
    as [(e & _ & E)
       |(bodyBytes & Hm &
         [(e & _ & E)
         |(_ & [(e & _ & E)
               |(sig & Hs & [(e & _ & E)|(_ & E)])])])];
    rewrite E in H; try discriminate H.
  match type of H with
  | (match http_Do ?t ?r with _ => _ end, _) = _ =>
      exists t, r; destruct (http_Do t r) as [resp|e] eqn:D;
      [|discriminate H]
  end.
  exists resp.
  destruct (checkHTTPResponse' resp) as [e|] eqn:C; [discriminate H|].
  assert (Hb := f_equal fst H). assert (Ht := f_equal snd H).
  cbn [fst snd] in Hb, Ht. subst tr'.
  split; [|split; [reflexivity|split; [|exact Hb]]].
  - change (?a ++ [?x; ?y; ?z])%list with (a ++ [x; y] ++ [z])%list.
    now rewrite app_assoc.
  - unfold checkHTTPResponse in C.
    destruct (StatusCode resp =? 200) eqn:S; [now apply Z.eqb_eq|].
    destruct (RespBody resp); [|discriminate C].
    destruct (json_Unmarshal_errorResponse a); [|discriminate C].
    destruct (negb (String.eqb a0 "")); discriminate C.
Qed.

(** X8.  [checkHTTPResponse] returns no error exactly for the status 200;
    every error it returns wraps the error of the status, together with the
    error of the read when the body of the response cannot be read. *)
Theorem checkHTTPResponse_status (resp : Response) :
  (checkHTTPResponse' resp = None <-> StatusCode resp = 200)
  /\ forall e,
      checkHTTPResponse' resp = Some e ->
      match RespBody resp with
      | Ok _ => e = wrapError "%w: %s" (errorString "received status %d")
      | Err readErr =>
          e = wrapErrors "%w: (failed to read body: %w)"
                (errorString "received status %d") readErr
      end.
Proof.
  unfold checkHTTPResponse. split.
  - destruct (StatusCode resp =? 200) eqn:S.
    + apply Z.eqb_eq in S. tauto.
    + apply Z.eqb_neq in S. split; [|tauto].
      destruct (RespBody resp) as [raw|readErr]; [|discriminate].
      destruct (json_Unmarshal_errorResponse raw) as [m|d]; [|discriminate].
      destruct (negb (String.eqb m "")); discriminate.
  - intros e. destruct (StatusCode resp =? 200); [discriminate|].
    destruct (RespBody resp) as [raw|readErr]; [|intros [= <-]; reflexivity].
    destruct (json_Unmarshal_errorResponse raw) as [m|d];
      [destruct (negb (String.eqb m ""))|]; intros [= <-]; reflexivity.
Qed.

(** ** Payments *)

Local Abbreviation PayInvoice' :=
  (PayInvoice DecodeNoLimit json_Marshal rand_err rand_byte NewRequest_err
     http_Do json_Unmarshal_errorResponse json_Unmarshal_Payment).
Local Abbreviation PayVariableInvoice' :=
  (PayVariableInvoice DecodeNoLimit json_Marshal rand_err rand_byte
     NewRequest_err http_Do json_Unmarshal_errorResponse
     json_Unmarshal_Payment).
Local Abbreviation SweepLightning' :=
  (SweepLightning DecodeNoLimit json_Marshal rand_err rand_byte
     NewRequest_err http_Do json_Unmarshal_errorResponse
     json_Unmarshal_Payment reader_BalanceAndFee).
Local Abbreviation SweepOnChain' :=
  (SweepOnChain json_Marshal rand_err rand_byte NewRequest_err http_Do
     json_Unmarshal_errorResponse json_Unmarshal_Payment reader_BalanceAndFee).

(** [sends evs req]: every request among the events [evs] is a POST to the
    payment endpoint whose body is the marshalled payment request [req]. *)
Local Abbreviation sends evs req :=
  (forall r : Request,
      In (HTTPDo r) evs ->
      Method r = "POST"
      /\ URL r = BaseURL ++ "/api/v1/wallet/payment"
      /\ json_Marshal (any_sendPaymentRequest req) = Ok (Body r)).

Lemma newPayment_events
  (wallet : Wallet) (method : string) (req : sendPaymentRequest)
  (tr : list event) :
  exists evs : list event,
    snd (newPayment' wallet method req tr) = (tr ++ evs)%list
    /\ sends evs req.
Proof.
  clear DecodeNoLimit reader_BalanceAndFee.
  destruct (PostRequest_events wallet "/api/v1/wallet/payment"
              (any_sendPaymentRequest req) tr) as (evs & Hevs & Hreq).
  exists evs. split.
  - unfold newPayment.
    destruct (PostRequest' wallet "/api/v1/wallet/payment"
                (any_sendPaymentRequest req) tr) as [[data|e] tr'];
      cbn [snd] in *; [destruct (json_Unmarshal_Payment data)|];
      exact Hevs.
  - intros r Hr. destruct (Hreq r Hr) as (bodyBytes & sig & Hm & _ & _ & ->).
    cbn [Method URL Body]. auto.
Qed.

(** X9.  [PayInvoice] pays the amount of the invoice or nothing: if the
    invoice does not parse, it returns the error of the parse, wrapped, with
    its kind intact ([ErrNoAmount] for an invoice without amount,
    [ErrInvalidInvoice] otherwise) and exchanges nothing with the outside;
    and every request it sends is a lightning payment to the invoice for the
    amount that [parseInvoiceAmount] read in it. *)
Theorem PayInvoice_pays_invoice_amount
  (wallet : Wallet) (invoice description : string) (tr : list event) :
  exists evs : list event,
    snd (PayInvoice' wallet invoice description tr) = (tr ++ evs)%list
    /\ (forall e,
           parseInvoiceAmount DecodeNoLimit invoice = Err e ->
           PayInvoice' wallet invoice description tr
           = (Err (wrapError "PayInvoice: %w" e), tr)
           /\ evs = []
           /\ forall t, error_is (wrapError "PayInvoice: %w" e) t = error_is e t)
    /\ forall r,
        In (HTTPDo r) evs ->
        exists amount,
          parseInvoiceAmount DecodeNoLimit invoice = Ok amount
          /\ Method r = "POST"
          /\ URL r = BaseURL ++ "/api/v1/wallet/payment"
          /\ json_Marshal
               (any_sendPaymentRequest
                  {| Address := invoice;
                     Currency := "LIGHTNING";
                     Description := description;
                     Amount := amount;
                     MaxLightning := false;
                     MaxBitcoin := false |})
             = Ok (Body r).
Proof.
  clear reader_BalanceAndFee.
  unfold PayInvoice.
  destruct (parseInvoiceAmount DecodeNoLimit invoice) as [amount|e].
  - match goal with
    | |- context [newPayment' ?w ?m ?rq ?t] =>
        destruct (newPayment_events w m rq t) as (evs & Hevs & Hs)
    end.
    exists evs. split; [exact Hevs|]. split; [discriminate|].
    intros r Hr. exists amount. destruct (Hs r Hr) as (H1 & H2 & H3). auto.
  - exists []. cbn [snd]. split; [now rewrite List.app_nil_r|].
    split; [|intros r []].
    intros e' [= <-]. repeat split.
Qed.

(** X10.  [PayVariableInvoice] pays the caller's amount to an invoice without
    amount, and nothing else: on an invoice whose parse fails with an error
    other than [ErrNoAmount] it returns that error, wrapped, which matches
    [ErrInvalidInvoice], and exchanges nothing; and every request it sends is
    a lightning payment of the caller's amount to an invoice on which
    [parseInvoiceAmount] returns [ErrNoAmount]. *)
Theorem PayVariableInvoice_pays_given_amount
  (wallet : Wallet) (invoice description : string) (amount : float)
  (tr : list event) :
  exists evs : list event,
    snd (PayVariableInvoice' wallet invoice description amount tr)
    = (tr ++ evs)%list
    /\ (forall e,
           parseInvoiceAmount DecodeNoLimit invoice = Err e ->
           e <> ErrNoAmount ->
           PayVariableInvoice' wallet invoice description amount tr
           = (Err (wrapError "PayVariableInvoice: %w" e), tr)
           /\ evs = []
           /\ error_is (wrapError "PayVariableInvoice: %w" e) InvalidInvoice
              = true)
    /\ forall r,
        In (HTTPDo r) evs ->
        parseInvoiceAmount DecodeNoLimit invoice = Err ErrNoAmount
        /\ Method r = "POST"
        /\ URL r = BaseURL ++ "/api/v1/wallet/payment"
        /\ json_Marshal
             (any_sendPaymentRequest
                {| Address := invoice;
                   Currency := "LIGHTNING";
                   Description := description;
                   Amount := amount;
                   MaxLightning := false;
                   MaxBitcoin := false |})
           = Ok (Body r).
Proof.
  clear reader_BalanceAndFee.
  unfold PayVariableInvoice.
  destruct (parseInvoiceAmount DecodeNoLimit invoice) as [btc|e] eqn:P.
  - exists []. cbn [snd err_of is_nil negb andb].
    split; [now rewrite List.app_nil_r|].
    split; [discriminate | intros r []].
  - cbn [err_of is_nil negb andb errors_Is].
    destruct (parseInvoiceAmount_errors DecodeNoLimit invoice e P)
      as [->|[->|[f ->]]]; cbn [error_is sentinel_eqb negb ErrNoAmount
                                  ErrInvalidInvoice].
    + match goal with
      | |- context [newPayment' ?w ?m ?rq ?t] =>
          destruct (newPayment_events w m rq t) as (evs & Hevs & Hs)
      end.
      exists evs. split; [exact Hevs|].
      split; [intros e [= <-] H; now contradiction H|].
      intros r Hr. destruct (Hs r Hr) as (H1 & H2 & H3). auto.
    + exists []. cbn [snd]. split; [now rewrite List.app_nil_r|].
      split; [|intros r []]. intros e [= <-] _. repeat split.
    + exists []. cbn [snd]. split; [now rewrite List.app_nil_r|].
      split; [|intros r []]. intros e [= <-] _. repeat split.
Qed.

(** ** Sweeps *)

(** X11.  [SweepLightning] sweeps the balance that it has just fetched: every
    request it sends is a lightning payment to the invoice, marked
    [sendMaxLightning], for the confirmed balance less the maximal lightning
    fee of the fetch made for that invoice, and it is sent only for an invoice
    without amount.  When the fetch fails, its error is returned, wrapped,
    with its kind intact, and nothing is sent.  The call panics exactly when
    the fetch returns a nil balance or nil fees with a nil error. *)
Theorem SweepLightning_sweeps_fetched_balance
  (wallet : Wallet) (invoice description : string) (tr : list event) :
  let swept := SweepLightning' wallet invoice description tr in
  let fetched := reader_BalanceAndFee tr invoice in
  let no_amount :=
    errors_Is (err_of (parseInvoiceAmount DecodeNoLimit invoice)) NoAmount in
  exists evs : list event,
    snd swept = (tr ++ evs)%list
    /\ (forall b f e,
           no_amount = true ->
           fetched = (b, f, Some e) ->
           swept
           = (Returned (Err (wrapError "SweepLightning: %w" e)),
              (tr ++ [FetchBalanceAndFee invoice])%list)
           /\ forall t,
               error_is (wrapError "SweepLightning: %w" e) t = error_is e t)
    /\ (fst swept = Panicked
        <-> no_amount = true
            /\ exists b f, fetched = (b, f, None) /\ (b = None \/ f = None))
    /\ forall r,
        In (HTTPDo r) evs ->
        exists balance fees,
          no_amount = true
          /\ fetched = (Some balance, Some fees, None)
          /\ Method r = "POST"
          /\ URL r = BaseURL ++ "/api/v1/wallet/payment"
          /\ json_Marshal
               (any_sendPaymentRequest
                  {| Address := invoice;
                     Currency := "LIGHTNING";
                     Description := description;
                     Amount := (Confirmed balance - MaxLightningFee fees)%float;
                     MaxLightning := true;
                     MaxBitcoin := false |})
             = Ok (Body r).
Proof.
  cbv zeta. unfold SweepLightning, BalanceAndFee.
  destruct (errors_Is (err_of (parseInvoiceAmount DecodeNoLimit invoice))
              NoAmount); cbn [negb].
  2:{ exists []. cbn [fst snd]. split; [now rewrite List.app_nil_r|].
      split; [discriminate|].
      split; [|intros r []].
      split; [discriminate | intros [E _]; discriminate E]. }
  destruct (reader_BalanceAndFee tr invoice) as [[b0 f0] e0] eqn:F.
  assert (Done :
    forall o : outcome Payment,
      (forall e, e0 = Some e ->
                 o = Returned (Err (wrapError "SweepLightning: %w" e))) ->
      (o = Panicked <-> e0 = None /\ (b0 = None \/ f0 = None)) ->
      exists evs : list event,
        snd (o, (tr ++ [FetchBalanceAndFee invoice])%list) = (tr ++ evs)%list
        /\ (forall b f e,
               true = true ->
               (b0, f0, e0) = (b, f, Some e) ->
               (o, (tr ++ [FetchBalanceAndFee invoice])%list)
               = (Returned (Err (wrapError "SweepLightning: %w" e)),
                  (tr ++ [FetchBalanceAndFee invoice])%list)
               /\ forall t,
                   error_is (wrapError "SweepLightning: %w" e) t
                   = error_is e t)
        /\ (fst (o, (tr ++ [FetchBalanceAndFee invoice])%list) = Panicked
            <-> true = true
                /\ exists b f,
                    (b0, f0, e0) = (b, f, None) /\ (b = None \/ f = None))
        /\ forall r,
            In (HTTPDo r) evs ->
            exists balance fees,
              true = true
              /\ (b0, f0, e0) = (Some balance, Some fees, None)
              /\ Method r = "POST"
              /\ URL r = BaseURL ++ "/api/v1/wallet/payment"
              /\ json_Marshal
                   (any_sendPaymentRequest
                      {| Address := invoice;
                         Currency := "LIGHTNING";
                         Description := description;
                         Amount :=
                           (Confirmed balance - MaxLightningFee fees)%float;
                         MaxLightning := true;
                         MaxBitcoin := false |})
                 = Ok (Body r)).
  { intros o He Hp. exists [FetchBalanceAndFee invoice]. cbn [fst snd].
    split; [reflexivity|]. split.
    { intros b f e _ [= -> -> ->]. rewrite (He e eq_refl).
      split; reflexivity. }
    split; [|intros r [E|[]]; discriminate E].
    rewrite Hp. split.
    - intros [-> Hn]. eauto.
    - intros (_ & b & f & [= -> -> ->] & Hn). auto. }
  destruct e0 as [e|].
  { destruct b0, f0; apply Done;
      try (intros e' [= <-]; reflexivity);
      (split; [discriminate | intros [E _]; discriminate E]). }
  destruct b0 as [b|]; [destruct f0 as [f|]|].
  2,3: try destruct f0; apply Done; try discriminate;
       (split; [auto | reflexivity]).
  clear Done.
  match goal with
  | |- context [newPayment' ?w ?m ?rq ?t] =>
      destruct (newPayment_events w m rq t) as (evs & Hevs & Hs);
      destruct (newPayment' w m rq t) as [res tr2]
  end.
  cbn [snd fst] in *. subst tr2.
  exists (FetchBalanceAndFee invoice :: evs). split.
  { rewrite <- app_assoc. reflexivity. }
  split; [intros b' f' e' _ E; discriminate E|].
  split.
  { split; [discriminate|].
    intros (_ & b' & f' & [= <- <-] & [E|E]); discriminate E. }
  intros r [E|Hr]; [discriminate E|].
  exists b, f. destruct (Hs r Hr) as (H1 & H2 & H3). auto.
Qed.

(** X12.  [SweepOnChain] starts with a fetch of the balance and the fees for
    the address.  When the fetch fails, its error is returned, wrapped, with
    its kind intact; the call panics exactly when the fetch returns a nil
    balance or nil fees with a nil error.  Every request it sends is an
    on-chain payment to the address, marked [sendMaxBtc], for the confirmed
    balance less the fixed fee and the commission of that fetch, an amount
    on which the test [amount <= 0] has failed: the unconfirmed balance is
    never counted. *)
Theorem SweepOnChain_sweeps_fetched_balance
  (wallet : Wallet) (address description : string) (tr : list event) :
  let swept := SweepOnChain' wallet address description tr in
  let fetched := reader_BalanceAndFee tr address in
  exists evs : list event,
    snd swept = (tr ++ FetchBalanceAndFee address :: evs)%list
    /\ (forall b f e,
           fetched = (b, f, Some e) ->
           swept
           = (Returned (Err (wrapError "SweepOnChain: %w" e)),
              (tr ++ [FetchBalanceAndFee address])%list)
           /\ forall t,
               error_is (wrapError "SweepOnChain: %w" e) t = error_is e t)
    /\ (fst swept = Panicked
        <-> exists b f, fetched = (b, f, None) /\ (b = None \/ f = None))
    /\ forall r,
        In (HTTPDo r) evs ->
        exists balance fees,
          fetched = (Some balance, Some fees, None)
          /\ let amount :=
               (Confirmed balance - BtcFixedFee fees
                - BtcSendCommissionPercent fees * Confirmed balance)%float in
             (Confirmed balance - BtcFixedFee fees <? 0)%float = false
             /\ (amount <=? 0)%float = false
             /\ Method r = "POST"
             /\ URL r = BaseURL ++ "/api/v1/wallet/payment"
             /\ json_Marshal
                  (any_sendPaymentRequest
                     {| Address := address;
                        Currency := "BTC";
                        Description := description;
                        Amount := amount;
                        MaxLightning := false;
                        MaxBitcoin := true |})
                = Ok (Body r).
Proof.
  clear DecodeNoLimit.
  cbv zeta. unfold SweepOnChain, BalanceAndFee.
  destruct (reader_BalanceAndFee tr address) as [[b0 f0] e0] eqn:F.
  assert (Done :
    forall o : outcome Payment,
      (forall e, e0 = Some e ->
                 o = Returned (Err (wrapError "SweepOnChain: %w" e))) ->
      (o = Panicked <-> e0 = None /\ (b0 = None \/ f0 = None)) ->
      exists evs : list event,
        snd (o, (tr ++ [FetchBalanceAndFee address])%list)
        = (tr ++ FetchBalanceAndFee address :: evs)%list
        /\ (forall b f e,
               (b0, f0, e0) = (b, f, Some e) ->
               (o, (tr ++ [FetchBalanceAndFee address])%list)
               = (Returned (Err (wrapError "SweepOnChain: %w" e)),
                  (tr ++ [FetchBalanceAndFee address])%list)
               /\ forall t,
                   error_is (wrapError "SweepOnChain: %w" e) t = error_is e t)
        /\ (fst (o, (tr ++ [FetchBalanceAndFee address])%list) = Panicked
            <-> exists b f,
                (b0, f0, e0) = (b, f, None) /\ (b = None \/ f = None))
        /\ forall r,
            In (HTTPDo r) evs ->
            exists balance fees,
              (b0, f0, e0) = (Some balance, Some fees, None)
              /\ (Confirmed balance - BtcFixedFee fees <? 0)%float = false
              /\ (Confirmed balance - BtcFixedFee fees
                  - BtcSendCommissionPercent fees * Confirmed balance <=? 0)%float
                 = false
              /\ Method r = "POST"
              /\ URL r = BaseURL ++ "/api/v1/wallet/payment"
              /\ json_Marshal
                   (any_sendPaymentRequest
                      {| Address := address;
                         Currency := "BTC";
                         Description := description;
                         Amount :=
                           (Confirmed balance - BtcFixedFee fees
                            - BtcSendCommissionPercent fees
                              * Confirmed balance)%float;
                         MaxLightning := false;
                         MaxBitcoin := true |})
                 = Ok (Body r)).
  { intros o He Hp. exists []. cbn [fst snd].
    split; [reflexivity|]. split.
    { intros b f e [= -> -> ->]. rewrite (He e eq_refl).
      split; reflexivity. }
    split; [|intros r []].
    rewrite Hp. split.
    - intros [-> Hn]. eauto.
    - intros (b & f & [= -> -> ->] & Hn). auto. }
  destruct e0 as [e|].
  { destruct b0, f0; apply Done;
      try (intros e' [= <-]; reflexivity);
      (split; [discriminate | intros [E _]; discriminate E]). }
  destruct b0 as [b|]; [destruct f0 as [f|]|].
  2,3: try destruct f0; apply Done; try discriminate;
       (split; [auto | reflexivity]).
  destruct (Confirmed b - BtcFixedFee f <? 0)%float eqn:A.
  { apply Done; [discriminate|].
    split; [discriminate | intros [_ [E|E]]; discriminate E]. }
  destruct (Confirmed b - BtcFixedFee f
            - BtcSendCommissionPercent f * Confirmed b <=? 0)%float eqn:B.
  { apply Done; [discriminate|].
    split; [discriminate | intros [_ [E|E]]; discriminate E]. }
  clear Done.
  match goal with
  | |- context [newPayment' ?w ?m ?rq ?t] =>
      destruct (newPayment_events w m rq t) as (evs & Hevs & Hs);
      destruct (newPayment' w m rq t) as [res tr2]
  end.
  cbn [snd fst] in *. subst tr2. exists evs. split.
  { rewrite <- app_assoc. reflexivity. }
  split; [intros b' f' e' E; discriminate E|].
  split.
  { split; [discriminate|].
    intros (b' & f' & [= <- <-] & [E|E]); discriminate E. }
  intros r Hr. exists b, f. destruct (Hs r Hr) as (H1 & H2 & H3). auto.
Qed.

End WalletFurther.

(** ** Sample runs of the wallet *)

Lemma newPayment_signer_refuses_witness :
  newPayment Sample.json_Marshal Sample.rand_err Sample.rand_byte
    Sample.NewRequest_err Sample.http_Do Sample.json_Unmarshal_errorResponse
    Sample.json_Unmarshal_Payment guarded_wallet "PayOnChain" sample_payment []
  = (Err (wrapError "PayOnChain: %w"
            (wrapError "Signer returned error: %w"
               (Foreign "amount over the limit"))),
     [RandRead 16;
      SignCall "/api/v1/wallet/payment" "AQQHCg0QExYZHB8iJSgrLg=="
        "edcc867c-96ff-4b0d-ba68-165c16071de0" "{address:bc1q,currency:BTC}"]).
Proof.
  exact (proj1 (newPayment_signer_refuses Sample.json_Marshal Sample.rand_err
                  Sample.rand_byte Sample.NewRequest_err Sample.http_Do
                  Sample.json_Unmarshal_errorResponse
                  Sample.json_Unmarshal_Payment guarded_wallet "PayOnChain"
                  sample_payment [] "{address:bc1q,currency:BTC}"
                  (Foreign "amount over the limit")
                  eq_refl eq_refl eq_refl)).
Defined.

Lemma PostRequest_ok_only_on_200_witness :
  exists sent req resp,
    [RandRead 16;
     SignCall "/api/v1/wallet/payment" "AQQHCg0QExYZHB8iJSgrLg=="
       "edcc867c-96ff-4b0d-ba68-165c16071de0" "{}";
     HTTPDo
       {| Method := "POST";
          URL := "https://www.livingroomofsatoshi.com/api/v1/wallet/payment";
          Header :=
            [("User-Agent", ""); ("Content-Type", "application/json");
             ("Api-Token", "edcc867c-96ff-4b0d-ba68-165c16071de0");
             ("Nonce", "AQQHCg0QExYZHB8iJSgrLg==");
             ("Signature", "7369676e6174757265")];
          Body := "{}" |}]
    = (sent ++ [HTTPDo req])%list
    /\ Sample.http_Do sent req = Ok resp
    /\ StatusCode resp = 200
    /\ RespBody resp = Ok "{}".
Proof.
  exact (PostRequest_ok_only_on_200 Sample.json_Marshal Sample.rand_err
           Sample.rand_byte Sample.NewRequest_err Sample.http_Do
           Sample.json_Unmarshal_errorResponse Sample.wallet
           "/api/v1/wallet/payment" (any_other "{}") [] _ "{}" eq_refl).
Defined.
(** ** The interleavings of [BalanceAndFee], with or without cancellation *)

Lemma fetch_result_after_fetch (A : Type) (r : result A) :
  fetch_result (after_fetch r) = Some r.
Proof. destruct r; reflexivity. Qed.

Lemma step_fetch_result (st st' : state) (l : label) :
  step st l = Some st' ->
  (forall r, fetch_result (balance_goroutine st') = Some r ->
             fetch_result (balance_goroutine st) = Some r
             \/ l = BalanceReturns r)
  /\ (forall r, fetch_result (fee_goroutine st') = Some r ->
                fetch_result (fee_goroutine st) = Some r
                \/ l = FeeEstimateReturns r).
Proof.
  destruct st as [gb gf c p]. intros Hs.
  destruct l; cbn [step ctx_Done] in Hs;
    cbn [parent_cancelled caller_at balance_goroutine fee_goroutine] in Hs;
    try (destruct gb; try discriminate Hs);
    try (destruct gf; try discriminate Hs);
    try (destruct c; try discriminate Hs);
    inv_step Hs;
    cbn [balance_goroutine fee_goroutine fetch_result];
    try rewrite fetch_result_after_fetch;
    (split; intros ? H; auto; injection H as <-; auto).
Qed.

Lemma run_fetch_result (ls : list label) :
  forall st st',
    run st ls = Some st' ->
    (forall r, fetch_result (balance_goroutine st') = Some r ->
               fetch_result (balance_goroutine st) = Some r
               \/ In (BalanceReturns r) ls)
    /\ (forall r, fetch_result (fee_goroutine st') = Some r ->
                  fetch_result (fee_goroutine st) = Some r
                  \/ In (FeeEstimateReturns r) ls).
Proof.
  induction ls as [|l ls IH]; intros st st' Hrun; cbn [run] in Hrun.
  - injection Hrun as <-. split; auto.
  - destruct (step st l) as [st1|] eqn:Hs; [|discriminate Hrun].
    destruct (IH st1 st' Hrun) as [Hb Hf].
    destruct (step_fetch_result st st1 l Hs) as [Sb Sf].
    split; intros r H.
    + destruct (Hb r H) as [H1|H1]; [|right; right; exact H1].
      destruct (Sb r H1) as [H2| ->]; [left; exact H2 | right; left; reflexivity].
    + destruct (Hf r H) as [H1|H1]; [|right; right; exact H1].
      destruct (Sf r H1) as [H2| ->]; [left; exact H2 | right; left; reflexivity].
Qed.

Lemma step_holds_fetched (st st' : state) (l : label) :
  holds_fetched st -> step st l = Some st' -> holds_fetched st'.
Proof.
  destruct st as [gb gf c p]. unfold holds_fetched.
  cbn [caller_at balance_goroutine fee_goroutine].
  intros (Hb & Hf & He) Hs.
  destruct l; cbn [step ctx_Done] in Hs;
    cbn [parent_cancelled caller_at balance_goroutine fee_goroutine] in Hs;
    try (destruct gb; try discriminate Hs);
    try (destruct gf; try discriminate Hs);
    try (destruct c; try discriminate Hs);
    inv_step Hs;
    cbn [caller_at balance_goroutine fee_goroutine caller_balance caller_fees
         caller_err fetch_result] in *.
  all: try (unfold next_iteration; destruct (_ <? 2));
    cbn [caller_balance caller_fees caller_err].
  all: repeat split; intros x Hx;
    try discriminate Hx;
    try (specialize (Hb _ Hx); discriminate Hb);
    try (specialize (Hf _ Hx); discriminate Hf);
    try (destruct (He _ Hx) as [E|E]; first [discriminate E | now auto]);
    try match type of Hx with
        | fetched ?r = Some _ =>
            destruct r; cbn [fetched] in Hx;
            [injection Hx as <-; reflexivity | discriminate Hx]
        end;
    try (injection Hx as <-); auto.
Qed.

Lemma holds_fetched_start : holds_fetched BalanceAndFee_start.
Proof. repeat split; intros x Hx; discriminate Hx. Qed.

Lemma run_holds_fetched (ls : list label) :
  forall st st',
    holds_fetched st -> run st ls = Some st' -> holds_fetched st'.
Proof.
  induction ls as [|l ls IH]; intros st st' Hst Hrun; cbn [run] in Hrun.
  - injection Hrun as <-. exact Hst.
  - destruct (step st l) as [st1|] eqn:Hs; [|discriminate Hrun].
    exact (IH st1 st' (step_holds_fetched st st1 l Hst Hs) Hrun).
Qed.

Lemma run_remaining_steps (ls : list label) :
  forall st st',
    run st ls = Some st' ->
    (List.length (filter own_step ls) + remaining_steps st'
     <= remaining_steps st)%nat.
Proof.
  induction ls as [|l ls IH]; intros st st' Hrun; cbn [run] in Hrun.
  - injection Hrun as <-. cbn [filter List.length]. lia.
  - destruct (step st l) as [st1|] eqn:Hs; [|discriminate Hrun].
    specialize (IH st1 st' Hrun). cbn [filter].
    destruct (own_step l) eqn:Hl.
    + pose proof (own_step_decreases st st1 l Hl Hs). cbn [List.length]. lia.
    + destruct l; try discriminate Hl. cbn [step] in Hs.
      injection Hs as <-. exact IH.
Qed.

Lemma filter_own_steps (ls : list label) :
  forallb own_step ls = true -> filter own_step ls = ls.
Proof.
  induction ls as [|l ls IH]; [reflexivity|]. cbn [forallb filter].
  intros H. apply andb_true_iff in H. destruct H as [-> H].
  now rewrite (IH H).
Qed.

Lemma step_caller_returned (st st' : state) (l : label)
  (balance : option Balance) (fees : option FeeEstimate)
  (err : option error) :
  caller_at st = HasReturned balance fees err -> step st l = Some st' ->
  caller_at st' = HasReturned balance fees err.
Proof.
  destruct st as [gb gf c p]. cbn [caller_at]. intros -> Hs.
  destruct l; cbn [step ctx_Done] in Hs;
    cbn [parent_cancelled caller_at balance_goroutine fee_goroutine] in Hs;
    try (destruct gb; try discriminate Hs);
    try (destruct gf; try discriminate Hs);
    inv_step Hs; reflexivity.
Qed.

Lemma run_caller_returned (ls : list label)
  (balance : option Balance) (fees : option FeeEstimate)
  (err : option error) :
  forall st st',
    caller_at st = HasReturned balance fees err -> run st ls = Some st' ->
    caller_at st' = HasReturned balance fees err.
Proof.
  induction ls as [|l ls IH]; intros st st' Hc Hrun; cbn [run] in Hrun.
  - injection Hrun as <-. exact Hc.
  - destruct (step st l) as [st1|] eqn:Hs; [|discriminate Hrun].
    exact (IH st1 st' (step_caller_returned st st1 l _ _ _ Hc Hs) Hrun).
Qed.

(** X13.  Whatever the interleaving, and whether or not the caller's context
    is cancelled, [BalanceAndFee] returns only what was fetched: a balance or
    fees it returns are those that the fetch returned without error, and an
    error it returns is the error of one of the two fetches.  When the
    caller's context is not cancelled, a nil error comes with a balance and
    fees that are both there. *)
Theorem BalanceAndFee_returns_what_was_fetched
  (ls : list label) (st : state)
  (balance : option Balance) (fees : option FeeEstimate)
  (err : option error) :
  run BalanceAndFee_start ls = Some st ->
  caller_at st = HasReturned balance fees err ->
  (forall b, balance = Some b -> In (BalanceReturns (Ok b)) ls)
  /\ (forall f, fees = Some f -> In (FeeEstimateReturns (Ok f)) ls)
  /\ (forall e, err = Some e ->
                In (BalanceReturns (Err e)) ls
                \/ In (FeeEstimateReturns (Err e)) ls)
  /\ (forallb own_step ls = true -> err = None ->
      exists b f, balance = Some b /\ fees = Some f).
Proof.
  intros Hrun Hc.
  destruct (run_holds_fetched ls _ st holds_fetched_start Hrun)
    as (Hb & Hf & He).
  destruct (run_fetch_result ls _ st Hrun) as [Rb Rf].
  rewrite Hc in Hb, Hf, He. cbn [caller_balance caller_fees caller_err] in *.
  assert (Fb : forall r, fetch_result (balance_goroutine st) = Some r ->
                         In (BalanceReturns r) ls).
  { intros r H. destruct (Rb r H) as [H1|H1]; [discriminate H1 | exact H1]. }
  assert (Ff : forall r, fetch_result (fee_goroutine st) = Some r ->
                         In (FeeEstimateReturns r) ls).
  { intros r H. destruct (Rf r H) as [H1|H1]; [discriminate H1 | exact H1]. }
  split; [|split; [|split]].
  - intros b H. apply Fb. now rewrite (Hb b H).
  - intros f H. apply Ff. now rewrite (Hf f H).
  - intros e H. destruct (He e H) as [H1|H1]; [left; now apply Fb|].
    right. now apply Ff.
  - intros Hown ->.
    destruct (BalanceAndFee_undisturbed_results ls st balance fees None
                Hown Hrun Hc) as (b & f & _ & _ & -> & ->).
    eauto.
Qed.

Lemma BalanceAndFee_returns_what_was_fetched_witness :
  (forall b, Some sample_balance = Some b ->
             In (BalanceReturns (Ok b)) sample_run)
  /\ (forall f, Some Sample.fees = Some f ->
                In (FeeEstimateReturns (Ok f)) sample_run)
  /\ (forall e, None = Some e ->
                In (BalanceReturns (Err e)) sample_run
                \/ In (FeeEstimateReturns (Err e)) sample_run)
  /\ (forallb own_step sample_run = true -> @None error = None ->
      exists b f, Some sample_balance = Some b /\ Some Sample.fees = Some f).
Proof.
  exact (BalanceAndFee_returns_what_was_fetched sample_run sample_final
           (Some sample_balance) (Some Sample.fees) None eq_refl eq_refl).
Defined.

(** X14.  As long as the caller's context is not cancelled, [BalanceAndFee]
    cannot deadlock and it ends: the call is over, with the caller returned
    and both goroutines exited, after six steps at most, and before that some
    goroutine or the caller can always move. *)
Theorem BalanceAndFee_undisturbed_terminates (ls : list label) (st : state) :
  forallb own_step ls = true ->
  run BalanceAndFee_start ls = Some st ->
  (List.length ls + remaining_steps st <= 6)%nat
  /\ (finished st = false ->
      exists l st', own_step l = true /\ step st l = Some st')
  /\ ((forall l st', own_step l = true -> step st l <> Some st') ->
      exists balance fees err,
        caller_at st = HasReturned balance fees err
        /\ exists rb rf,
            balance_goroutine st = Exited rb /\ fee_goroutine st = Exited rf).
Proof.
  intros Hown Hrun.
  pose proof (run_remaining_steps ls _ st Hrun) as Hlen.
  rewrite (filter_own_steps ls Hown) in Hlen.
  pose proof (run_undisturbed ls _ st undisturbed_start Hown Hrun) as Hu.
  split; [exact Hlen|]. split.
  - exact (undisturbed_progress st Hu).
  - intros Hstuck. destruct (finished st) eqn:Hfin.
    + unfold finished in Hfin.
      destruct (balance_goroutine st) as [| | |rb]; try discriminate Hfin.
      destruct (fee_goroutine st) as [| | |rf]; try discriminate Hfin.
      destruct (caller_at st) as [|b f e]; try discriminate Hfin.
      exists b, f, e. split; [reflexivity|]. eauto.
    + destruct (undisturbed_progress st Hu Hfin) as (l & st' & Hl & Hs).
      destruct (Hstuck l st' Hl Hs).
Qed.

Lemma BalanceAndFee_undisturbed_terminates_witness :
  (List.length sample_run + remaining_steps sample_final <= 6)%nat
  /\ (finished sample_final = false ->
      exists l st', own_step l = true /\ step sample_final l = Some st')
  /\ ((forall l st', own_step l = true -> step sample_final l <> Some st') ->
      exists balance fees err,
        caller_at sample_final = HasReturned balance fees err
        /\ exists rb rf,
            balance_goroutine sample_final = Exited rb
            /\ fee_goroutine sample_final = Exited rf).
Proof.
  exact (BalanceAndFee_undisturbed_terminates sample_run sample_final
           eq_refl eq_refl).
Defined.

(** X15.  Once the caller has returned, whatever its context, the goroutines
    of [BalanceAndFee] do not leak: what the caller has returned is not
    changed, a goroutine that has not exited can always move, and all that
    remains to the two of them is six steps at most. *)
Theorem BalanceAndFee_goroutines_exit
  (st st' : state) (ls : list label)
  (balance : option Balance) (fees : option FeeEstimate)
  (err : option error) :
  caller_at st = HasReturned balance fees err ->
  run st ls = Some st' ->
  caller_at st' = HasReturned balance fees err
  /\ (List.length (filter own_step ls) + remaining_steps st'
      <= remaining_steps st <= 6)%nat
  /\ (finished st' = false ->
      exists l st'', own_step l = true /\ step st' l = Some st'').
Proof.
  intros Hc Hrun.
  pose proof (run_caller_returned ls balance fees err st st' Hc Hrun) as Hc'.
  split; [exact Hc'|]. split.
  - split; [exact (run_remaining_steps ls st st' Hrun)|].
    unfold remaining_steps.
    destruct (balance_goroutine st), (fee_goroutine st);
      cbn [goroutine_steps]; lia.
  - exact (goroutines_unblocked_after_return st' balance fees err Hc').
Qed.

Lemma BalanceAndFee_goroutines_exit_witness :
  caller_at
    (mkState (Exited (Err (Foreign "context canceled")))
       (Exited (Err (Foreign "timeout")))
       (HasReturned None None (Some (Foreign "timeout"))) true)
  = HasReturned None None (Some (Foreign "timeout"))
  /\ (List.length
        (filter own_step
           [ParentCancels; BalanceReturns (Err (Foreign "context canceled"));
            BalanceErrAbandoned; FeeAbandoned; BalanceAbandoned])
      + remaining_steps
          (mkState (Exited (Err (Foreign "context canceled")))
             (Exited (Err (Foreign "timeout")))
             (HasReturned None None (Some (Foreign "timeout"))) true)
      <= remaining_steps returned_early <= 6)%nat
  /\ (finished
        (mkState (Exited (Err (Foreign "context canceled")))
           (Exited (Err (Foreign "timeout")))
           (HasReturned None None (Some (Foreign "timeout"))) true)
      = false ->
      exists l st'',
        own_step l = true
        /\ step
             (mkState (Exited (Err (Foreign "context canceled")))
                (Exited (Err (Foreign "timeout")))
                (HasReturned None None (Some (Foreign "timeout"))) true)
             l
           = Some st'').
Proof.
  exact (BalanceAndFee_goroutines_exit returned_early _
           [ParentCancels; BalanceReturns (Err (Foreign "context canceled"));
            BalanceErrAbandoned; FeeAbandoned; BalanceAbandoned]
           None None (Some (Foreign "timeout")) eq_refl eq_refl).
Defined.
(** ** Lightning addresses *)

Lemma append_empty_r (s : string) : s ++ "" = s.
Proof. induction s as [|c s IH]; [reflexivity|]. cbn. now rewrite IH. Qed.

Lemma append_eq_empty (s t : string) : s ++ t = "" -> s = "" /\ t = "".
Proof. destruct s; [auto | discriminate]. Qed.

Lemma append_eq_String (s t u : string) (c : ascii) :
  s ++ t = String c u ->
  (s = "" /\ t = String c u) \/ exists s', s = String c s' /\ u = s' ++ t.
Proof.
  destruct s as [|d s]; cbn; intros H; [left; auto|].
  injection H as -> <-. right. eauto.
Qed.

Lemma nullable_spec (r : regexp) : nullable r = true <-> in_regexp r "".
Proof.
  induction r as [| |f|r1 IH1 r2 IH2|r1 IH1 r2 IH2|r IH]; cbn [nullable].
  - split; [discriminate | intros H; inversion H].
  - split; [constructor | reflexivity].
  - split; [discriminate | intros H; inversion H].
  - rewrite andb_true_iff, IH1, IH2. split.
    + intros [H1 H2]. exact (in_Concat r1 r2 "" "" H1 H2).
    + intros H. inversion H; subst.
      match goal with
      | E : _ ++ _ = "" |- _ =>
          apply append_eq_empty in E; destruct E as [-> ->]
      end.
      auto.
  - rewrite orb_true_iff, IH1, IH2. split.
    + intros [H|H]; [now apply in_Alternate_l | now apply in_Alternate_r].
    + intros H. inversion H; subst; auto.
  - split; [constructor | reflexivity].
Qed.

Lemma in_Star_String (r : regexp) (s : string) :
  in_regexp (Star r) s ->
  forall c u, s = String c u ->
  exists s1 s2, u = s1 ++ s2 /\ in_regexp r (String c s1)
                /\ in_regexp (Star r) s2.
Proof.
  intros H. remember (Star r) as r' eqn:E.
  induction H as [| | | | | |r0 s1 s2 H1 _ H2 IH2]; try discriminate E.
  - intros c u Hs. discriminate Hs.
  - injection E as ->. intros c u Hs.
    destruct (append_eq_String s1 s2 u c Hs) as [[-> ->]|(s' & -> & ->)].
    + exact (IH2 eq_refl c u eq_refl).
    + eauto.
Qed.

Lemma after_char_spec (r : regexp) :
  forall (c : ascii) (s : string),
    in_regexp (after_char c r) s <-> in_regexp r (String c s).
Proof.
  induction r as [| |f|r1 IH1 r2 IH2|r1 IH1 r2 IH2|r IH]; intros c s;
    cbn [after_char].
  - split; intros H; inversion H.
  - split; intros H; inversion H.
  - destruct (f c) eqn:F; split; intros H; inversion H; subst.
    + now constructor.
    + constructor.
    + congruence.
  - assert (L : in_regexp (Concat (after_char c r1) r2) s
                <-> exists s1 s2, s = s1 ++ s2 /\ in_regexp r1 (String c s1)
                                  /\ in_regexp r2 s2).
    { split.
      - intros H. inversion H; subst.
        do 2 eexists. rewrite <- IH1. eauto.
      - intros (s1 & s2 & -> & H1 & H2). constructor; [|exact H2].
        now rewrite IH1. }
    assert (R : in_regexp (Concat r1 r2) (String c s)
                <-> (exists s1 s2, s = s1 ++ s2 /\ in_regexp r1 (String c s1)
                                   /\ in_regexp r2 s2)
                    \/ (in_regexp r1 "" /\ in_regexp r2 (String c s))).
    { split.
      - intros H. inversion H; subst.
        match goal with
        | E : ?s1 ++ ?s2 = String c s |- _ =>
            destruct (append_eq_String s1 s2 s c E)
              as [[-> ->]|(s' & -> & ->)]
        end; [right; auto | left; eauto].
      - intros [(s1 & s2 & -> & H1 & H2)|[H1 H2]].
        + exact (in_Concat r1 r2 (String c s1) s2 H1 H2).
        + exact (in_Concat r1 r2 "" (String c s) H1 H2). }
    rewrite R. destruct (nullable r1) eqn:N.
    + split.
      * intros H. inversion H; subst.
        -- left. now apply L.
        -- right. split; [now apply nullable_spec | now apply IH2].
      * intros [H|[_ H]].
        -- apply in_Alternate_l. now apply L.
        -- apply in_Alternate_r. now apply IH2.
    + rewrite L. split; [auto|]. intros [H|[H _]]; [exact H|].
      apply nullable_spec in H. congruence.
  - split; intros H; inversion H; subst.
    + apply in_Alternate_l. now apply IH1.
    + apply in_Alternate_r. now apply IH2.
    + apply in_Alternate_l. now apply IH1.
    + apply in_Alternate_r. now apply IH2.
  - split.
    + intros H. inversion H; subst.
      match goal with
      | H1 : in_regexp (after_char c r) ?s1, H2 : in_regexp (Star r) ?s2
        |- _ =>
          apply IH in H1; exact (in_Star_more r (String c s1) s2 H1 H2)
      end.
    + intros H.
      destruct (in_Star_String r _ H c s eq_refl) as (s1 & s2 & -> & H1 & H2).
      constructor; [now apply IH | exact H2].
Qed.

(** The matcher decides the language of the regular expression. *)
Lemma MatchString_spec (s : string) :
  forall r, MatchString r s = true <-> in_regexp r s.
Proof.
  induction s as [|c s IH]; intros r; cbn [MatchString].
  - apply nullable_spec.
  - rewrite IH. apply after_char_spec.
Qed.

Lemma in_CharClass_iff (f : ascii -> bool) (s : string) :
  in_regexp (CharClass f) s <-> exists c, s = String c "" /\ f c = true.
Proof.
  split.
  - intros H. inversion H; subst. eauto.
  - intros (c & -> & H). now constructor.
Qed.

Lemma in_Concat_iff (r1 r2 : regexp) (s : string) :
  in_regexp (Concat r1 r2) s
  <-> exists s1 s2, s = s1 ++ s2 /\ in_regexp r1 s1 /\ in_regexp r2 s2.
Proof.
  split.
  - intros H. inversion H; subst. eauto.
  - intros (s1 & s2 & -> & H1 & H2). now constructor.
Qed.

Lemma all_bytes_append (f : ascii -> bool) (s t : string) :
  all_bytes f (s ++ t) = all_bytes f s && all_bytes f t.
Proof.
  induction s as [|c s IH]; [reflexivity|]. cbn [append all_bytes].
  now rewrite IH, andb_assoc.
Qed.

Lemma length_append (s t : string) :
  String.length (s ++ t) = (String.length s + String.length t)%nat.
Proof. induction s as [|c s IH]; cbn; [reflexivity | now rewrite IH]. Qed.

Lemma in_Star_class (f : ascii -> bool) (s : string) :
  in_regexp (Star (CharClass f)) s <-> all_bytes f s = true.
Proof.
  split.
  - intros H. remember (Star (CharClass f)) as r eqn:E.
    induction H as [| | | | | |r0 s1 s2 H1 _ H2 IH2]; try discriminate E.
    + reflexivity.
    + injection E as ->. apply in_CharClass_iff in H1.
      destruct H1 as (c & -> & Hc). cbn [append all_bytes].
      now rewrite Hc, (IH2 eq_refl).
  - induction s as [|c s IH]; cbn [all_bytes]; intros H; [constructor|].
    apply andb_true_iff in H. destruct H as [Hc Hs].
    exact (in_Star_more (CharClass f) (String c "") s
             (in_CharClass f c Hc) (IH Hs)).
Qed.

Lemma in_Plus_class (f : ascii -> bool) (s : string) :
  in_regexp (Plus (CharClass f)) s <-> s <> "" /\ all_bytes f s = true.
Proof.
  unfold Plus. rewrite in_Concat_iff. split.
  - intros (s1 & s2 & -> & H1 & H2). apply in_CharClass_iff in H1.
    destruct H1 as (c & -> & Hc). apply in_Star_class in H2.
    cbn [append all_bytes]. rewrite Hc, H2. split; [discriminate|reflexivity].
  - intros [Hne H]. destruct s as [|c s]; [now contradiction Hne|].
    cbn [all_bytes] in H. apply andb_true_iff in H. destruct H as [Hc Hs].
    exists (String c ""), s. split; [reflexivity|].
    split; [now constructor | now apply in_Star_class].
Qed.

Lemma in_Literal (c : ascii) (s : string) :
  in_regexp (Literal c) s <-> s = String c "".
Proof.
  unfold Literal. rewrite in_CharClass_iff. split.
  - intros (d & -> & H). apply Ascii.eqb_eq in H. now subst d.
  - intros ->. exists c. split; [reflexivity | apply Ascii.eqb_refl].
Qed.

Lemma in_exactly_class (f : ascii -> bool) (n : nat) :
  forall s,
    in_regexp (exactly (CharClass f) n) s
    <-> String.length s = n /\ all_bytes f s = true.
Proof.
  induction n as [|n IH]; intros s; cbn [exactly].
  - split.
    + intros H. inversion H; subst. split; reflexivity.
    + intros [H _]. destruct s; [constructor | discriminate H].
  - rewrite in_Concat_iff. split.
    + intros (s1 & s2 & -> & H1 & H2). apply in_CharClass_iff in H1.
      destruct H1 as (c & -> & Hc). apply IH in H2. destruct H2 as [<- H2].
      cbn [append all_bytes String.length]. rewrite Hc, H2. auto.
    + intros [Hl H]. destruct s as [|c s]; [discriminate Hl|].
      cbn [all_bytes String.length] in *. apply andb_true_iff in H.
      destruct H as [Hc Hs]. exists (String c ""), s.
      split; [reflexivity|]. split; [now constructor|].
      apply IH. split; [congruence | exact Hs].
Qed.

Lemma in_up_to_class (f : ascii -> bool) (n : nat) :
  forall s,
    in_regexp (up_to (CharClass f) n) s
    <-> (String.length s <= n)%nat /\ all_bytes f s = true.
Proof.
  induction n as [|n IH]; intros s; cbn [up_to].
  - split.
    + intros H. inversion H; subst. split; [cbn; lia | reflexivity].
    + intros [H _]. destruct s; [constructor | cbn in H; lia].
  - unfold Quest. split.
    + intros H. inversion H; subst.
      * match goal with H' : in_regexp EmptyMatch _ |- _ => inversion H' end.
        split; [cbn; lia | reflexivity].
      * match goal with
        | H' : in_regexp (Concat _ _) _ |- _ => apply in_Concat_iff in H'
        ; destruct H' as (s1 & s2 & -> & H1 & H2)
        end.
        apply in_CharClass_iff in H1. destruct H1 as (c & -> & Hc).
        apply IH in H2. destruct H2 as [Hl H2].
        cbn [append all_bytes String.length]. rewrite Hc, H2.
        split; [lia | reflexivity].
    + intros [Hl H]. destruct s as [|c s].
      * apply in_Alternate_l. constructor.
      * apply in_Alternate_r. cbn [all_bytes String.length] in *.
        apply andb_true_iff in H. destruct H as [Hc Hs].
        apply in_Concat_iff. exists (String c ""), s.
        split; [reflexivity|]. split; [now constructor|].
        apply IH. split; [lia | exact Hs].
Qed.

Lemma split_at_length (n : nat) :
  forall s, (n <= String.length s)%nat ->
            exists s1 s2, s = s1 ++ s2 /\ String.length s1 = n.
Proof.
  induction n as [|n IH]; intros s H.
  - exists "", s. auto.
  - destruct s as [|c s]; [cbn in H; lia|]. cbn [String.length] in H.
    destruct (IH s ltac:(lia)) as (s1 & s2 & -> & Hl).
    exists (String c s1), s2. cbn [String.length append]. auto.
Qed.

Lemma in_Repeat_class (f : ascii -> bool) (min max : nat) (s : string) :
  (min <= max)%nat ->
  in_regexp (Repeat (CharClass f) min max) s
  <-> (min <= String.length s <= max)%nat /\ all_bytes f s = true.
Proof.
  intros Hmm. unfold Repeat. rewrite in_Concat_iff. split.
  - intros (s1 & s2 & -> & H1 & H2).
    apply in_exactly_class in H1. apply in_up_to_class in H2.
    destruct H1 as [L1 A1], H2 as [L2 A2].
    rewrite length_append, all_bytes_append, A1, A2. split; [lia|reflexivity].
  - intros [Hl H].
    destruct (split_at_length min s ltac:(lia)) as (s1 & s2 & -> & L1).
    rewrite length_append in Hl. rewrite all_bytes_append in H.
    apply andb_true_iff in H. destruct H as [A1 A2].
    exists s1, s2. split; [reflexivity|]. split.
    + apply in_exactly_class. auto.
    + apply in_up_to_class. split; [lia | exact A2].
Qed.

(** What [emailRegex] matches. *)
Lemma emailRegex_spec (s : string) :
  MatchString emailRegex s = true
  <-> exists user host tld,
      s = user ++ "@" ++ host ++ "." ++ tld
      /\ user <> "" /\ all_bytes user_char user = true
      /\ host <> "" /\ all_bytes domain_char host = true
      /\ (2 <= String.length tld <= 4)%nat /\ all_bytes is_lower tld = true.
Proof.
  rewrite MatchString_spec. unfold emailRegex. split.
  - intros H.
    apply in_Concat_iff in H. destruct H as (user & s1 & -> & Hu & H).
    apply in_Concat_iff in H. destruct H as (at_ & s2 & -> & Ha & H).
    apply in_Concat_iff in H. destruct H as (host & s3 & -> & Hh & H).
    apply in_Concat_iff in H. destruct H as (dot & tld & -> & Hd & Ht).
    apply in_Plus_class in Hu. apply in_Literal in Ha.
    apply in_Plus_class in Hh. apply in_Literal in Hd.
    apply in_Repeat_class in Ht; [|lia]. subst at_ dot.
    exists user, host, tld. tauto.
  - intros (user & host & tld & -> & U1 & U2 & H1 & H2 & T1 & T2).
    apply in_Concat_iff. exists user, ("@" ++ host ++ "." ++ tld).
    split; [reflexivity|]. split; [now apply in_Plus_class|].
    apply in_Concat_iff. exists "@", (host ++ "." ++ tld).
    split; [reflexivity|]. split; [now apply in_Literal|].
    apply in_Concat_iff. exists host, ("." ++ tld).
    split; [reflexivity|]. split; [now apply in_Plus_class|].
    apply in_Concat_iff. exists ".", tld.
    split; [reflexivity|]. split; [now apply in_Literal|].
    apply in_Repeat_class; [lia | auto].
Qed.

Lemma user_char_not_at (c : ascii) : user_char c = true -> c <> "@"%char.
Proof. intros H ->. vm_compute in H. discriminate H. Qed.

Lemma domain_char_not_at (c : ascii) : domain_char c = true -> c <> "@"%char.
Proof. intros H ->. vm_compute in H. discriminate H. Qed.

Lemma is_lower_domain_char (c : ascii) :
  is_lower c = true -> domain_char c = true.
Proof. unfold domain_char. now intros ->. Qed.

Lemma Index_from_first (user rest : string) :
  (forall c, In c (list_ascii_of_string user) -> c <> "@"%char) ->
  forall i, Index_from (user ++ String "@" rest) "@" i = i + len user.
Proof.
  induction user as [|c user IH]; intros Hn i.
  - cbn [append Index_from begins_with]. rewrite Ascii.eqb_refl.
    cbn [andb]. unfold len. cbn [String.length]. lia.
  - cbn [append Index_from begins_with].
    destruct (Ascii.eqb "@" c) eqn:E.
    { apply Ascii.eqb_eq in E. subst c.
      exfalso. apply (Hn "@"%char); [left|]; reflexivity. }
    cbn [andb]. rewrite IH.
    + unfold len. cbn [String.length]. lia.
    + intros d Hd. apply Hn. right. exact Hd.
Qed.

Lemma all_bytes_In (f : ascii -> bool) (s : string) :
  all_bytes f s = true ->
  forall c, In c (list_ascii_of_string s) -> f c = true.
Proof.
  induction s as [|d s IH]; cbn [all_bytes list_ascii_of_string];
    intros H c Hc; [destruct Hc|].
  apply andb_true_iff in H. destruct H as [Hd Hs].
  destruct Hc as [<-|Hc]; [exact Hd | now apply IH].
Qed.

Lemma substring_prefix (u v : string) :
  substring 0 (String.length u) (u ++ v) = u.
Proof.
  induction u as [|c u IH]; cbn [String.length append substring].
  - destruct v; reflexivity.
  - now rewrite IH.
Qed.

Lemma substring_whole (v : string) : substring 0 (String.length v) v = v.
Proof.
  induction v as [|c v IH]; cbn [String.length substring];
    [reflexivity | now rewrite IH].
Qed.

Lemma substring_suffix (u v : string) :
  substring (String.length u) (String.length v) (u ++ v) = v.
Proof.
  induction u as [|c u IH]; cbn [String.length append substring].
  - apply substring_whole.
  - exact IH.
Qed.

Lemma slice_username (user rest : string) :
  slice (user ++ String "@" rest) 0 (0 + len user) = user.
Proof.
  unfold slice, len.
  replace (Z.to_nat (0 + Z.of_nat (String.length user) - 0))
    with (String.length user) by lia.
  apply substring_prefix.
Qed.

Lemma slice_from_domain (user rest : string) :
  slice_from (user ++ String "@" rest) (0 + len user + 1) = rest.
Proof.
  unfold slice_from, slice, len. rewrite length_append.
  cbn [String.length].
  replace (Z.to_nat (0 + Z.of_nat (String.length user) + 1))
    with (String.length (user ++ "@")) by (rewrite length_append; cbn; lia).
  replace (Z.to_nat _) with (String.length rest) by lia.
  replace (user ++ String "@" rest) with ((user ++ "@") ++ rest)
    by (now rewrite string_app_assoc).
  apply substring_suffix.
Qed.

Lemma ParseLightningAddress_parsed (user host tld : string) :
  all_bytes user_char user = true ->
  MatchString emailRegex (user ++ "@" ++ host ++ "." ++ tld) = true ->
  ParseLightningAddress (user ++ "@" ++ host ++ "." ++ tld)
  = Returned (Ok {| Username := user; Domain := host ++ "." ++ tld |}).
Proof.
  intros U M. unfold ParseLightningAddress. rewrite M.
  cbn [negb]. unfold Index.
  change (user ++ "@" ++ host ++ "." ++ tld)
    with (user ++ String "@" (host ++ "." ++ tld)).
  rewrite Index_from_first.
  2:{ intros c Hc. apply user_char_not_at.
      exact (all_bytes_In user_char user U c Hc). }
  cbv zeta.
  destruct (0 + len user <? 0) eqn:N.
  { apply Z.ltb_lt in N. unfold len in N. lia. }
  now rewrite slice_username, slice_from_domain.
Qed.

Lemma ParseLightningAddress_inv (lnAddress : string) (a : LightningAddress) :
  ParseLightningAddress lnAddress = Returned (Ok a) ->
  exists user host tld,
    lnAddress = user ++ "@" ++ host ++ "." ++ tld
    /\ user <> "" /\ all_bytes user_char user = true
    /\ host <> "" /\ all_bytes domain_char host = true
    /\ (2 <= String.length tld <= 4)%nat
    /\ all_bytes is_lower tld = true
    /\ a = {| Username := user; Domain := host ++ "." ++ tld |}.
Proof.
  intros H.
  destruct (MatchString emailRegex lnAddress) eqn:M.
  2:{ unfold ParseLightningAddress in H. rewrite M in H. discriminate H. }
  destruct (proj1 (emailRegex_spec lnAddress) M)
    as (user & host & tld & -> & U1 & U2 & H1 & H2 & T1 & T2).
  exists user, host, tld. repeat (split; [assumption|]).
  rewrite (ParseLightningAddress_parsed user host tld U2 M) in H.
  now injection H as <-.
Qed.

(** X16.  [ParseLightningAddress] accepts exactly the strings
    [user@host.tld] in which [user] is a non-empty string of lower-case
    letters, digits and the characters [._%+-], [host] a non-empty string of
    lower-case letters, digits, dots and hyphens, and [tld] two to four
    lower-case letters; the address returned then has the user name [user] and
    the domain [host.tld].  On every other string it returns
    [ErrInvalidLightningAddress]; it never panics. *)
Theorem ParseLightningAddress_accepts (lnAddress : string) :
  (forall a,
      ParseLightningAddress lnAddress = Returned (Ok a)
      <-> exists user host tld,
          lnAddress = user ++ "@" ++ host ++ "." ++ tld
          /\ user <> "" /\ all_bytes user_char user = true
          /\ host <> "" /\ all_bytes domain_char host = true
          /\ (2 <= String.length tld <= 4)%nat
          /\ all_bytes is_lower tld = true
          /\ a = {| Username := user; Domain := host ++ "." ++ tld |})
  /\ ((exists a, ParseLightningAddress lnAddress = Returned (Ok a))
      \/ ParseLightningAddress lnAddress
         = Returned (Err ErrInvalidLightningAddress)).
Proof.
  split.
  - intros a. split; [apply ParseLightningAddress_inv|].
    intros (user & host & tld & -> & U1 & U2 & H1 & H2 & T1 & T2 & ->).
    apply ParseLightningAddress_parsed; [exact U2|]. apply emailRegex_spec.
    exists user, host, tld. tauto.
  - destruct (MatchString emailRegex lnAddress) eqn:M.
    + left.
      destruct (proj1 (emailRegex_spec lnAddress) M)
        as (user & host & tld & -> & U1 & U2 & _).
      eexists. exact (ParseLightningAddress_parsed user host tld U2 M).
    + right. unfold ParseLightningAddress. now rewrite M.
Qed.

Lemma all_bytes_impl (f g : ascii -> bool) (s : string) :
  (forall c, f c = true -> g c = true) ->
  all_bytes f s = true -> all_bytes g s = true.
Proof.
  intros Hfg. induction s as [|c s IH]; cbn [all_bytes]; [reflexivity|].
  intros H. apply andb_true_iff in H. destruct H as [Hc Hs].
  now rewrite (Hfg c Hc), (IH Hs).
Qed.

(** X17.  An address that [ParseLightningAddress] returns is written back by
    [String] as the string that was parsed.  Its user name is not empty and
    holds only lower-case letters, digits and the characters [._%+-]; its
    domain holds only lower-case letters, digits, dots and hyphens and has at
    least four of them: neither holds an ['@'], a ['/'] or an upper-case
    letter, and the parsed string holds a single ['@']. *)
Theorem ParseLightningAddress_String
  (lnAddress : string) (a : LightningAddress) :
  ParseLightningAddress lnAddress = Returned (Ok a) ->
  LightningAddress_String a = lnAddress
  /\ Username a <> ""
  /\ all_bytes user_char (Username a) = true
  /\ all_bytes domain_char (Domain a) = true
  /\ (4 <= String.length (Domain a))%nat
  /\ Index (Username a) "@" = -1
  /\ Index (Domain a) "@" = -1
  /\ Index lnAddress "@" = len (Username a).
Proof.
  intros H.
  apply ParseLightningAddress_inv in H.
  destruct H as (user & host & tld & -> & U1 & U2 & H1 & H2 & T1 & T2 & ->).
  cbn [Username Domain]. unfold LightningAddress_String.
  cbn [Username Domain].
  assert (D : all_bytes domain_char (host ++ "." ++ tld) = true).
  { rewrite !all_bytes_append, H2.
    rewrite (all_bytes_impl is_lower domain_char tld is_lower_domain_char T2).
    reflexivity. }
  assert (NoAt : forall (f : ascii -> bool) s,
             (forall c, f c = true -> c <> "@"%char) ->
             all_bytes f s = true -> Index s "@" = -1).
  { intros f s Hf. unfold Index. generalize 0.
    induction s as [|c s IH]; intros i Hs; [reflexivity|].
    cbn [all_bytes] in Hs. apply andb_true_iff in Hs. destruct Hs as [Hc Hs].
    cbn [Index_from begins_with].
    destruct (Ascii.eqb "@" c) eqn:E.
    { apply Ascii.eqb_eq in E. subst c. now destruct (Hf _ Hc). }
    cbn [andb]. now apply IH. }
  split; [reflexivity|]. split; [exact U1|]. split; [exact U2|].
  split; [exact D|]. split.
  { rewrite !length_append. cbn [String.length].
    destruct host; [now contradiction H1 | cbn [String.length]; lia]. }
  split; [exact (NoAt user_char user user_char_not_at U2)|].
  split; [exact (NoAt domain_char _ domain_char_not_at D)|].
  unfold Index.
  change (user ++ "@" ++ host ++ "." ++ tld)
    with (user ++ String "@" (host ++ "." ++ tld)).
  rewrite Index_from_first; [lia|].
  intros c Hc. apply user_char_not_at.
  exact (all_bytes_In user_char user U2 c Hc).
Qed.

Lemma ParseLightningAddress_String_witness :
  LightningAddress_String
    {| Username := "dorsalpuma54"; Domain := "walletofsatoshi.com" |}
  = "dorsalpuma54@walletofsatoshi.com"
  /\ Username {| Username := "dorsalpuma54"; Domain := "walletofsatoshi.com" |}
     <> ""
  /\ all_bytes user_char
       (Username
          {| Username := "dorsalpuma54"; Domain := "walletofsatoshi.com" |})
     = true
  /\ all_bytes domain_char
       (Domain
          {| Username := "dorsalpuma54"; Domain := "walletofsatoshi.com" |})
     = true
  /\ (4 <= String.length
             (Domain
                {| Username := "dorsalpuma54";
                   Domain := "walletofsatoshi.com" |}))%nat
  /\ Index
       (Username
          {| Username := "dorsalpuma54"; Domain := "walletofsatoshi.com" |})
       "@"
     = -1
  /\ Index
       (Domain
          {| Username := "dorsalpuma54"; Domain := "walletofsatoshi.com" |})
       "@"
     = -1
  /\ Index "dorsalpuma54@walletofsatoshi.com" "@"
     = len (Username
              {| Username := "dorsalpuma54";
                 Domain := "walletofsatoshi.com" |}).
Proof.
  apply (ParseLightningAddress_String "dorsalpuma54@walletofsatoshi.com"
           {| Username := "dorsalpuma54"; Domain := "walletofsatoshi.com" |}).
  vm_compute. reflexivity.
Defined.
